(** * Cricket bot: classifier, filter evaluator, match source and tick scheduler

    A shallow embedding of [index.js] (the polling scheduler and the
    match-classification / throttling engine) together with the properties
    stated about it.

    Conventions of the embedding.
    - JavaScript strings are [string]s of ASCII characters; [toLowerCase],
      [trim] and the regular-expression classes [\s], [\w] are the ASCII ones.
    - A property that may be missing from a JSON object is an [option];
      [None] stands for [undefined]/[null].
    - Epoch times are exact integers.  [now = Date.now()/1000] and every
      quantity compared with it ([lastPostedByMatch], [next_due_*]) are held
      in milliseconds; the two daily timestamps, which the source stores
      after [Math.floor], are whole seconds.  The one test that is also
      given in JavaScript's own numbers is the throttle test
      ([dueInNumbers]).
    - [async] code is a state-and-exception monad over the mutable objects
      the source shares: the tenant's [cfg], [lastPostedByMatch], the file
      written by [saveData] and the messages delivered by [channel.send].
      [tick] is one invocation from its start to its end, with no other
      invocation and no command handler in between its steps.  The timer
      does not wait for an invocation to end: [Interleaved.tick] is the same
      code with its [await]s, and [Interleaved.schedule] runs invocations
      that overlap.
    - A JavaScript object used as a map ([lastPostedByMatch], [byId]) holds
      its own properties only; keys that name a member of
      [Object.prototype] are outside the model. *)

From stdpp Require Import base strings gmap list.
From Stdlib Require Import ZArith Lia Ascii.
From Stdlib Require Import PrimFloat.

Local Open Scope Z_scope.

(** ** Text primitives *)

Module Text.

(** [\s] restricted to ASCII: TAB, LF, VT, FF, CR and SPACE. *)
Definition is_ws (c : ascii) : bool :=
  let n := N_of_ascii c in
  (((9 <=? n) && (n <=? 13)) || (n =? 32))%N.

(** [\w]: letters, digits and underscore. *)
Definition is_word (c : ascii) : bool :=
  let n := N_of_ascii c in
  (((48 <=? n) && (n <=? 57)) || ((65 <=? n) && (n <=? 90))
   || ((97 <=? n) && (n <=? 122)) || (n =? 95))%N.

Definition lower_char (c : ascii) : ascii :=
  let n := N_of_ascii c in
  if ((65 <=? n) && (n <=? 90))%N then ascii_of_N (n + 32) else c.

(** [s.toLowerCase()] *)
Fixpoint toLowerCase (s : string) : string :=
  match s with
  | EmptyString => EmptyString
  | String c r => String (lower_char c) (toLowerCase r)
  end.

Fixpoint trimStart (s : string) : string :=
  match s with
  | EmptyString => EmptyString
  | String c r => if is_ws c then trimStart r else s
  end.

Fixpoint trimEnd (s : string) : string :=
  match s with
  | EmptyString => EmptyString
  | String c r =>
      match trimEnd r with
      | EmptyString => if is_ws c then EmptyString else String c EmptyString
      | r' => String c r'
      end
  end.

(** [s.trim()] *)
Definition trim (s : string) : string := trimEnd (trimStart s).

(** [s.replace(/\s+/g,' ')]: [inrun] tells that the previous character
    belonged to the run of white space being replaced. *)
Fixpoint collapse (inrun : bool) (s : string) : string :=
  match s with
  | EmptyString => EmptyString
  | String c r =>
      if is_ws c
      then (if inrun then collapse true r else String " "%char (collapse true r))
      else String c (collapse false r)
  end.

Definition isEmpty (s : string) : bool :=
  match s with EmptyString => true | _ => false end.

(** [k] is a prefix of [s]; the rest is returned. *)
Fixpoint stripPrefix (k s : string) : option string :=
  match k, s with
  | EmptyString, _ => Some s
  | String a k', String b s' =>
      if Ascii.eqb a b then stripPrefix k' s' else None
  | String _ _, EmptyString => None
  end.

Definition startsWith (s k : string) : bool :=
  match stripPrefix k s with Some _ => true | None => false end.

(** [s.includes(k)] *)
Fixpoint includes (s k : string) : bool :=
  startsWith s k ||
  match s with
  | EmptyString => false
  | String _ r => includes r k
  end.

(** [/k\b/.test(s)] for a literal [k] that ends in a word character: an
    occurrence of [k] followed by the end of [s] or by a non-word
    character. *)
Fixpoint includesThenBoundary (s k : string) : bool :=
  match stripPrefix k s with
  | Some EmptyString => true
  | Some (String c _) => negb (is_word c)
  | None => false
  end ||
  match s with
  | EmptyString => false
  | String _ r => includesThenBoundary r k
  end.

(** [parts.join(' ')] *)
Fixpoint join (parts : list string) : string :=
  match parts with
  | [] => EmptyString
  | [p] => p
  | p :: rest => p +:+ String " "%char (join rest)
  end.

(** [/(k1|k2|...)/.test(s)] for literal alternatives. *)
Definition testAny (alts : list string) (s : string) : bool :=
  existsb (includes s) alts.

(** The same with the [i] flag. *)
Definition testAnyI (alts : list string) (s : string) : bool :=
  testAny alts (toLowerCase s).

(** [o || d] on a string property: [undefined] and [''] are falsy. *)
Definition orElse (o : option string) (d : string) : string :=
  match o with
  | Some s => if isEmpty s then d else s
  | None => d
  end.

Definition orElseOpt (o p : option string) : option string :=
  match o with
  | Some s => if isEmpty s then p else o
  | None => p
  end.

(** [norm = (s)=> (s||'').toString().trim().toLowerCase().replace(/\s+/g,' ')] *)
Definition norm (s : option string) : string :=
  collapse false (toLowerCase (trim (orElse s ""))).

(** [arr.includes(x)] on an array of strings. *)
Definition arrIncludes (arr : list string) (x : string) : bool :=
  existsb (String.eqb x) arr.

(** A keyword that starts and ends with a visible character. *)
Definition tight (k : string) : Prop :=
  (exists a k1, k = String a k1 /\ is_ws a = false) /\
  (exists k0 c, k = k0 +:+ String c "" /\ is_ws c = false).

End Text.

Import Text.

(** ** Match records (upstream JSON) *)

Record Team := mkTeam {
  t_name : option string;
  t_shortname : option string;
}.

(** [matchStarted] arrives as a boolean or as a string. *)
Inductive JsFlag :=
| FlagBool (b : bool)
| FlagStr (s : string).

Record Match := mkMatch {
  m_id : option string;
  m_unique_id : option string;
  m_matchId : option string;
  m_name : option string;
  m_series : option string;
  m_matchType : option string;
  m_status : option string;
  m_matchStarted : option JsFlag;
  m_dateTimeGMT : option string;
  m_teamInfo : option (list Team);
}.

(** [a ?? b] *)
Definition nullish {A} (a b : option A) : option A :=
  match a with Some _ => a | None => b end.

(** [function matchIdOf(m){ return String(m.id ?? m.unique_id ?? m.matchId ?? m.name ?? ''); }] *)
Definition matchIdOf (m : Match) : string :=
  default "" (nullish (m_id m) (nullish (m_unique_id m) (nullish (m_matchId m) (m_name m)))).

(** ** Heuristics (category and gender) *)

Definition FRANCHISE_MAP : list string :=
  ["indian premier league"; "ipl"; "big bash"; "bbl"; "pakistan super league"; "psl";
   "caribbean premier league"; "cpl"; "the hundred"; "bangladesh premier league"; "bpl";
   "lanka premier league"; "lpl"; "sa20"; "major league cricket"; "mlc"; "global t20";
   "gt20"; "super smash"; "t10 league"; "abu dhabi t10"].

Definition FIRST_CLASS_MAP : list string :=
  ["ranji trophy"; "sheffield shield"; "county championship"; "plunket shield"; "logan cup";
   "quaid-e-azam trophy"; "four-day"; "4-day"].

Definition DOMESTIC_LISTA_T20_MAP : list string :=
  ["vijay hazare trophy"; "syed mushtaq ali"; "smat"; "royal london one-day";
   "deodhar trophy"; "duleep trophy"; "momentum one day cup"; "marsh one-day cup";
   "national t20 cup"; "super50"; "one-day cup"].

Definition INDIAN_DOMESTIC_SERIES : list string :=
  ["ranji trophy"; "vijay hazare"; "syed mushtaq ali"; "smat"; "duleep trophy";
   "deodhar trophy"; "irani cup"; "elite group"; "plate"].

Definition STRONG_INTL : list string :=
  ["t20i"; "odi"; "test"; "icc"; "world cup"; "asia cup"; "champions trophy"; "tri-series";
   "tour of"; "international"].

Definition states : list string :=
  ["mumbai"; "delhi"; "karnataka"; "tamil nadu"; "bengal"; "saurashtra"; "vidarbha";
   "baroda"; "gujarat"; "maharashtra"; "punjab"; "services"; "railways"; "uttarakhand";
   "hyderabad"; "andhra"; "kerala"; "jharkhand"; "jammu"; "kashmir"; "haryana";
   "uttar pradesh"; "madhya pradesh"; "assam"; "goa"; "tripura"; "manipur"; "meghalaya";
   "mizoram"; "nagaland"; "sikkim"; "chhattisgarh"; "himachal"; "rajasthan"; "pondicherry";
   "chandigarh"; "odisha"; "orissa"].

(** [norm(match.series||match.name)] *)
Definition seriesOf (m : Match) : string :=
  norm (orElseOpt (m_series m) (m_name m)).

(** [teamInfo.map(t=>[norm(t.name),norm(t.shortname)]).flat().filter(Boolean).join(' ')] *)
Definition matchTeamNames (m : Match) : string :=
  join (List.filter (fun s => negb (isEmpty s))
          (List.concat (map (fun t => [norm (t_name t); norm (t_shortname t)])
                       (default [] (m_teamInfo m))))).

(** The second test of [isIndianDomestic]: a state name occurs in the
    participants' names. *)
Definition statesInNames (m : Match) : bool :=
  existsb (includes (matchTeamNames m)) states.

Definition isIndianDomestic (m : Match) : bool :=
  if existsb (includes (seriesOf m)) INDIAN_DOMESTIC_SERIES then true
  else statesInNames m.

Definition guessCategory (m : Match) : string :=
  let series := seriesOf m in
  let mtype := norm (Some (orElse (m_matchType m) "")) in
  if isIndianDomestic m then
    if includes series "ranji" || includes series "elite group" || includes series "plate"
       || includes mtype "first class" || includes mtype "four-day" || includes mtype "4-day"
    then "first-class" else "domestic"
  else if existsb (includes series) FRANCHISE_MAP then "franchise"
  else if includes series "first class" || existsb (includes series) FIRST_CLASS_MAP
          || includes mtype "first class" || includes mtype "four-day" || includes mtype "4-day"
  then "first-class"
  else if includes series "list a" || existsb (includes series) DOMESTIC_LISTA_T20_MAP
          || includes mtype "list a" || (includes mtype "t20" && negb (includes mtype "t20i"))
  then "domestic"
  else if existsb (includes series) STRONG_INTL || testAny ["t20i"; "odi"; "test"] mtype
  then "international"
  else "domestic".

Definition guessGender (m : Match) : string :=
  let series := seriesOf m in
  let teamInfo := default [] (m_teamInfo m) in
  let teamStr := matchTeamNames m in
  if includes series "women" || includes series "womens" then "women"
  else if includes teamStr " women" then "women"
  else
    let short := map (fun t => norm (Some (orElse (t_shortname t) ""))) teamInfo in
    if existsb (fun sn => includesThenBoundary sn "-w" || includesThenBoundary sn " women") short
    then "women" else "men".

Definition FINISHED_RE : list string :=
  ["stump"; "stumps"; "abandon"; "no result"; "completed"; "won by"; "finished"].

Definition LIVE_RE : list string :=
  ["live"; "day"; "inning"; "session"; "break"; "opt to bat"; "opt to bowl"].

(** [String(m.matchStarted??'').toLowerCase()==='true'] *)
Definition startedFlag (m : Match) : bool :=
  match m_matchStarted m with
  | Some (FlagBool b) => b
  | Some (FlagStr s) => String.eqb (toLowerCase s) "true"
  | None => false
  end.

Definition relevantLive (m : Match) : bool :=
  let status := norm (m_status m) in
  if testAny LIVE_RE status then true
  else if startedFlag m && negb (testAnyI FINISHED_RE status) then true
  else false.

(** [FINISHED_RE.test((m.status||'').toString())] *)
Definition isFinishedOrStumps (m : Match) : bool :=
  testAnyI FINISHED_RE (orElse (m_status m) "").

Definition genderAllowed (m : Match) (genders : option (list string)) : bool :=
  arrIncludes (default ["men"; "women"] genders) (guessGender m).

Definition categoryAllowed (m : Match) (allowed : option (list string)) : bool :=
  arrIncludes (default [] allowed) (guessCategory m).

Definition teamAllowed (m : Match) (teamFilters : option (list string)) : bool :=
  match teamFilters with
  | None | Some [] => true
  | Some toks => existsb (fun tok => includes (matchTeamNames m) (norm (Some tok))) toks
  end.

(** ** Process configuration, tenant configuration and the outside world *)

Definition IDLE_BACKOFF_SECONDS : Z := 1800.

Inductive Exn :=
| NetworkError
| HttpError (status : Z)
| ParseError
| TypeError
| SendError
| DiskError.

(** The outcome of an awaited promise. *)
Definition Result (A : Type) : Type := Exn + A.

(** [try{ return await f(); }catch{ return []; }] *)
Definition safe {A} (r : Result (list A)) : list A :=
  match r with
  | inr l => l
  | inl _ => []
  end.

(** One record of [guild_cricket_config.json].  The three bookkeeping keys
    [next_due_<gId>], [fallback_summary_<gId>] and [next_summary_<gId>] live
    in the tenant's own object, hence one field each. *)
Record Cfg := mkCfg {
  channel_id : option string;
  mode : option string;
  filters : option (list string);
  selected_match_ids : option (list string);
  daily_time : option string;
  ping_enabled : bool;
  role_ids : option (list string);
  team_filters : option (list string);
  gender_filters : option (list string);
  is_paused : bool;
  next_due : option Z;
  fallback_summary : option Z;
  next_summary : option Z;
}.

Definition set_selected (v : option (list string)) (c : Cfg) : Cfg :=
  mkCfg (channel_id c) (mode c) (filters c) v (daily_time c) (ping_enabled c) (role_ids c)
        (team_filters c) (gender_filters c) (is_paused c) (next_due c) (fallback_summary c)
        (next_summary c).

Definition set_next_due (v : option Z) (c : Cfg) : Cfg :=
  mkCfg (channel_id c) (mode c) (filters c) (selected_match_ids c) (daily_time c)
        (ping_enabled c) (role_ids c) (team_filters c) (gender_filters c) (is_paused c) v
        (fallback_summary c) (next_summary c).

Definition set_fallback_summary (v : option Z) (c : Cfg) : Cfg :=
  mkCfg (channel_id c) (mode c) (filters c) (selected_match_ids c) (daily_time c)
        (ping_enabled c) (role_ids c) (team_filters c) (gender_filters c) (is_paused c)
        (next_due c) v (next_summary c).

Definition set_next_summary (v : option Z) (c : Cfg) : Cfg :=
  mkCfg (channel_id c) (mode c) (filters c) (selected_match_ids c) (daily_time c)
        (ping_enabled c) (role_ids c) (team_filters c) (gender_filters c) (is_paused c)
        (next_due c) (fallback_summary c) v.

Definition set_filters (v : option (list string)) (c : Cfg) : Cfg :=
  mkCfg (channel_id c) (mode c) v (selected_match_ids c) (daily_time c)
        (ping_enabled c) (role_ids c) (team_filters c) (gender_filters c) (is_paused c)
        (next_due c) (fallback_summary c) (next_summary c).

(** [data]: tenant id to configuration, in [Object.entries] order. *)
Definition Data : Type := list (string * Cfg).

(** What [fetchScorecard] resolves to ([j?.data || {}]), reduced to what
    [scorecardEmbedsFrom] iterates over: a title and the innings. *)
Record ScoreData := mkScore {
  sc_title : string;
  sc_innings : list string;
}.

(** An embed of a scorecard message: the summary embed or one innings. *)
Inductive ScoreEmbed :=
| TopEmbed (title : string)
| InningsEmbed (head : string).

(** Messages handed to [channel.send].  [PFinalScorecard] carries the id the
    scorecard was fetched for, although the text sent does not show it. *)
Inductive Post :=
| PFinalScorecard (mid : string) (embeds : list ScoreEmbed)
| PStopped (mid : string)
| PLive (content : option string) (m : Match)
| PFallbackNone
| PDailyNone
| PSummary (content : option string) (embeds : list Match)
| PTomorrow (chunk : string).

(** Everything a tick reads from outside the process. *)
Record World := mkWorld {
  (** [Date.now()], in milliseconds *)
  now : Z;
  (** [todayISO()] and [tomorrowISO()] *)
  todayISO : string;
  tomorrowISO : string;
  (** [new Date(s).toISOString().slice(0,10)]; [None] when it throws *)
  isoDateOf : string -> option string;
  (** [Math.floor(hhmmToNextDate(hhmm).getTime()/1000)]; [None] for [NaN] *)
  hhmmToNextDate : string -> option Z;
  (** what [getCurrentMatches()] settles to *)
  currentMatches : Result (list Match);
  (** what [fetchPaginated] of the [matches] endpoint settles to *)
  allMatches : Result (list Match);
  (** what [fetchScorecard(id)] settles to *)
  scorecardOf : string -> Result ScoreData;
  (** [client.channels.fetch(id).catch(()=>null)] found the channel *)
  channelFound : string -> bool;
  (** [channel.send(post)] resolves (otherwise it rejects) *)
  sendOk : string -> Post -> bool;
  (** [fs.writeFileSync] returns (otherwise it throws) *)
  diskOk : bool;
}.

(** ** Date-scoped relevance *)

Definition onDate (w : World) (iso : string) (m : Match) : bool :=
  match m_dateTimeGMT m with
  | Some dtg =>
      match isoDateOf w dtg with
      | Some d => String.eqb d iso
      | None => false
      end
  | None => false
  end.

(** [getTodayMatchesSafe] and [getMatchesForISOSafe] *)
Definition getTodayMatchesSafe (w : World) : list Match :=
  safe (match allMatches w with
        | inr all => inr (List.filter (onDate w (todayISO w)) all)
        | inl e => inl e
        end).

Definition getMatchesForISOSafe (w : World) (iso : string) : list Match :=
  safe (match allMatches w with
        | inr all => inr (List.filter (onDate w iso) all)
        | inl e => inl e
        end).

Definition getCurrentMatchesSafe (w : World) : list Match := safe (currentMatches w).

Definition isTodayOrLive (w : World) (m : Match) : bool :=
  match m_dateTimeGMT m with
  | Some dtg =>
      if isEmpty dtg then relevantLive m
      else match isoDateOf w dtg with
           | Some d => if String.eqb d (todayISO w) then true else relevantLive m
           | None => relevantLive m
           end
  | None => relevantLive m
  end.

(** [mentionText(cfg)] *)
Definition mentionText (cfg : Cfg) : option string :=
  if ping_enabled cfg then
    match map (fun r => "<@&" +:+ r +:+ ">") (default [] (role_ids cfg)) with
    | [] => None
    | roles => Some (join roles)
    end
  else None.

(** ** JavaScript objects used as maps and sets *)

Module JsObj.

Definition digit (c : ascii) : option N :=
  let n := N_of_ascii c in
  if ((48 <=? n) && (n <=? 57))%N then Some (n - 48)%N else None.

Fixpoint digits (acc : N) (s : string) : option N :=
  match s with
  | EmptyString => Some acc
  | String c r =>
      match digit c with
      | Some d => digits (acc * 10 + d)%N r
      | None => None
      end
  end.

(** An array index: the canonical decimal text of an integer below
    [2^32 - 1].  Such keys are enumerated first, in numeric order. *)
Definition arrayIndex (k : string) : option N :=
  match k with
  | EmptyString => None
  | String c r =>
      if Ascii.eqb c "0"%char && negb (isEmpty r) then None
      else match digits 0 k with
           | Some n => if (n <? 4294967295)%N then Some n else None
           | None => None
           end
  end.

(** Own properties in creation order. *)
Definition t (V : Type) : Type := list (string * V).

Definition empty {V} : t V := [].

(** [obj[k] = v] *)
Fixpoint put {V} (k : string) (v : V) (obj : t V) : t V :=
  match obj with
  | [] => [(k, v)]
  | (k', v') :: rest =>
      if String.eqb k k' then (k', v) :: rest else (k', v') :: put k v rest
  end.

Fixpoint insertByIndex {V} (n : N) (v : V) (l : list (N * V)) : list (N * V) :=
  match l with
  | [] => [(n, v)]
  | (n', v') :: rest =>
      if (n <=? n')%N then (n, v) :: l else (n', v') :: insertByIndex n v rest
  end.

Definition indexed {V} (obj : t V) : list (N * V) :=
  fold_right (fun kv acc =>
                match arrayIndex (fst kv) with
                | Some n => insertByIndex n (snd kv) acc
                | None => acc
                end) [] obj.

Definition named {V} (obj : t V) : list V :=
  map snd (List.filter (fun kv => match arrayIndex (fst kv) with
                                  | Some _ => false
                                  | None => true
                                  end) obj).

(** [Object.values(obj)] *)
Definition values {V} (obj : t V) : list V :=
  map snd (indexed obj) ++ named obj.

End JsObj.

(** [new Set(arr)]: the distinct elements in order of first occurrence. *)
Fixpoint setOf (l : list string) : list string :=
  match l with
  | [] => []
  | x :: r => x :: List.filter (fun y => negb (String.eqb x y)) (setOf r)
  end.

(** [sel.delete(mid)] *)
Definition setDelete (mid : string) (sel : list string) : list string :=
  List.filter (fun y => negb (String.eqb mid y)) sel.

(** [const byId={}; for(const m of [...todays,...current]) byId[matchIdOf(m)]=m;] *)
Definition mergeById (todays current : list Match) : JsObj.t Match :=
  fold_left (fun byId m => JsObj.put (matchIdOf m) m byId) (todays ++ current) JsObj.empty.

(** ** The scheduler monad *)

(** Which guarded block of [tick] was entered (ghost record, for stating
    which branches ran). *)
Inductive Branch := BranchA | BranchB | BranchC.

(** The mutable objects one tenant's iteration of [tick] works on. *)
Record St := mkSt {
  st_cfg : Cfg;
  st_last : gmap string Z;
  st_disk : Data;
  st_posts : list (string * Post);
  st_trace : list Branch;
}.

Definition M (A : Type) : Type := St -> Result A * St.

Definition ret {A} (a : A) : M A := fun s => (inr a, s).

Definition bind {A B} (m : M A) (k : A -> M B) : M B :=
  fun s =>
    match m s with
    | (inr a, s') => k a s'
    | (inl e, s') => (inl e, s')
    end.

Definition throw {A} (e : Exn) : M A := fun s => (inl e, s).

(** [try{ m }catch{}] *)
Definition tryCatch (m : M unit) : M unit :=
  fun s =>
    match m s with
    | (inl _, s') => (inr tt, s')
    | r => r
    end.

Notation "x <- m ;; k" := (bind m (fun x => k))
  (at level 100, m at next level, right associativity).
Notation "m ;;; k" := (bind m (fun _ => k))
  (at level 100, right associativity).

Definition getCfg : M Cfg := fun s => (inr (st_cfg s), s).

Definition modifyCfg (f : Cfg -> Cfg) : M unit :=
  fun s => (inr tt, mkSt (f (st_cfg s)) (st_last s) (st_disk s) (st_posts s) (st_trace s)).

(** [lastPostedByMatch[mid]||0] *)
Definition lastOf (last : gmap string Z) (mid : string) : Z := default 0 (last !! mid).

Definition getLast (mid : string) : M Z := fun s => (inr (lastOf (st_last s) mid), s).

Definition setLast (mid : string) (t : Z) : M unit :=
  fun s => (inr tt, mkSt (st_cfg s) (<[mid := t]> (st_last s)) (st_disk s) (st_posts s) (st_trace s)).

Definition enter (b : Branch) : M unit :=
  fun s => (inr tt, mkSt (st_cfg s) (st_last s) (st_disk s) (st_posts s) (st_trace s ++ [b])).

(** [await channel.send(post)] *)
Definition send (w : World) (ch : string) (p : Post) : M unit :=
  fun s =>
    if sendOk w ch p
    then (inr tt, mkSt (st_cfg s) (st_last s) (st_disk s) (st_posts s ++ [(ch, p)]) (st_trace s))
    else (inl SendError, s).

(** [saveData()]: the whole of [data] is written; [whole cfg] is [data] with
    the tenant at hand holding [cfg]. *)
Definition saveData (w : World) (whole : Cfg -> Data) : M unit :=
  fun s =>
    if diskOk w
    then (inr tt, mkSt (st_cfg s) (st_last s) (whole (st_cfg s)) (st_posts s) (st_trace s))
    else (inl DiskError, s).

Definition liftResult {A} (r : Result A) : M A :=
  match r with
  | inr a => ret a
  | inl e => throw e
  end.

(** [for(const x of xs){ body }] threading the loop's local variables. *)
Fixpoint forEach {A L} (xs : list A) (body : A -> L -> M L) (l : L) : M L :=
  match xs with
  | [] => ret l
  | x :: rest => l' <- body x l ;; forEach rest body l'
  end.

(** [embeds.slice(0,10)] of [top] followed by one embed per innings. *)
Definition scorecardEmbedsFrom (sd : ScoreData) : list ScoreEmbed :=
  firstn 10 (TopEmbed (sc_title sd) :: map InningsEmbed (sc_innings sd)).

(** The slices [matches.slice(i,i+8)] for [i = 0, 8, 16, ...]. *)
Fixpoint slicesFrom (fuel : nat) (l : list Match) : list (list Match) :=
  match fuel, l with
  | _, [] => []
  | O, _ => []
  | S f, _ => firstn 8 l :: slicesFrom f (skipn 8 l)
  end.

Definition slices (l : list Match) : list (list Match) := slicesFrom (length l) l.

(** Process-level configuration. *)
Record Env := mkEnv {
  (** [parseInt(process.env.POLL_SECONDS || '600', 10)] *)
  POLL_SECONDS : Z;
  (** [process.env.DAILY_SUMMARY_HHMM || '2100'] *)
  DAILY_SUMMARY_HHMM : string;
  (** Text layout of the fixtures listing: the chunks [chunkText] makes of
      the header and one line per match. *)
  tomorrowChunks : list Match -> list string;
}.

Section Scheduler.

Variable env : Env.

(** [formatTomorrowList(matches, genders, teams)] *)
Definition formatTomorrowList (matches : list Match) (genders teams : list string) : list string :=
  let filtered :=
    List.filter (fun m => teamAllowed m (Some teams))
      (List.filter (fun m => genderAllowed m (Some genders))
         (List.filter (fun m => String.eqb (guessCategory m) "international") matches)) in
  match filtered with
  | [] => ["No international matches scheduled for tomorrow with your filters."]
  | _ => tomorrowChunks env filtered
  end.

Definition sendTomorrowsInternationals (w : World) (ch : string) : M unit :=
  cfg <- getCfg ;;
  let matches := getMatchesForISOSafe w (tomorrowISO w) in
  let chunks := formatTomorrowList matches (default ["men"; "women"] (gender_filters cfg))
                                   (default [] (team_filters cfg)) in
  forEach chunks (fun c _ => send w ch (PTomorrow c)) tt.

(** The summary posts: eight embeds a message, the ping on the first. *)
Definition sendSlices (w : World) (ch : string) (pingStr : option string)
           (matches : list Match) : M unit :=
  match slices matches with
  | [] => ret tt
  | first :: rest =>
      send w ch (PSummary pingStr first) ;;;
      forEach rest (fun sl _ => send w ch (PSummary None sl)) tt
  end.

(** Body of the loop over [matches] in the custom/live branch; the locals
    are [sel] and [anyLive]. *)
Definition trackMatch (w : World) (whole : Cfg -> Data) (ch : string)
           (pingStr : option string) (filters genders teams : list string)
           (m : Match) (loc : list string * bool) : M (list string * bool) :=
  let '(sel, anyLive) := loc in
  let mid := matchIdOf m in
  if arrIncludes sel mid && categoryAllowed m (Some filters) && genderAllowed m (Some genders)
     && teamAllowed m (Some teams)
  then
    if testAnyI FINISHED_RE (orElse (m_status m) "") then
      tryCatch (sc <- liftResult (scorecardOf w mid) ;;
                let embeds := scorecardEmbedsFrom sc in
                match embeds with
                | [] => ret tt
                | _ => send w ch (PFinalScorecard mid embeds)
                end) ;;;
      let sel' := setDelete mid sel in
      modifyCfg (set_selected (Some sel')) ;;;
      saveData w whole ;;;
      send w ch (PStopped mid) ;;;
      ret (sel', anyLive)
    else if relevantLive m then
      last <- getLast mid ;;
      if now w - last >=? (POLL_SECONDS env - 5) * 1000
      then send w ch (PLive pingStr m) ;;; setLast mid (now w) ;;; ret (sel, true)
      else ret (sel, true)
    else ret (sel, anyLive)
  else ret (sel, anyLive).

(** The block guarded by [mode==='custom' && sel.size>0]; it returns the
    set [sel] as the block leaves it. *)
Definition customLive (w : World) (whole : Cfg -> Data) (ch : string)
           (pingStr : option string) (filters genders teams : list string)
           (sel : list string) : M (list string) :=
  cfg <- getCfg ;;
  let nextDue := default 0 (next_due cfg) in
  if now w >=? nextDue then
    let matches := getCurrentMatchesSafe w in
    loc <- forEach matches (trackMatch w whole ch pingStr filters genders teams) (sel, false) ;;
    modifyCfg (set_next_due
                 (Some (now w + (if snd loc then POLL_SECONDS env else IDLE_BACKOFF_SECONDS) * 1000))) ;;;
    saveData w whole ;;;
    ret (fst loc)
  else ret sel.

(** [if(mode==='custom' && sel.size>0){ ... }] *)
Definition branchA (w : World) (whole : Cfg -> Data) (ch : string)
           (pingStr : option string) (filters genders teams : list string)
           (sel : list string) : M (list string) :=
  enter BranchA ;;;
  customLive w whole ch pingStr filters genders teams sel.

(** [Math.floor((new Date(nextRun*1000)).getTime()/1000)+86400]: a [Date]
    holds at most 8.64e15 milliseconds either side of the epoch, beyond
    which [getTime()] is [NaN]. *)
Definition advanceDay (nextRun : Z) : option Z :=
  if Z.abs (nextRun * 1000) <=? 8640000000000000 then Some (nextRun + 86400) else None.

(** The filter of the fallback summary. *)
Definition fallbackRelevant (w : World) (genders teams : list string) (m : Match) : bool :=
  let cat := guessCategory m in
  let ok := String.eqb cat "international"
            || (String.eqb cat "domestic" && isIndianDomestic m)
            || (String.eqb cat "first-class" && isIndianDomestic m) in
  ok && isTodayOrLive w m && genderAllowed m (Some genders) && teamAllowed m (Some teams).

(** The filter of the daily summary. *)
Definition dailyRelevant (w : World) (filters genders teams : list string) (m : Match) : bool :=
  categoryAllowed m (Some filters) && isTodayOrLive w m && genderAllowed m (Some genders)
  && teamAllowed m (Some teams).

Definition mergedMatches (w : World) : list Match :=
  let current := getCurrentMatchesSafe w in
  let todays := getTodayMatchesSafe w in
  JsObj.values (mergeById todays current).

(** What both daily-cadence blocks do once their key [nextRun] is read:
    [get]/[set] access the key, [none] is the text sent when nothing is
    relevant. *)
Definition dailyCadence (w : World) (whole : Cfg -> Data) (ch : string)
           (pingStr : option string) (dailyHHMM : string)
           (get : Cfg -> option Z) (set : option Z -> Cfg -> Cfg)
           (relevant : Match -> bool) (none : Post) : M unit :=
  cfg <- getCfg ;;
  match get cfg with
  | None | Some 0 =>
      modifyCfg (set (hhmmToNextDate w dailyHHMM)) ;;; saveData w whole
  | Some nextRun =>
      if now w >=? nextRun * 1000 then
        let matches := List.filter relevant (mergedMatches w) in
        match matches with
        | [] => send w ch none
        | _ => sendSlices w ch pingStr matches
        end ;;;
        sendTomorrowsInternationals w ch ;;;
        modifyCfg (set (advanceDay nextRun)) ;;;
        saveData w whole
      else ret tt
  end.

(** [if(mode==='custom' && sel.size===0){ ... }] *)
Definition branchB (w : World) (whole : Cfg -> Data) (ch : string)
           (pingStr : option string) (dailyHHMM : string)
           (genders teams : list string) : M unit :=
  enter BranchB ;;;
  dailyCadence w whole ch pingStr dailyHHMM fallback_summary set_fallback_summary
               (fallbackRelevant w genders teams) PFallbackNone.

(** [if(mode==='daily'){ ... }] *)
Definition branchC (w : World) (whole : Cfg -> Data) (ch : string)
           (pingStr : option string) (dailyHHMM : string)
           (filters genders teams : list string) : M unit :=
  enter BranchC ;;;
  dailyCadence w whole ch pingStr dailyHHMM next_summary set_next_summary
               (dailyRelevant w filters genders teams) PDailyNone.

Definition ALL_CATEGORIES : list string :=
  ["international"; "first-class"; "domestic"; "franchise"].

(** The [try] block of one tenant after the channel was fetched, given
    the content [cfg] of the tenant's object when the block starts: the
    locals are read from it, then the three guarded blocks follow. *)
Definition tenantFrom (w : World) (whole : Cfg -> Data) (ch : string) (cfg : Cfg) : M unit :=
  let mode := orElse (mode cfg) "daily" in
  let filters := default ALL_CATEGORIES (filters cfg) in
  let sel := setOf (default [] (selected_match_ids cfg)) in
  let dailyHHMM := orElse (daily_time cfg) (DAILY_SUMMARY_HHMM env) in
  let pingStr := mentionText cfg in
  let teams := default [] (team_filters cfg) in
  let genders := default ["men"; "women"] (gender_filters cfg) in
  sel1 <- (if String.eqb mode "custom" && negb (length sel =? 0)%nat
           then branchA w whole ch pingStr filters genders teams sel
           else ret sel) ;;
  (if String.eqb mode "custom" && (length sel1 =? 0)%nat
   then branchB w whole ch pingStr dailyHHMM genders teams
   else ret tt) ;;;
  (if String.eqb mode "daily"
   then branchC w whole ch pingStr dailyHHMM filters genders teams
   else ret tt).

Definition tenantBody (w : World) (whole : Cfg -> Data) (ch : string) : M unit :=
  cfg <- getCfg ;; tenantFrom w whole ch cfg.

(** One iteration of [for(const [gId,cfg] of Object.entries(data))]; the
    [catch] of the iteration logs and goes on. *)
Definition tickGuild (w : World) (whole : Cfg -> Data) (s : St) : St :=
  let cfg := st_cfg s in
  if is_paused cfg then s
  else match channel_id cfg with
       | None => s
       | Some ch =>
           if isEmpty ch then s
           else if channelFound w ch then snd (tenantBody w whole ch s)
                else s
       end.

(** The process state between ticks. *)
Record Sys := mkSys {
  data : Data;
  lastPostedByMatch : gmap string Z;
  disk : Data;
  posts : list (string * Post);
}.

(** The loop of [tick] over the tenants still to visit; [done] are the
    entries already visited. *)
Fixpoint tickLoop (w : World) (done todo : Data) (last : gmap string Z) (dsk : Data)
         (out : list (string * Post)) : Sys :=
  match todo with
  | [] => mkSys done last dsk out
  | (gId, cfg) :: rest =>
      let s := tickGuild w (fun c => done ++ (gId, c) :: rest) (mkSt cfg last dsk out []) in
      tickLoop w (done ++ [(gId, st_cfg s)]) rest (st_last s) (st_disk s) (st_posts s)
  end.

Definition tick (w : World) (sys : Sys) : Sys :=
  tickLoop w [] (data sys) (lastPostedByMatch sys) (disk sys) (posts sys).

End Scheduler.

(** [cricket-list]: the matches the command lists. *)
Definition cricketList (cfg : Cfg) (current : list Match) : list Match :=
  List.filter (fun m => teamAllowed m (Some (default [] (team_filters cfg))))
    (List.filter (fun m => genderAllowed m (Some (default ["men"; "women"] (gender_filters cfg))))
       (List.filter (fun m => categoryAllowed m (Some (default [] (filters cfg)))) current)).

(** ** Match source: pagination and the safe wrappers *)

Module MatchSource.

(** The JSON object of one upstream page. *)
Record Page (D : Type) := mkPage {
  p_status : option string;
  p_data : option D;
  p_totalRows : option Z;
}.
Arguments mkPage {D}.
Arguments p_status {D}.
Arguments p_data {D}.
Arguments p_totalRows {D}.

(** What [r.json()] gives: a rejection, [null] or an object. *)
Inductive Body (D : Type) :=
| Unparsable
| JsonNull
| JsonObject (j : Page D).
Arguments Unparsable {D}.
Arguments JsonNull {D}.
Arguments JsonObject {D}.

(** What [fetch(url)] gives: a rejection (network failure, timeout) or a
    response with its [ok] flag, status code and body. *)
Inductive Response (D : Type) :=
| Rejected
| Http (ok : bool) (status : Z) (body : Body D).
Arguments Rejected {D}.
Arguments Http {D}.

(** The two list endpoints, [currentMatches] and [matches]. *)
Inductive Endpoint := CurrentMatches | Matches.

(** [fetchJSON]: the parsed body, [None] for [null]. *)
Definition fetchJSON {D} (r : Response D) : Result (option (Page D)) :=
  match r with
  | Rejected => inl NetworkError
  | Http false status _ => inl (HttpError status)
  | Http true _ Unparsable => inl ParseError
  | Http true _ JsonNull => inr None
  | Http true _ (JsonObject j) => inr (Some j)
  end.

Section Upstream.

(** The upstream service: the response to a list request at an offset
    and to a scorecard request. *)
Variable upstream : Endpoint -> Z -> Response (list Match).
Variable upstreamScore : string -> Response ScoreData.

(** [fetchPaginated]; [fuel] bounds the number of pages requested, and
    [None] means the bound was reached with the loop still running. *)
Fixpoint fetchPaginatedFrom (fuel : nat) (ep : Endpoint) (all : list Match) (offset : Z)
  : option (Result (list Match)) :=
  match fuel with
  | O => None
  | S fuel' =>
      match fetchJSON (upstream ep offset) with
      | inl e => Some (inl e)
      | inr None => Some (inl TypeError)
      | inr (Some j) =>
          if negb (bool_decide (p_status j = Some "success")) then Some (inr all)
          else
            let all' := all ++ default [] (p_data j) in
            let total := default 0 (p_totalRows j) in
            if offset + 25 >=? total then Some (inr all')
            else fetchPaginatedFrom fuel' ep all' (offset + 25)
      end
  end.

Definition fetchPaginated (fuel : nat) (ep : Endpoint) : option (Result (list Match)) :=
  fetchPaginatedFrom fuel ep [] 0.

Definition getCurrentMatches (fuel : nat) : option (Result (list Match)) :=
  fetchPaginated fuel CurrentMatches.

Definition onISO (isoDateOf : string -> option string) (iso : string) (m : Match) : bool :=
  match m_dateTimeGMT m with
  | Some dtg =>
      match isoDateOf dtg with
      | Some d => String.eqb d iso
      | None => false
      end
  | None => false
  end.

Definition getMatchesForISO (fuel : nat) (isoDateOf : string -> option string) (iso : string)
  : option (Result (list Match)) :=
  match fetchPaginated fuel Matches with
  | Some (inr all) => Some (inr (List.filter (onISO isoDateOf iso) all))
  | Some (inl e) => Some (inl e)
  | None => None
  end.

(** [getTodayMatches] is [getMatchesForISO] at [todayISO()]. *)
Definition getTodayMatches (fuel : nat) (isoDateOf : string -> option string) (today : string)
  : option (Result (list Match)) :=
  getMatchesForISO fuel isoDateOf today.

Definition getCurrentMatchesSafe (fuel : nat) : option (list Match) :=
  safe <$> getCurrentMatches fuel.

Definition getTodayMatchesSafe (fuel : nat) (isoDateOf : string -> option string)
           (today : string) : option (list Match) :=
  safe <$> getTodayMatches fuel isoDateOf today.

Definition getMatchesForISOSafe (fuel : nat) (isoDateOf : string -> option string)
           (iso : string) : option (list Match) :=
  safe <$> getMatchesForISO fuel isoDateOf iso.

(** [fetchScorecard]: [j?.data || {}], the empty object having no
    innings. *)
Definition fetchScorecard (matchId : string) : Result ScoreData :=
  match fetchJSON (upstreamScore matchId) with
  | inl e => inl e
  | inr None => inr (mkScore "" [])
  | inr (Some j) => inr (default (mkScore "" []) (p_data j))
  end.

(** A page that makes [fetchPaginated] ask for the next one. *)
Definition hasMore (ep : Endpoint) (offset : Z) : Prop :=
  exists ok_status j,
    upstream ep offset = Http true ok_status (JsonObject j) /\
    p_status j = Some "success" /\
    offset + 25 < default 0 (p_totalRows j).

(** The request fails: the connection, the HTTP status or the parse. *)
Definition failsWith {D} (r : Response D) (e : Exn) : Prop :=
  fetchJSON r = inl e.

(** The first [k] pages ask for more and the request for page [k]
    fails with [e]. *)
Definition failsAtPage (ep : Endpoint) (k : nat) (e : Exn) : Prop :=
  (forall i, (i < k)%nat -> hasMore ep (25 * Z.of_nat i)) /\
  failsWith (upstream ep (25 * Z.of_nat k)) e.

End Upstream.

End MatchSource.

(** ** Predicates used to state the properties *)

(** The first-class signal inside the regional-domestic rule of
    [guessCategory]: a first-class tier fragment in the series name or a
    multi-day format in the match type. *)
Definition firstClassSignal (m : Match) : bool :=
  let series := seriesOf m in
  let mtype := norm (Some (orElse (m_matchType m) "")) in
  includes series "ranji" || includes series "elite group" || includes series "plate"
  || includes mtype "first class" || includes mtype "four-day" || includes mtype "4-day".

(** Some participant's name or short name contains one of the [states]. *)
Definition regionNamed (m : Match) : Prop :=
  exists t s,
    In t (default [] (m_teamInfo m)) /\ In s states /\
    (includes (norm (t_name t)) s = true \/ includes (norm (t_shortname t)) s = true).

(** ** Sample records *)

Definition sampleMatch (id name series mtype status : string) (started : bool)
           (teams : list (string * string)) : Match :=
  mkMatch (Some id) None None (Some name) (Some series) (Some mtype) (Some status)
          (Some (FlagBool started)) None
          (Some (map (fun p => mkTeam (Some (fst p)) (Some (snd p))) teams)).

(** A franchise fixture between two sides named after Indian cities. *)
Definition iplMatch : Match :=
  sampleMatch "ipl-1" "Mumbai Indians vs Delhi Capitals" "Indian Premier League 2025" "t20"
              "Match not started" false
              [("Mumbai Indians", "MI"); ("Delhi Capitals", "DC")].

(** Close of play on the second day of a Test. *)
Definition stumpsDay2 : Match :=
  sampleMatch "test-1" "India vs England, 1st Test" "England tour of India" "test"
              "Day 2: Stumps - India trail by 120 runs" true
              [("India", "IND"); ("England", "ENG")].

(** A tied one-day international. *)
Definition tiedMatch : Match :=
  sampleMatch "m1" "Sri Lanka vs India, 1st ODI" "India tour of Sri Lanka" "odi"
              "Match Tied" true
              [("Sri Lanka", "SL"); ("India", "IND")].

(** The same fixture with a result. *)
Definition wonMatch : Match :=
  sampleMatch "m1" "Sri Lanka vs India, 1st ODI" "India tour of Sri Lanka" "odi"
              "India won by 5 wkts" true
              [("Sri Lanka", "SL"); ("India", "IND")].

(** The same fixture in progress. *)
Definition liveMatch : Match :=
  sampleMatch "m1" "Sri Lanka vs India, 1st ODI" "India tour of Sri Lanka" "odi"
              "India need 42 runs in 30 balls" true
              [("Sri Lanka", "SL"); ("India", "IND")].

(** An upstream whose first page of current matches announces thirty rows
    and whose second page times out. *)
Definition flakyUpstream (ep : MatchSource.Endpoint) (offset : Z)
  : MatchSource.Response (list Match) :=
  if offset =? 0
  then MatchSource.Http true 200
         (MatchSource.JsonObject (MatchSource.mkPage (Some "success") (Some [liveMatch]) (Some 30)))
  else MatchSource.Rejected.

Definition flakyScore (id : string) : MatchSource.Response ScoreData :=
  MatchSource.Http false 503 MatchSource.Unparsable.

(** ** Vocabulary of the scheduler properties *)

(** The tenant is visited by [tick]: not paused, with a channel that the
    client can fetch. *)
Definition Serviced (w : World) (cfg : Cfg) (ch : string) : Prop :=
  is_paused cfg = false /\ channel_id cfg = Some ch /\ isEmpty ch = false /\
  channelFound w ch = true.

(** Everything sent to [ch] is delivered and the configuration file can be
    written. *)
Definition Delivers (w : World) (ch : string) : Prop :=
  (forall p, sendOk w ch p = true) /\ diskOk w = true.

(** [cfg.mode||'daily'] *)
Definition modeOf (cfg : Cfg) : string := orElse (mode cfg) "daily".

(** [new Set(cfg.selected_match_ids||[])] *)
Definition selectedOf (cfg : Cfg) : list string := setOf (default [] (selected_match_ids cfg)).

(** The guards of the three blocks, on a configuration. *)
Definition guardA (cfg : Cfg) : bool :=
  String.eqb (modeOf cfg) "custom" && negb (length (selectedOf cfg) =? 0)%nat.

Definition guardB (cfg : Cfg) : bool :=
  String.eqb (modeOf cfg) "custom" && (length (selectedOf cfg) =? 0)%nat.

Definition guardC (cfg : Cfg) : bool := String.eqb (modeOf cfg) "daily".

Definition guardOf (b : Branch) : Cfg -> bool :=
  match b with
  | BranchA => guardA
  | BranchB => guardB
  | BranchC => guardC
  end.

(** The blocks entered while [tick] visits one tenant. *)
Definition branchesRun (env : Env) (w : World) (whole : Cfg -> Data) (s : St) : list Branch :=
  st_trace (tickGuild env w whole (mkSt (st_cfg s) (st_last s) (st_disk s) (st_posts s) [])).

Definition addPosts (l : list (string * Post)) (s : St) : St :=
  mkSt (st_cfg s) (st_last s) (st_disk s) (st_posts s ++ l) (st_trace s).

(** A live-update post for the match [mid]. *)
Definition liveFor (mid : string) (p : Post) : bool :=
  match p with
  | PLive _ m => String.eqb (matchIdOf m) mid
  | _ => false
  end.

(** A post of the live-tracking branch about the match [mid]: live update,
    final scorecard or tracking-stopped notice. *)
Definition trackingFor (mid : string) (p : Post) : bool :=
  match p with
  | PLive _ m => String.eqb (matchIdOf m) mid
  | PStopped x => String.eqb x mid
  | PFinalScorecard x _ => String.eqb x mid
  | _ => false
  end.

(** The posts of the two summary blocks. *)
Definition summaryPost (p : Post) : bool :=
  match p with
  | PFallbackNone | PDailyNone | PSummary _ _ | PTomorrow _ => true
  | _ => false
  end.

(** Posts are only added, none of them a tracking post for [mid]. *)
Definition Untracked (mid : string) (s s' : St) : Prop :=
  exists delta, st_posts s' = st_posts s ++ delta /\
                forall cp, In cp delta -> trackingFor mid (snd cp) = false.

(** The ghost record of blocks entered is untouched. *)
Definition SameTrace (s s' : St) : Prop := st_trace s' = st_trace s.

(** A computation relates the state before to the state after by [R],
    whether it returns or throws, and returns only values in [Q]. *)
Definition holds {A} (R : St -> St -> Prop) (Q : A -> Prop) (m : M A) : Prop :=
  forall s, R s (snd (m s)) /\ forall a, fst (m s) = inr a -> Q a.

(** [m] is the last record of [l] with its identity. *)
Definition lastOfId (l : list Match) (m : Match) : Prop :=
  exists pre post, l = pre ++ m :: post /\
                   forall m', In m' post -> matchIdOf m' <> matchIdOf m.

(** [m] is embedded in one of the summary messages among [ps]. *)
Definition embedded (m : Match) (ps : list (string * Post)) : Prop :=
  exists ch c sl, In (ch, PSummary c sl) ps /\ In m sl.

(** International, or domestic / first-class of the Indian domestic game. *)
Definition fallbackCategory (m : Match) : bool :=
  String.eqb (guessCategory m) "international"
  || (String.eqb (guessCategory m) "domestic" && isIndianDomestic m)
  || (String.eqb (guessCategory m) "first-class" && isIndianDomestic m).

(** The tenant's filters as [tick] reads them. *)
Definition passesFilters (cfg : Cfg) (m : Match) : bool :=
  categoryAllowed m (Some (default ALL_CATEGORIES (filters cfg)))
  && genderAllowed m (Some (default ["men"; "women"] (gender_filters cfg)))
  && teamAllowed m (Some (default [] (team_filters cfg))).

(** The final-scorecard message for [mid], when its scorecard can be
    fetched. *)
Definition finalPosts (w : World) (ch mid : string) : list (string * Post) :=
  match scorecardOf w mid with
  | inr sd => [(ch, PFinalScorecard mid (scorecardEmbedsFrom sd))]
  | inl _ => []
  end.

(** What [trackMatch] does to its locals and to the state when every
    message is delivered and the file is written. *)
Definition trackDelivered (env : Env) (w : World) (whole : Cfg -> Data) (ch : string)
           (pingStr : option string) (filters genders teams : list string)
           (m : Match) (r : (list string * bool) * St) : (list string * bool) * St :=
  let '((sel, anyLive), s) := r in
  let mid := matchIdOf m in
  if arrIncludes sel mid && categoryAllowed m (Some filters) && genderAllowed m (Some genders)
     && teamAllowed m (Some teams)
  then
    if testAnyI FINISHED_RE (orElse (m_status m) "") then
      let sel' := setDelete mid sel in
      let cfg' := set_selected (Some sel') (st_cfg s) in
      ((sel', anyLive),
       mkSt cfg' (st_last s) (whole cfg')
            (st_posts s ++ finalPosts w ch mid ++ [(ch, PStopped mid)]) (st_trace s))
    else if relevantLive m then
      if now w - lastOf (st_last s) mid >=? (POLL_SECONDS env - 5) * 1000
      then ((sel, true),
            mkSt (st_cfg s) (<[mid := now w]> (st_last s)) (st_disk s)
                 (st_posts s ++ [(ch, PLive pingStr m)]) (st_trace s))
      else ((sel, true), s)
    else r
  else r.

(** The loop of the custom/live block when everything is delivered. *)
Definition trackAll (env : Env) (w : World) (whole : Cfg -> Data) (ch : string)
           (pingStr : option string) (filters genders teams : list string)
           (ms : list Match) (r : (list string * bool) * St) : (list string * bool) * St :=
  fold_left (fun r m => trackDelivered env w whole ch pingStr filters genders teams m r) ms r.

(** The summary messages for [matches]: the slices of eight, the ping on
    the first. *)
Definition summaryPosts (ch : string) (pingStr : option string) (matches : list Match)
  : list (string * Post) :=
  match slices matches with
  | [] => []
  | first :: rest => (ch, PSummary pingStr first) :: map (fun sl => (ch, PSummary None sl)) rest
  end.

(** The messages of [sendTomorrowsInternationals] for a tenant. *)
Definition tomorrowPosts (env : Env) (w : World) (ch : string) (cfg : Cfg) : list (string * Post) :=
  map (fun c => (ch, PTomorrow c))
      (formatTomorrowList env (getMatchesForISOSafe w (tomorrowISO w))
                          (default ["men"; "women"] (gender_filters cfg))
                          (default [] (team_filters cfg))).

(** What a daily-cadence block does to the state when everything is
    delivered. *)
Definition dailyDelivered (env : Env) (w : World) (whole : Cfg -> Data) (ch : string)
           (pingStr : option string) (dailyHHMM : string)
           (get : Cfg -> option Z) (set : option Z -> Cfg -> Cfg)
           (relevant : Match -> bool) (none : Post) (s : St) : St :=
  let init :=
    let cfg' := set (hhmmToNextDate w dailyHHMM) (st_cfg s) in
    mkSt cfg' (st_last s) (whole cfg') (st_posts s) (st_trace s) in
  match get (st_cfg s) with
  | None | Some 0 => init
  | Some nextRun =>
      if now w >=? nextRun * 1000 then
        let matches := List.filter relevant (mergedMatches w) in
        let summary :=
          match matches with
          | [] => [(ch, none)]
          | _ => summaryPosts ch pingStr matches
          end in
        let cfg' := set (advanceDay nextRun) (st_cfg s) in
        mkSt cfg' (st_last s) (whole cfg')
             (st_posts s ++ summary ++ tomorrowPosts env w ch (st_cfg s)) (st_trace s)
      else s
  end.

(** The tenant's category, gender and team filters as the loop of the
    custom/live block applies them. *)
Definition passes (filters genders teams : list string) (m : Match) : bool :=
  categoryAllowed m (Some filters) && genderAllowed m (Some genders) && teamAllowed m (Some teams).

(** The state with the entry into block [b] recorded. *)
Definition entered (b : Branch) (s : St) : St :=
  mkSt (st_cfg s) (st_last s) (st_disk s) (st_posts s) (st_trace s ++ [b]).

(** The state the custom/live block leaves when it is due and everything
    is delivered, from the outcome [r] of its loop. *)
Definition afterLoop (env : Env) (w : World) (whole : Cfg -> Data)
           (r : (list string * bool) * St) : St :=
  let cfg' :=
    set_next_due
      (Some (now w + (if snd (fst r) then POLL_SECONDS env else IDLE_BACKOFF_SECONDS) * 1000))
      (st_cfg (snd r)) in
  mkSt cfg' (st_last (snd r)) (whole cfg') (st_posts (snd r)) (st_trace (snd r)).

(** ** Sample process, world and tenants *)

Definition sampleEnv : Env :=
  mkEnv 600 "2100" (fun ms => map (fun m => default "Match" (m_name m)) ms).

(** A world at [t] milliseconds whose feed of current matches is [feed];
    every message is delivered. *)
Definition sampleWorld (t : Z) (feed : list Match) : World :=
  mkWorld t "2025-01-01" "2025-01-02" (fun s => Some (String.substring 0 10 s))
          (fun _ => Some 1735765200) (inr feed) (inr [])
          (fun _ => inr (mkScore "Summary" ["Sri Lanka Inning 1"; "India Inning 1"]))
          (fun _ => true) (fun _ _ => true) true.

(** A tenant in custom mode tracking the selection [sel]. *)
Definition customTenant (sel : list string) : Cfg :=
  mkCfg (Some "chan") (Some "custom") None (Some sel) None false None None None false
        None None None.

(** A tenant in daily mode whose next summary is due at [T] seconds. *)
Definition dailyTenant (T : Z) : Cfg :=
  mkCfg (Some "chan") (Some "daily") None None None false None None None false
        None None (Some T).

Definition startOf (cfg : Cfg) : St := mkSt cfg ∅ [] [] [].

(** The configuration file written by the sample tenant ["g1"]. *)
Definition sampleWhole (c : Cfg) : Data := [("g1", c)].

(** A tenant in custom mode with nothing selected, whose category filters
    name only franchise cricket and whose fallback summary is due at [T]. *)
Definition fallbackTenant (T : Z) : Cfg :=
  mkCfg (Some "chan") (Some "custom") (Some ["franchise"]) (Some []) None false None None None
        false None (Some T) None.

(** A second tenant, posting to another channel, tracking [sel]. *)
Definition otherTenant (sel : list string) : Cfg :=
  mkCfg (Some "chan2") (Some "custom") None (Some sel) None false None None None false
        None None None.

(** ** Text chunks *)

Definition newline : string := String "010"%char "".

(** [s.split(sep)] for a separator of one character. *)
Fixpoint splitOn (sep : ascii) (s : string) : list string :=
  match s with
  | EmptyString => [EmptyString]
  | String c r =>
      if Ascii.eqb c sep then EmptyString :: splitOn sep r
      else match splitOn sep r with
           | [] => [String c EmptyString]
           | l :: ls => String c l :: ls
           end
  end.

(** [s.slice(0,n)] and [s.slice(n)] *)
Fixpoint strTake (n : nat) (s : string) : string :=
  match n, s with
  | S n', String c r => String c (strTake n' r)
  | _, _ => EmptyString
  end.

Fixpoint strDrop (n : nat) (s : string) : string :=
  match n, s with
  | S n', String _ r => strDrop n' r
  | _, _ => s
  end.

(** [for(let i=0;i<line.length;i+=maxLen) chunks.push(line.slice(i,i+maxLen))]
    with [rest = line.slice(i)]; [None] means that [fuel] rounds did not
    end the loop. *)
Fixpoint sliceEvery (fuel maxLen : nat) (rest : string) {struct fuel} : option (list string) :=
  match rest with
  | EmptyString => Some []
  | String _ _ =>
      match fuel with
      | O => None
      | S fuel' =>
          match sliceEvery fuel' maxLen (strDrop maxLen rest) with
          | Some pieces => Some (strTake maxLen rest :: pieces)
          | None => None
          end
      end
  end.

(** Body of the loop of [chunkText] over the lines; the locals are
    [chunks] and [cur]. *)
Definition chunkStep (fuel maxLen : nat) (line : string) (st : list string * string)
  : option (list string * string) :=
  let '(chunks, cur) := st in
  if (maxLen <? String.length (cur +:+ newline +:+ line))%nat then
    let chunks1 := if isEmpty cur then chunks else chunks ++ [cur] in
    if (maxLen <? String.length line)%nat then
      match sliceEvery fuel maxLen line with
      | Some pieces => Some (chunks1 ++ pieces, EmptyString)
      | None => None
      end
    else Some (chunks1, line)
  else Some (chunks, if isEmpty cur then line else cur +:+ newline +:+ line).

Fixpoint chunkLines (fuel maxLen : nat) (lines : list string) (st : list string * string)
  : option (list string * string) :=
  match lines with
  | [] => Some st
  | line :: rest =>
      match chunkStep fuel maxLen line st with
      | Some st' => chunkLines fuel maxLen rest st'
      | None => None
      end
  end.

(** [chunkText(text, maxLen)]; [maxLen] is a natural number (the calls
    pass 1900 and 900), and [None] means that the slicing loop of some line
    did not end within [fuel] rounds. *)
Definition chunkText (fuel : nat) (text : string) (maxLen : nat) : option (list string) :=
  match chunkLines fuel maxLen (splitOn "010"%char text) ([], EmptyString) with
  | Some (chunks, cur) => Some (if isEmpty cur then chunks else chunks ++ [cur])
  | None => None
  end.

(** The characters of [s] other than line feeds. *)
Fixpoint visible (s : string) : string :=
  match s with
  | EmptyString => EmptyString
  | String c r => if Ascii.eqb c "010"%char then visible r else String c (visible r)
  end.

(** [parts.join('')] *)
Definition glue (parts : list string) : string := fold_right String.append EmptyString parts.

(** ** Command handlers: what they write into the tenant's object

    Each handler is given as the change it makes to [data[g]] once the
    permission check has passed; the [saveData()] and the reply that follow
    are not part of it. *)


Definition set_gender_filters (v : option (list string)) (c : Cfg) : Cfg :=
  mkCfg (channel_id c) (mode c) (filters c) (selected_match_ids c) (daily_time c)
        (ping_enabled c) (role_ids c) (team_filters c) v (is_paused c)
        (next_due c) (fallback_summary c) (next_summary c).

(** [data[g]] *)
Fixpoint getProp {V} (k : string) (obj : JsObj.t V) : option V :=
  match obj with
  | [] => None
  | (k', v) :: rest => if String.eqb k k' then Some v else getProp k rest
  end.

(** The record [ensureGuild] creates. *)
Definition defaultCfg (env : Env) (channelId : string) : Cfg :=
  mkCfg (Some channelId) (Some "daily") (Some ["international"; "domestic"]) (Some [])
        (Some (DAILY_SUMMARY_HHMM env)) false (Some []) (Some []) (Some ["men"; "women"])
        false None None None.

(** [ensureGuild(interaction)] on [data], for the tenant [g] and the channel
    the command came from; [data] is held in creation order. *)
Definition ensureGuild (env : Env) (g channelId : string) (d : JsObj.t Cfg) : JsObj.t Cfg :=
  match getProp g d with
  | Some _ => d
  | None => JsObj.put g (defaultCfg env channelId) d
  end.

(** [sel.add(x)] *)
Definition setAdd (x : string) (sel : list string) : list string :=
  if arrIncludes sel x then sel else sel ++ [x].

(** [cricket-select]: [action] is [add] or anything else (then [remove]). *)
Definition cricketSelect (action match_id : string) (cfg : Cfg) : Cfg :=
  let mid := trim match_id in
  let sel := setOf (default [] (selected_match_ids cfg)) in
  set_selected (Some (if String.eqb action "add" then setAdd mid sel else setDelete mid sel)) cfg.

(** [cricket-filters]: [None] when the command answers that no category is
    valid and writes nothing. *)
Definition cricketFilters (categories : string) (cfg : Cfg) : option Cfg :=
  let chosen := List.filter (arrIncludes ALL_CATEGORIES)
                  (map (fun s => norm (Some s)) (splitOn ","%char categories)) in
  match chosen with
  | [] => None
  | _ => Some (set_filters (Some chosen) cfg)
  end.



(** [cricket-gender] *)
Definition cricketGender (val : string) (cfg : Cfg) : Cfg :=
  set_gender_filters (Some (if String.eqb val "both" then ["men"; "women"] else [val])) cfg.

(** The invariant of the loop of [chunkText] for a limit [maxLen]: the
    chunks pushed so far are non-empty and within the limit, and [cur] is
    within the limit. *)
Definition chunksOk (maxLen : nat) (st : list string * string) : Prop :=
  Forall (fun p => (0 < String.length p <= maxLen)%nat) (fst st) /\
  (String.length (snd st) <= maxLen)%nat.

(** ** Vocabulary of the pagination properties *)

(** Page [i] of [ep], the one requested at offset [25*i], is answered by the
    JSON object [j]. *)
Definition pageIs (upstream : MatchSource.Endpoint -> Z -> MatchSource.Response (list Match))
           (ep : MatchSource.Endpoint) (i : nat) (j : MatchSource.Page (list Match)) : Prop :=
  exists status,
    upstream ep (25 * Z.of_nat i) = MatchSource.Http true status (MatchSource.JsonObject j).

(** The rows of the pages [js], in order. *)
Definition rowsOf (js : list (MatchSource.Page (list Match))) : list Match :=
  List.concat (map (fun j => default [] (MatchSource.p_data j)) js).

(** [js] are the first pages of [ep]: each has the status [success] and
    announces rows beyond its own 25. *)
Definition firstPages (upstream : MatchSource.Endpoint -> Z -> MatchSource.Response (list Match))
           (ep : MatchSource.Endpoint) (js : list (MatchSource.Page (list Match))) : Prop :=
  forall i j, js !! i = Some j ->
    pageIs upstream ep i j /\ MatchSource.p_status j = Some "success" /\
    25 * (Z.of_nat i + 1) < default 0 (MatchSource.p_totalRows j).

(** No page of [ep] announces more than [n] rows. *)
Definition totalsWithin (upstream : MatchSource.Endpoint -> Z -> MatchSource.Response (list Match))
           (ep : MatchSource.Endpoint) (n : Z) : Prop :=
  forall offset status j,
    upstream ep offset = MatchSource.Http true status (MatchSource.JsonObject j) ->
    default 0 (MatchSource.p_totalRows j) <= n.

(** An upstream with thirty rows on two pages. *)
Definition pagedUpstream (ep : MatchSource.Endpoint) (offset : Z)
  : MatchSource.Response (list Match) :=
  if offset =? 0
  then MatchSource.Http true 200
         (MatchSource.JsonObject (MatchSource.mkPage (Some "success") (Some [liveMatch]) (Some 30)))
  else if offset =? 25
  then MatchSource.Http true 200
         (MatchSource.JsonObject (MatchSource.mkPage (Some "success") (Some [stumpsDay2]) (Some 30)))
  else MatchSource.Rejected.

(** An upstream whose second page reports a failure in its body. *)
Definition quotaUpstream (ep : MatchSource.Endpoint) (offset : Z)
  : MatchSource.Response (list Match) :=
  if offset =? 0
  then MatchSource.Http true 200
         (MatchSource.JsonObject (MatchSource.mkPage (Some "success") (Some [liveMatch]) (Some 30)))
  else MatchSource.Http true 200
         (MatchSource.JsonObject (MatchSource.mkPage (Some "failure") (Some [stumpsDay2]) (Some 30))).

(** An upstream that always announces rows beyond the page asked for. *)
Definition endlessUpstream (ep : MatchSource.Endpoint) (offset : Z)
  : MatchSource.Response (list Match) :=
  MatchSource.Http true 200
    (MatchSource.JsonObject (MatchSource.mkPage (Some "success") (Some [liveMatch])
                                                (Some (offset + 50)))).

(** The same world with a channel that accepts no message. *)
Definition mutedWorld (t : Z) (feed : list Match) : World :=
  mkWorld t "2025-01-01" "2025-01-02" (fun s => Some (String.substring 0 10 s))
          (fun _ => Some 1735765200) (inr feed) (inr [])
          (fun _ => inr (mkScore "Summary" ["Sri Lanka Inning 1"; "India Inning 1"]))
          (fun _ => true) (fun _ _ => false) true.

(** ** Vocabulary of the housekeeping properties *)

(** What the administrators set with the commands, as opposed to the
    selection and the three bookkeeping keys that [tick] maintains. *)
Definition settingsOf (c : Cfg) :=
  (channel_id c, mode c, filters c, daily_time c, ping_enabled c, role_ids c,
   team_filters c, gender_filters c, is_paused c).

(** The number of embeds of a message: one to eight matches in a summary
    message, one to ten embeds in a scorecard message. *)
Definition withinLimits (p : Post) : Prop :=
  match p with
  | PSummary _ sl => (1 <= length sl <= 8)%nat
  | PFinalScorecard _ es => (1 <= length es <= 10)%nat
  | _ => True
  end.

(** The settings are untouched, the selection stays within [sel0] if it
    was, and messages are only added, each of them in [P]. *)
Definition Housekept (P : Post -> Prop) (sel0 : list string) (s s' : St) : Prop :=
  settingsOf (st_cfg s') = settingsOf (st_cfg s) /\
  (incl (selectedOf (st_cfg s)) sel0 -> incl (selectedOf (st_cfg s')) sel0) /\
  exists d, st_posts s' = st_posts s ++ d /\ forall cp, In cp d -> P (snd cp).

(** A tenant's entry after a tick, against its entry before. *)
Definition keptEntry (a b : string * Cfg) : Prop :=
  fst b = fst a /\ settingsOf (snd b) = settingsOf (snd a) /\
  incl (selectedOf (snd b)) (selectedOf (snd a)).

(** A world whose list of all matches is [all]. *)
Definition listedWorld (all : list Match) : World :=
  mkWorld 0 "2025-01-01" "2025-01-02" (fun s => Some (String.substring 0 10 s))
          (fun _ => Some 1735765200) (inr []) (inr all)
          (fun _ => inr (mkScore "Summary" []))
          (fun _ => true) (fun _ _ => true) true.

(** A fixture scheduled on the first of January 2025, not started. *)
Definition scheduledMatch : Match :=
  mkMatch (Some "m7") None None (Some "Australia vs India, 5th Test")
          (Some "India tour of Australia") (Some "test") (Some "Match not started")
          (Some (FlagBool false)) (Some "2025-01-01T23:30:00") None.

(** The text without its last character, and that character. *)
Fixpoint lastChar (s : string) : option (string * ascii) :=
  match s with
  | EmptyString => None
  | String c r =>
      match lastChar r with
      | None => Some (EmptyString, c)
      | Some (r0, z) => Some (String c r0, z)
      end
  end.

(** [k] starts and ends with a visible character and holds no white space
    but single spaces: a keyword that [norm] keeps as it is. *)
Definition keptByNorm (k : string) : bool :=
  match k, lastChar k with
  | String a _, Some (_, z) => negb (is_ws a) && negb (is_ws z) && String.eqb (collapse false k) k
  | _, _ => false
  end.

(** A franchise fixture announced in capitals, with a first-class match
    type. *)
Definition shoutedFranchise : Match :=
  mkMatch (Some "f1") None None (Some "Sydney Sixers vs Perth Scorchers")
          (Some " BIG BASH League 2025 ") (Some "first class") (Some "Match not started")
          (Some (FlagBool false)) None
          (Some [mkTeam (Some "Sydney Sixers") (Some "SIX");
                 mkTeam (Some "Perth Scorchers") (Some "SCO")]).

(** A world in which no daily time can be read as a time of day. *)
Definition clocklessWorld (t : Z) : World :=
  mkWorld t "2025-01-01" "2025-01-02" (fun s => Some (String.substring 0 10 s))
          (fun _ => None) (inr []) (inr [])
          (fun _ => inr (mkScore "Summary" []))
          (fun _ => true) (fun _ _ => true) true.

(** A tenant in daily mode whose summary was never scheduled. *)
Definition freshTenant : Cfg :=
  mkCfg (Some "chan") (Some "daily") (Some ["international"; "domestic"]) (Some [])
        (Some "21h0") false (Some []) (Some []) (Some ["men"; "women"]) false None None None.

(** What a message of the live-tracking block owes to the configuration
    [cfg] of the tenant when the visit starts: a live update is for a
    selected match that passes the filters, is not finished and is live,
    and carries the tenant's mention text; a final scorecard or a
    tracking-stopped notice is for a selected identity. *)
Definition warranted (cfg : Cfg) (p : Post) : Prop :=
  match p with
  | PLive c m =>
      In (matchIdOf m) (selectedOf cfg) /\ passesFilters cfg m = true /\
      isFinishedOrStumps m = false /\ relevantLive m = true /\ c = mentionText cfg
  | PStopped mid => In mid (selectedOf cfg)
  | PFinalScorecard mid _ => In mid (selectedOf cfg)
  | _ => True
  end.

(** ** The next occurrence of a time of day *)

Module Clock.

(** The digits [parseInt] reads: up to the first character that is none;
    [None] when there is no digit at all. *)
Fixpoint digitsValue (acc : Z) (seen : bool) (s : string) : option Z :=
  match s with
  | String c r =>
      match JsObj.digit c with
      | Some d => digitsValue (acc * 10 + Z.of_N d) true r
      | None => if seen then Some acc else None
      end
  | EmptyString => if seen then Some acc else None
  end.

(** [parseInt(s, 10)]: leading white space is skipped, a sign is read, then
    the digits; [None] is [NaN]. *)
Definition parseInt (s : string) : option Z :=
  match trimStart s with
  | String "-"%char r => option_map Z.opp (digitsValue 0 false r)
  | String "+"%char r => digitsValue 0 false r
  | r => digitsValue 0 false r
  end.

Definition msPerDay : Z := 86400000.

(** A [Date] holds at most 8.64e15 milliseconds either side of the epoch;
    a time value beyond is [NaN]. *)
Definition timeClip (t : Z) : option Z :=
  if Z.abs t <=? 8640000000000000 then Some t else None.

(** [Math.floor(hhmmToNextDate(hhmm).getTime()/1000)] when [new Date()]
    reads the instant [t] (milliseconds) and local time is [zone]
    milliseconds ahead of UTC, the same offset on both days involved:
    [setHours(hh,mm,0,0)] keeps the local day of [t] and sets the time within
    it, [setDate(getDate()+1)] goes one local day on.  [None] is [NaN]: one
    of the two numbers is not read, or the date leaves the range of [Date]. *)
Definition hhmmToNextDate (zone t : Z) (hhmm : string) : option Z :=
  match parseInt (strTake 2 hhmm), parseInt (strDrop 2 hhmm) with
  | Some hh, Some mm =>
      let localDay := (t + zone) / msPerDay in
      match timeClip (localDay * msPerDay + hh * 3600000 + mm * 60000 - zone) with
      | Some at_hhmm =>
          match (if at_hhmm <=? t then timeClip (at_hhmm + msPerDay) else Some at_hhmm) with
          | Some next => Some (next / 1000)
          | None => None
          end
      | None => None
      end
  | _, _ => None
  end.

End Clock.


(** ** Invocations of [tick] that overlap

    [setInterval(tick, 60*1000)] calls the [async] function [tick] every
    minute, whether or not an earlier call has returned.  An invocation runs
    until it reaches an [await]; while it rests there, other invocations run
    on the same [data] and the same [lastPostedByMatch].  [tick] above is one
    invocation from its start to its end with nothing in between; this part
    has the same code with its [await]s. *)

Module Interleaved.

(** The objects every invocation works on, and the messages the channels
    received so far, each with the clock reading [now] of the invocation
    that sent it: the time [tick] itself writes into [lastPostedByMatch]. *)
Record Proc := mkProc {
  data : Data;
  lastPostedByMatch : gmap string Z;
  disk : Data;
  posts : list (Z * (string * Post));
}.

(** An invocation at rest, with the objects as it leaves them: it has
    returned, it has thrown, or it waits at an [await]; [resume] runs it
    from there, on the objects as they are by then, to its next rest. *)
Inductive Async (A : Type) : Type :=
| Returned (a : A) (p : Proc)
| Thrown (e : Exn) (p : Proc)
| Awaiting (p : Proc) (resume : Proc -> Async A).

Arguments Returned {A}.
Arguments Thrown {A}.
Arguments Awaiting {A}.

Definition leaves {A} (r : Async A) : Proc :=
  match r with
  | Returned _ p => p
  | Thrown _ p => p
  | Awaiting p _ => p
  end.

Definition AsyncM (A : Type) : Type := Proc -> Async A.

Definition ret {A} (a : A) : AsyncM A := fun p => Returned a p.

Definition throw {A} (e : Exn) : AsyncM A := fun p => Thrown e p.

Fixpoint andThen {A B} (r : Async A) (k : A -> AsyncM B) : Async B :=
  match r with
  | Returned a p => k a p
  | Thrown e p => Thrown e p
  | Awaiting p resume => Awaiting p (fun p' => andThen (resume p') k)
  end.

Definition bind {A B} (m : AsyncM A) (k : A -> AsyncM B) : AsyncM B :=
  fun p => andThen (m p) k.

Fixpoint caught (r : Async unit) : Async unit :=
  match r with
  | Returned a p => Returned a p
  | Thrown _ p => Returned tt p
  | Awaiting p resume => Awaiting p (fun p' => caught (resume p'))
  end.

(** [try{ m }catch{}] *)
Definition tryCatch (m : AsyncM unit) : AsyncM unit := fun p => caught (m p).

(** [await e]: the invocation rests; what [e] does outside the process and
    what it settles to is [settled], taken when the invocation goes on. *)
Definition await {A} (settled : AsyncM A) : AsyncM A := fun p => Awaiting p settled.

Declare Scope async_scope.
Delimit Scope async_scope with async.
Notation "x <- m ;; k" := (bind m (fun x => k))
  (at level 100, m at next level, right associativity) : async_scope.
Notation "m ;;; k" := (bind m (fun _ => k))
  (at level 100, right associativity) : async_scope.
Local Open Scope async_scope.

(** [await f(..)] for an [async] function [f] of this program: its body
    runs with its own [await]s, and the caller rests once more before it
    goes on with what [f] returned. *)
Definition awaitCall {A} (body : AsyncM A) : AsyncM A :=
  x <- body ;; await (ret x).

(** The tenant object [cfg] of the iteration, which is [data[gId]]: no code
    removes or replaces a tenant's object. *)
Definition getCfg (gId : string) : AsyncM Cfg :=
  fun p =>
    match getProp gId (data p) with
    | Some cfg => Returned cfg p
    | None => Thrown TypeError p
    end.

Definition modifyCfg (gId : string) (f : Cfg -> Cfg) : AsyncM unit :=
  fun p =>
    match getProp gId (data p) with
    | Some cfg =>
        Returned tt (mkProc (JsObj.put gId (f cfg) (data p)) (lastPostedByMatch p) (disk p)
                            (posts p))
    | None => Thrown TypeError p
    end.

(** [lastPostedByMatch[mid]||0] *)
Definition getLast (mid : string) : AsyncM Z :=
  fun p => Returned (lastOf (lastPostedByMatch p) mid) p.

(** [lastPostedByMatch[mid]=t] *)
Definition setLast (mid : string) (t : Z) : AsyncM unit :=
  fun p => Returned tt (mkProc (data p) (<[mid := t]> (lastPostedByMatch p)) (disk p) (posts p)).

(** What [channel.send(post)] settles to, and the message in the channel. *)
Definition send (w : World) (ch : string) (post : Post) : AsyncM unit :=
  fun p =>
    if sendOk w ch post
    then Returned tt (mkProc (data p) (lastPostedByMatch p) (disk p)
                             (posts p ++ [(now w, (ch, post))]))
    else Thrown SendError p.

(** [saveData()] *)
Definition saveData (w : World) : AsyncM unit :=
  fun p =>
    if diskOk w
    then Returned tt (mkProc (data p) (lastPostedByMatch p) (data p) (posts p))
    else Thrown DiskError p.

Definition liftResult {A} (r : Result A) : AsyncM A :=
  match r with
  | inr a => ret a
  | inl e => throw e
  end.

Fixpoint forEach {A L} (xs : list A) (body : A -> L -> AsyncM L) (l : L) : AsyncM L :=
  match xs with
  | [] => ret l
  | x :: rest => l' <- body x l ;; forEach rest body l'
  end.

Section Scheduler.

Variable env : Env.

Definition sendTomorrowsInternationals (w : World) (gId ch : string) : AsyncM unit :=
  matches <- await (ret (getMatchesForISOSafe w (tomorrowISO w))) ;;
  cfg <- getCfg gId ;;
  let chunks := formatTomorrowList env matches (default ["men"; "women"] (gender_filters cfg))
                                   (default [] (team_filters cfg)) in
  forEach chunks (fun c _ => await (send w ch (PTomorrow c))) tt.

Definition sendSlices (w : World) (ch : string) (pingStr : option string)
           (matches : list Match) : AsyncM unit :=
  match slices matches with
  | [] => ret tt
  | first :: rest =>
      await (send w ch (PSummary pingStr first)) ;;;
      forEach rest (fun sl _ => await (send w ch (PSummary None sl))) tt
  end.

(** Body of the loop over [matches] in the custom/live branch. *)
Definition trackMatch (w : World) (gId ch : string)
           (pingStr : option string) (filters genders teams : list string)
           (m : Match) (loc : list string * bool) : AsyncM (list string * bool) :=
  let '(sel, anyLive) := loc in
  let mid := matchIdOf m in
  if arrIncludes sel mid && categoryAllowed m (Some filters) && genderAllowed m (Some genders)
     && teamAllowed m (Some teams)
  then
    if testAnyI FINISHED_RE (orElse (m_status m) "") then
      tryCatch (sc <- await (liftResult (scorecardOf w mid)) ;;
                let embeds := scorecardEmbedsFrom sc in
                match embeds with
                | [] => ret tt
                | _ => await (send w ch (PFinalScorecard mid embeds))
                end) ;;;
      let sel' := setDelete mid sel in
      modifyCfg gId (set_selected (Some sel')) ;;;
      saveData w ;;;
      await (send w ch (PStopped mid)) ;;;
      ret (sel', anyLive)
    else if relevantLive m then
      last <- getLast mid ;;
      if now w - last >=? (POLL_SECONDS env - 5) * 1000
      then await (send w ch (PLive pingStr m)) ;;; setLast mid (now w) ;;; ret (sel, true)
      else ret (sel, true)
    else ret (sel, anyLive)
  else ret (sel, anyLive).

Definition customLive (w : World) (gId ch : string)
           (pingStr : option string) (filters genders teams : list string)
           (sel : list string) : AsyncM (list string) :=
  cfg <- getCfg gId ;;
  let nextDue := default 0 (next_due cfg) in
  if now w >=? nextDue then
    matches <- await (ret (getCurrentMatchesSafe w)) ;;
    loc <- forEach matches (trackMatch w gId ch pingStr filters genders teams) (sel, false) ;;
    modifyCfg gId (set_next_due
                     (Some (now w + (if snd loc then POLL_SECONDS env else IDLE_BACKOFF_SECONDS)
                                    * 1000))) ;;;
    saveData w ;;;
    ret (fst loc)
  else ret sel.

Definition dailyCadence (w : World) (gId ch : string)
           (pingStr : option string) (dailyHHMM : string)
           (get : Cfg -> option Z) (set : option Z -> Cfg -> Cfg)
           (relevant : Match -> bool) (none : Post) : AsyncM unit :=
  cfg <- getCfg gId ;;
  match get cfg with
  | None | Some 0 =>
      modifyCfg gId (set (hhmmToNextDate w dailyHHMM)) ;;; saveData w
  | Some nextRun =>
      if now w >=? nextRun * 1000 then
        current <- await (ret (getCurrentMatchesSafe w)) ;;
        todays <- await (ret (getTodayMatchesSafe w)) ;;
        let matches := List.filter relevant (JsObj.values (mergeById todays current)) in
        match matches with
        | [] => await (send w ch none)
        | _ => sendSlices w ch pingStr matches
        end ;;;
        awaitCall (sendTomorrowsInternationals w gId ch) ;;;
        modifyCfg gId (set (advanceDay nextRun)) ;;;
        saveData w
      else ret tt
  end.

(** The [try] block of one tenant after the channel was fetched. *)
Definition tenantFrom (w : World) (gId ch : string) (cfg : Cfg) : AsyncM unit :=
  let mode := orElse (mode cfg) "daily" in
  let filters := default ALL_CATEGORIES (filters cfg) in
  let sel := setOf (default [] (selected_match_ids cfg)) in
  let dailyHHMM := orElse (daily_time cfg) (DAILY_SUMMARY_HHMM env) in
  let pingStr := mentionText cfg in
  let teams := default [] (team_filters cfg) in
  let genders := default ["men"; "women"] (gender_filters cfg) in
  sel1 <- (if String.eqb mode "custom" && negb (length sel =? 0)%nat
           then customLive w gId ch pingStr filters genders teams sel
           else ret sel) ;;
  (if String.eqb mode "custom" && (length sel1 =? 0)%nat
   then dailyCadence w gId ch pingStr dailyHHMM fallback_summary set_fallback_summary
                     (fallbackRelevant w genders teams) PFallbackNone
   else ret tt) ;;;
  (if String.eqb mode "daily"
   then dailyCadence w gId ch pingStr dailyHHMM next_summary set_next_summary
                     (dailyRelevant w filters genders teams) PDailyNone
   else ret tt).

(** One iteration of [for(const [gId,cfg] of Object.entries(data))]. *)
Definition tickGuild (w : World) (gId : string) : AsyncM unit :=
  tryCatch
    (cfg <- getCfg gId ;;
     if is_paused cfg then ret tt
     else match channel_id cfg with
          | None => ret tt
          | Some ch =>
              if isEmpty ch then ret tt
              else
                found <- await (ret (channelFound w ch)) ;;
                if found then cfg' <- getCfg gId ;; tenantFrom w gId ch cfg' else ret tt
          end).

(** [tick()]: the entries of [data] are listed when the loop starts. *)
Definition tick (w : World) : AsyncM unit :=
  fun p => forEach (map fst (data p)) (fun gId _ => tickGuild w gId) tt p.

(** What happens next in the process: the timer calls [tick], whose
    invocation reads the clock and the outside as [w] has them; or what
    invocation [i] waits for settles, and it runs to its next rest. *)
Inductive Event :=
| Fire (w : World)
| Settle (i : nat).

(** The invocations started so far, in the order of their start, and the
    objects after the events [evs]. *)
Fixpoint schedule (evs : list Event) (pool : list (Async unit)) (p : Proc)
  : list (Async unit) * Proc :=
  match evs with
  | [] => (pool, p)
  | Fire w :: rest =>
      let r := tick w p in
      schedule rest (pool ++ [r]) (leaves r)
  | Settle i :: rest =>
      match pool !! i with
      | Some (Awaiting _ resume) =>
          let r := resume p in
          schedule rest (<[i := r]> pool) (leaves r)
      | _ => schedule rest pool p
      end
  end.

(** Every invocation has returned. *)
Definition allReturned (pool : list (Async unit)) : bool :=
  forallb (fun r => match r with Returned _ _ => true | _ => false end) pool.

End Scheduler.

End Interleaved.

(** [now-last>=POLL_SECONDS-5] as [tick] computes it, in JavaScript's
    numbers: [now] and [last] are the [Date.now()/1000] of two invocations
    whose clocks read [nowMs] and [lastMs] milliseconds. *)
Definition dueInNumbers (nowMs lastMs pollSeconds : float) : bool :=
  PrimFloat.leb (pollSeconds - 5)%float (nowMs / 1000 - lastMs / 1000)%float.

(** A process with one tenant that tracks ["m1"], whose last live update
    was recorded at [t0] milliseconds. *)
Definition trackingProc (t0 : Z) : Interleaved.Proc :=
  Interleaved.mkProc [("g1", customTenant ["m1"])] {["m1" := t0]}
                     [("g1", customTenant ["m1"])] [].

(** The timer fires at [t]: the invocation finds its channel, receives the
    feed and hands the live update to [channel.send], which stays pending.
    A minute later the timer fires again and that invocation does the
    same.  Then the first message is delivered, then the second. *)
Definition pendingSend (t : Z) (feed : list Match) : list Interleaved.Event :=
  [Interleaved.Fire (sampleWorld t feed);
   Interleaved.Settle 0; Interleaved.Settle 0;
   Interleaved.Fire (sampleWorld (t + 60000) feed);
   Interleaved.Settle 1; Interleaved.Settle 1;
   Interleaved.Settle 0; Interleaved.Settle 1].

(** A process with two tenants that track ["m1"], last posted ten minutes
    before [t]; the block of the first tenant is next due a minute after
    [t], that of the second at [t]. *)
Definition staggeredProc (t : Z) : Interleaved.Proc :=
  Interleaved.mkProc
    [("g1", set_next_due (Some (t + 60000)) (customTenant ["m1"]));
     ("g2", set_next_due (Some t) (otherTenant ["m1"]))]
    {["m1" := t - 600000]}
    [("g1", set_next_due (Some (t + 60000)) (customTenant ["m1"]));
     ("g2", set_next_due (Some t) (otherTenant ["m1"]))]
    [].

(** The timer fires at [t]: the invocation passes the first tenant, whose
    block is not due, and for the second tenant it finds the channel,
    receives the feed and hands the live update to [channel.send], which
    stays pending.  A minute later the timer fires again: that invocation
    finds the first tenant due, receives the feed and hands its live update
    to [channel.send].  Then the first message is delivered and the first
    invocation ends; the second message is delivered and the second
    invocation goes on to the second tenant, which is no longer due. *)
Definition staggered (t : Z) (feed : list Match) : list Interleaved.Event :=
  [Interleaved.Fire (sampleWorld t feed);
   Interleaved.Settle 0; Interleaved.Settle 0; Interleaved.Settle 0;
   Interleaved.Fire (sampleWorld (t + 60000) feed);
   Interleaved.Settle 1; Interleaved.Settle 1;
   Interleaved.Settle 0;
   Interleaved.Settle 1; Interleaved.Settle 1].

(** ** An invocation that runs alone *)

(** What an invocation has done once it has ended, when nothing else ran
    in between: each [await] goes on as soon as what it waits for has
    settled. *)
Fixpoint finish {A} (r : Interleaved.Async A) : Result A * Interleaved.Proc :=
  match r with
  | Interleaved.Returned a p => (inr a, p)
  | Interleaved.Thrown e p => (inl e, p)
  | Interleaved.Awaiting p resume => finish (resume p)
  end.

(** The objects [p] of the process, seen from the visit of [w]'s invocation
    to the tenant [gId]: [s] holds the tenant's configuration, [d0] the
    other tenants', and [pre] the messages sent before the visit. *)
Definition Alone (w : World) (gId : string) (d0 : Data) (pre : list (Z * (string * Post)))
           (p : Interleaved.Proc) (s : St) : Prop :=
  Interleaved.data p = JsObj.put gId (st_cfg s) d0 /\
  Interleaved.lastPostedByMatch p = st_last s /\
  Interleaved.disk p = st_disk s /\
  Interleaved.posts p = pre ++ map (fun cp => (now w, cp)) (st_posts s).

(** Run alone, [ma] does what [m] does. *)
Definition refines {A} (w : World) (gId : string) (d0 : Data)
           (pre : list (Z * (string * Post)))
           (ma : Interleaved.AsyncM A) (m : M A) : Prop :=
  forall p s, Alone w gId d0 pre p s ->
    fst (finish (ma p)) = fst (m s) /\
    Alone w gId d0 pre (snd (finish (ma p))) (snd (m s)).

(** * Properties *)

(** ** Text lemmas *)

Section TextFacts.

Lemma sapp_nil (t : string) : "" +:+ t = t.
Proof. reflexivity. Qed.

Lemma sapp_cons (c : ascii) (s t : string) : String c s +:+ t = String c (s +:+ t).
Proof. reflexivity. Qed.

Lemma sapp_empty_r (s : string) : s +:+ "" = s.
Proof. induction s as [|c s IH]; [reflexivity | now rewrite sapp_cons, IH]. Qed.

Lemma sapp_assoc (a b c : string) : (a +:+ b) +:+ c = a +:+ (b +:+ c).
Proof. induction a as [|x a IH]; [reflexivity | now rewrite !sapp_cons, IH]. Qed.

Lemma stripPrefix_app (k r : string) : stripPrefix k (k +:+ r) = Some r.
Proof.
  induction k as [|a k IH]; [reflexivity|].
  rewrite sapp_cons. simpl. now rewrite Ascii.eqb_refl.
Qed.

Lemma stripPrefix_inv (k s r : string) : stripPrefix k s = Some r -> s = k +:+ r.
Proof.
  revert s; induction k as [|a k IH]; intros s H; simpl in *.
  - now inversion H.
  - destruct s as [|b s]; [discriminate|].
    destruct (Ascii.eqb_spec a b) as [->|]; [|discriminate].
    now rewrite sapp_cons, (IH _ H).
Qed.

Lemma includes_intro (pre k post : string) : includes (pre +:+ k +:+ post) k = true.
Proof.
  induction pre as [|c pre IH].
  - rewrite sapp_nil.
    assert (H : startsWith (k +:+ post) k = true)
      by (unfold startsWith; now rewrite stripPrefix_app).
    destruct (k +:+ post); simpl; now rewrite H.
  - rewrite sapp_cons. simpl. rewrite IH. apply orb_true_r.
Qed.

Lemma includes_elim (s k : string) :
  includes s k = true -> exists pre post, s = pre +:+ k +:+ post.
Proof.
  induction s as [|c s IH]; simpl; intros H.
  - apply orb_true_iff in H as [H|H]; [|discriminate].
    unfold startsWith in H. destruct (stripPrefix k "") as [r|] eqn:E; [|discriminate].
    exists "", r. rewrite sapp_nil. apply stripPrefix_inv. exact E.
  - apply orb_true_iff in H as [H|H].
    + unfold startsWith in H. destruct (stripPrefix k (String c s)) as [r|] eqn:E; [|discriminate].
      exists "", r. rewrite sapp_nil. apply stripPrefix_inv. exact E.
    + destruct (IH H) as (pre & post & ->). now exists (String c pre), post.
Qed.

Lemma lower_char_idem (c : ascii) : lower_char (lower_char c) = lower_char c.
Proof. destruct c as [[] [] [] [] [] [] [] []]; reflexivity. Qed.

Lemma is_ws_lower (c : ascii) : is_ws (lower_char c) = is_ws c.
Proof. destruct c as [[] [] [] [] [] [] [] []]; reflexivity. Qed.

Lemma toLowerCase_idem (s : string) : toLowerCase (toLowerCase s) = toLowerCase s.
Proof. induction s as [|c s IH]; simpl; [reflexivity|]. now rewrite lower_char_idem, IH. Qed.

Lemma toLowerCase_collapse (b : bool) (s : string) :
  toLowerCase (collapse b s) = collapse b (toLowerCase s).
Proof.
  revert b; induction s as [|c s IH]; intros b; simpl; [reflexivity|].
  rewrite is_ws_lower. destruct (is_ws c) eqn:W.
  - destruct b; simpl; now rewrite IH.
  - simpl. now rewrite IH.
Qed.

Lemma toLowerCase_trimStart (s : string) :
  toLowerCase (trimStart s) = trimStart (toLowerCase s).
Proof.
  induction s as [|c s IH]; simpl; [reflexivity|].
  rewrite is_ws_lower. destruct (is_ws c); [exact IH | reflexivity].
Qed.

Lemma toLowerCase_trimEnd (s : string) :
  toLowerCase (trimEnd s) = trimEnd (toLowerCase s).
Proof.
  induction s as [|c s IH]; simpl; [reflexivity|].
  rewrite <- IH, is_ws_lower.
  destruct (trimEnd s); simpl; [destruct (is_ws c)|]; reflexivity.
Qed.

(** [norm] yields lower-case text. *)
Lemma toLowerCase_norm (o : option string) : toLowerCase (norm o) = norm o.
Proof.
  unfold norm. now rewrite toLowerCase_collapse, toLowerCase_idem.
Qed.

Lemma norm_lower_first (o : option string) :
  norm o = collapse false (trim (toLowerCase (orElse o ""))).
Proof.
  unfold norm, trim. now rewrite toLowerCase_trimEnd, toLowerCase_trimStart.
Qed.

Lemma trimStart_keeps (pre k post : string) :
  tight k -> exists pre', trimStart (pre +:+ k +:+ post) = pre' +:+ k +:+ post.
Proof.
  intros [(a & k1 & -> & Wa) _].
  induction pre as [|c pre IH].
  - rewrite sapp_nil, sapp_cons. simpl. rewrite Wa. now exists "".
  - rewrite sapp_cons. simpl.
    destruct (is_ws c); [exact IH|]. now exists (String c pre).
Qed.

Lemma trimEnd_app_visible (a : string) (c : ascii) (s : string) :
  is_ws c = false -> trimEnd (a +:+ String c s) = a +:+ String c (trimEnd s).
Proof.
  intros W. induction a as [|x a IH].
  - rewrite !sapp_nil. simpl. rewrite W. now destruct (trimEnd s).
  - rewrite !sapp_cons. simpl. rewrite IH.
    destruct a; [rewrite sapp_nil | rewrite sapp_cons]; reflexivity.
Qed.

Lemma trimEnd_keeps (pre k post : string) :
  tight k -> exists post', trimEnd (pre +:+ k +:+ post) = pre +:+ k +:+ post'.
Proof.
  intros [_ (k0 & c & -> & Wc)].
  exists (trimEnd post).
  rewrite !sapp_assoc, !sapp_cons, !sapp_nil.
  rewrite <- !(sapp_assoc pre k0). now rewrite trimEnd_app_visible.
Qed.

Lemma collapse_app_visible (b : bool) (a : string) (c : ascii) (s : string) :
  is_ws c = false ->
  collapse b (a +:+ String c s) = collapse b a +:+ String c (collapse false s).
Proof.
  intros W. revert b; induction a as [|x a IH]; intros b.
  - rewrite sapp_nil. simpl. now rewrite W.
  - rewrite sapp_cons. simpl.
    destruct (is_ws x); [destruct b|]; rewrite ?sapp_cons, IH; reflexivity.
Qed.

Lemma collapse_keeps (pre k post : string) :
  tight k -> collapse false k = k ->
  exists pre' post', collapse false (pre +:+ k +:+ post) = pre' +:+ k +:+ post'.
Proof.
  intros [(a & k1 & E1 & Wa) (k0 & c & E2 & Wc)] Hk.
  exists (collapse false pre), (collapse false post).
  assert (Hs : collapse false (k +:+ post) = k +:+ collapse false post).
  { rewrite E2, sapp_assoc, sapp_cons, sapp_nil.
    rewrite (collapse_app_visible _ _ _ _ Wc).
    rewrite E2 in Hk. rewrite (collapse_app_visible _ _ _ _ Wc) in Hk. simpl in Hk.
    rewrite <- Hk. now rewrite sapp_assoc, sapp_cons, sapp_nil. }
  rewrite <- Hs. clear Hs Hk E2. subst k. rewrite !sapp_cons.
  rewrite (collapse_app_visible _ _ _ _ Wa). simpl. now rewrite Wa.
Qed.

(** Normalising a text keeps every tight lower-case keyword found in its
    lower-cased form. *)
Lemma includes_norm (o : option string) (k : string) :
  tight k -> collapse false k = k ->
  includes (toLowerCase (orElse o "")) k = true ->
  includes (norm o) k = true.
Proof.
  intros Ht Hk H. rewrite norm_lower_first. unfold trim.
  destruct (includes_elim _ _ H) as (pre & post & ->).
  destruct (trimStart_keeps pre k post Ht) as (pre1 & ->).
  destruct (trimEnd_keeps pre1 k post Ht) as (post1 & ->).
  destruct (collapse_keeps pre1 k post1 Ht Hk) as (pre2 & post2 & ->).
  apply includes_intro.
Qed.

Lemma tight_FINISHED_RE (k : string) :
  In k FINISHED_RE -> tight k /\ collapse false k = k.
Proof.
  unfold FINISHED_RE. simpl.
  intros H; repeat (destruct H as [<-|H]); try contradiction;
    (split; [split|reflexivity]).
  all: try (eexists _, _; split; reflexivity).
  - now exists "stum", "p"%char.
  - now exists "stump", "s"%char.
  - now exists "abando", "n"%char.
  - now exists "no resul", "t"%char.
  - now exists "complete", "d"%char.
  - now exists "won b", "y"%char.
  - now exists "finishe", "d"%char.
Qed.

(** A status that matches [FINISHED_RE] still matches it once normalised. *)
Lemma finished_norm (o : option string) :
  testAnyI FINISHED_RE (orElse o "") = true -> testAnyI FINISHED_RE (norm o) = true.
Proof.
  unfold testAnyI, testAny. rewrite toLowerCase_norm.
  rewrite !existsb_exists. intros (k & Hin & Hk).
  exists k. split; [exact Hin|].
  destruct (tight_FINISHED_RE k Hin) as [Ht Hc].
  now apply includes_norm.
Qed.

End TextFacts.

(** ** Classifier *)

Lemma guessCategory_known (m : Match) : In (guessCategory m) ALL_CATEGORIES.
Proof.
  unfold guessCategory, ALL_CATEGORIES.
  repeat match goal with
         | |- context [if ?b then _ else _] => destruct b
         end; simpl; tauto.
Qed.

Lemma arrIncludes_In (l : list string) (x : string) : In x l -> arrIncludes l x = true.
Proof.
  intros H. unfold arrIncludes. apply existsb_exists.
  exists x. split; [exact H | apply String.eqb_refl].
Qed.

Lemma join_holds (parts : list string) (p : string) :
  In p parts -> exists pre post, join parts = pre +:+ p +:+ post.
Proof.
  induction parts as [|q parts IH]; [contradiction|].
  intros [->|H].
  - destruct parts as [|r parts].
    + exists "", "". simpl. now rewrite sapp_nil, sapp_empty_r.
    + exists "", (String " "%char (join (r :: parts))). now rewrite sapp_nil.
  - destruct (IH H) as (pre & post & E).
    destruct parts as [|r parts]; [contradiction|].
    exists (q +:+ String " "%char pre), post.
    change (join (q :: r :: parts)) with (q +:+ String " "%char (join (r :: parts))).
    now rewrite E, sapp_assoc, sapp_cons.
Qed.

Lemma includes_join (parts : list string) (p k : string) :
  In p parts -> includes p k = true -> includes (join parts) k = true.
Proof.
  intros Hin Hk.
  destruct (join_holds parts p Hin) as (pre & post & ->).
  destruct (includes_elim _ _ Hk) as (a & b & ->).
  replace (pre +:+ (a +:+ k +:+ b) +:+ post) with ((pre +:+ a) +:+ k +:+ (b +:+ post))
    by now rewrite !sapp_assoc.
  apply includes_intro.
Qed.

Lemma includes_nonempty (p k : string) :
  includes p k = true -> isEmpty k = false -> isEmpty p = false.
Proof. destruct p, k; simpl; try reflexivity; discriminate. Qed.

(** A region name in one participant's name shows in [matchTeamNames]. *)
Lemma regionNamed_statesInNames (m : Match) : regionNamed m -> statesInNames m = true.
Proof.
  intros (t & s & Ht & Hs & Hinc).
  unfold statesInNames. apply existsb_exists. exists s. split; [exact Hs|].
  assert (Hne : isEmpty s = false).
  { revert Hs. unfold states. simpl. intros H.
    repeat (destruct H as [<-|H]; [reflexivity|]). contradiction. }
  unfold matchTeamNames.
  destruct Hinc as [H|H].
  - apply (includes_join _ (norm (t_name t))); [|exact H].
    apply filter_In. split.
    + apply in_concat. exists [norm (t_name t); norm (t_shortname t)].
      split; [apply in_map_iff; now exists t | now left].
    + now rewrite (includes_nonempty _ _ H Hne).
  - apply (includes_join _ (norm (t_shortname t))); [|exact H].
    apply filter_In. split.
    + apply in_concat. exists [norm (t_name t); norm (t_shortname t)].
      split; [apply in_map_iff; now exists t | right; now left].
    + now rewrite (includes_nonempty _ _ H Hne).
Qed.

(** C7. A match with a domestic Indian region name among its participants
    is classified by the regional-domestic rule alone: [first-class] when
    the series name has a first-class tier fragment or the match type is a
    multi-day format, [domestic] otherwise; never [international] or
    [franchise], whatever the franchise and international lists say. *)
Theorem C7_region_named_is_domestic_or_first_class (m : Match) :
  regionNamed m ->
  isIndianDomestic m = true /\
  guessCategory m = (if firstClassSignal m then "first-class" else "domestic") /\
  guessCategory m <> "international" /\
  guessCategory m <> "franchise".
Proof.
  intros H. apply regionNamed_statesInNames in H.
  assert (Hd : isIndianDomestic m = true).
  { unfold isIndianDomestic. rewrite H. now destruct (existsb _ INDIAN_DOMESTIC_SERIES). }
  assert (Hc : guessCategory m = (if firstClassSignal m then "first-class" else "domestic")).
  { unfold guessCategory, firstClassSignal. now rewrite Hd. }
  repeat split; [exact Hd | exact Hc | |]; rewrite Hc; destruct (firstClassSignal m); discriminate.
Qed.

(** An IPL fixture between sides named after Mumbai and Delhi: the region
    rule classifies it domestic although its series is a franchise league. *)
Lemma C7_witness :
  regionNamed iplMatch /\
  guessCategory iplMatch = "domestic" /\
  existsb (includes (seriesOf iplMatch)) FRANCHISE_MAP = true.
Proof.
  assert (H : regionNamed iplMatch).
  { exists (mkTeam (Some "Mumbai Indians") (Some "MI")), "mumbai".
    split; [now left|]. split; [now left|]. left. reflexivity. }
  split; [exact H|].
  split; [|reflexivity].
  exact (proj1 (proj2 (C7_region_named_is_domestic_or_first_class iplMatch H))).
Defined.

(** C4, the input that separates the two predicates: "Day 2: Stumps" is
    finished for [isFinishedOrStumps] and live for [relevantLive]. *)
Lemma C4_stumps_is_finished_and_live :
  isFinishedOrStumps stumpsDay2 = true /\ relevantLive stumpsDay2 = true.
Proof. split; reflexivity. Qed.

(** C4 as the code has it. On a status that matches the finished vocabulary
    [isFinishedOrStumps] is true and [relevantLive] is decided by the
    live-session words alone: the started flag never makes a finished status
    live, and a status that is just one of the vocabulary's phrases is not
    live. *)
Theorem C4_finished_status_live_only_by_session_words (m : Match) :
  isFinishedOrStumps m = true ->
  relevantLive m = testAny LIVE_RE (norm (m_status m)) /\
  (forall k, In k FINISHED_RE -> m_status m = Some k -> relevantLive m = false).
Proof.
  intros Hfin. unfold isFinishedOrStumps in Hfin.
  pose proof (finished_norm _ Hfin) as Hn.
  split.
  - unfold relevantLive. rewrite Hn.
    destruct (testAny LIVE_RE (norm (m_status m))); [reflexivity|].
    now rewrite andb_false_r.
  - intros k Hk Hs. unfold relevantLive. rewrite Hs.
    revert Hk. unfold FINISHED_RE at 1. simpl.
    intros H; repeat (destruct H as [<-|H]); try contradiction;
      vm_compute (testAny LIVE_RE _); vm_compute (testAnyI FINISHED_RE _);
      now rewrite andb_false_r.
Qed.

(** A result: finished, and not live although the match has started. *)
Lemma C4_witness :
  isFinishedOrStumps wonMatch = true /\ relevantLive wonMatch = false.
Proof.
  assert (H : isFinishedOrStumps wonMatch = true) by reflexivity.
  split; [exact H|].
  rewrite (proj1 (C4_finished_status_live_only_by_session_words wonMatch H)).
  reflexivity.
Defined.

(** ** Filter evaluator *)

(** C2, the failing path. With the category set missing, [categoryAllowed]
    and the [cricket-list] command reject every match, although [tick] reads
    the same missing set as all four categories and so accepts every
    match. *)
Theorem C2_missing_filters_fail_closed_in_cricket_list (cfg : Cfg) (current : list Match) (m : Match) :
  categoryAllowed m None = false /\
  cricketList (set_filters None cfg) current = [] /\
  categoryAllowed m (Some (default ALL_CATEGORIES (filters (set_filters None cfg)))) = true.
Proof.
  split; [reflexivity|]. split.
  - unfold cricketList. simpl.
    induction current as [|x xs IH]; [reflexivity|]. simpl. exact IH.
  - apply (arrIncludes_In ALL_CATEGORIES), guessCategory_known.
Qed.

(** ** Match source *)

Lemma fetchPaginatedFrom_fails (upstream : MatchSource.Endpoint -> Z -> MatchSource.Response (list Match))
      (ep : MatchSource.Endpoint) (e : Exn) (k : nat) :
  forall (fuel : nat) (all : list Match) (offset : Z),
    (forall i, (i < k)%nat -> MatchSource.hasMore upstream ep (offset + 25 * Z.of_nat i)) ->
    MatchSource.failsWith (upstream ep (offset + 25 * Z.of_nat k)) e ->
    (k < fuel)%nat ->
    MatchSource.fetchPaginatedFrom upstream fuel ep all offset = Some (inl e).
Proof.
  induction k as [|k IH]; intros fuel all offset Hmore Hfail Hfuel;
    (destruct fuel as [|fuel]; [lia|]); simpl.
  - replace (offset + 25 * Z.of_nat 0) with offset in Hfail by lia.
    unfold MatchSource.failsWith in Hfail. now rewrite Hfail.
  - destruct (Hmore 0%nat ltac:(lia)) as (st & j & Hu & Hs & Ht).
    replace (offset + 25 * Z.of_nat 0) with offset in * by lia.
    rewrite Hu. simpl. rewrite Hs.
    rewrite bool_decide_eq_true_2 by reflexivity. simpl.
    destruct (Z.geb_spec (offset + 25) (default 0 (MatchSource.p_totalRows j))); [lia|].
    apply IH; [| |lia].
    + intros i Hi. specialize (Hmore (S i) ltac:(lia)).
      now replace (offset + 25 + 25 * Z.of_nat i) with (offset + 25 * Z.of_nat (S i)) by lia.
    + now replace (offset + 25 + 25 * Z.of_nat k) with (offset + 25 * Z.of_nat (S k)) by lia.
Qed.

(** C9. When a request of the pagination fails (connection, HTTP status or
    parse), having been reached through pages that asked for more, the fetch
    raises that error, the safe wrappers of the current-matches and
    date-scoped fetches return the empty list (what was collected from the
    earlier pages is dropped), and the scheduler reads a failed fetch as no
    matches; [fetchScorecard] hands its error to the caller. *)
Theorem C9_safe_wrappers_return_empty_scorecard_raises
        (upstream : MatchSource.Endpoint -> Z -> MatchSource.Response (list Match))
        (upstreamScore : string -> MatchSource.Response ScoreData)
        (ep : MatchSource.Endpoint) (k fuel : nat) (e e2 : Exn)
        (isoDateOf : string -> option string) (iso id : string) :
  MatchSource.failsAtPage upstream ep k e ->
  (k < fuel)%nat ->
  MatchSource.failsWith (upstreamScore id) e2 ->
  MatchSource.fetchPaginated upstream fuel ep = Some (inl e) /\
  (ep = MatchSource.CurrentMatches ->
   MatchSource.getCurrentMatchesSafe upstream fuel = Some []) /\
  (ep = MatchSource.Matches ->
   MatchSource.getMatchesForISOSafe upstream fuel isoDateOf iso = Some [] /\
   MatchSource.getTodayMatchesSafe upstream fuel isoDateOf iso = Some []) /\
  (forall w, currentMatches w = inl e -> getCurrentMatchesSafe w = []) /\
  (forall w, allMatches w = inl e ->
             getTodayMatchesSafe w = [] /\ getMatchesForISOSafe w iso = []) /\
  MatchSource.fetchScorecard upstreamScore id = inl e2.
Proof.
  intros [Hmore Hfail] Hfuel Hscore.
  assert (Hp : MatchSource.fetchPaginated upstream fuel ep = Some (inl e)).
  { unfold MatchSource.fetchPaginated.
    apply (fetchPaginatedFrom_fails upstream ep e k); [|exact Hfail|exact Hfuel].
    intros i Hi. exact (Hmore i Hi). }
  split; [exact Hp|].
  split; [intros ->|].
  { unfold MatchSource.getCurrentMatchesSafe, MatchSource.getCurrentMatches. now rewrite Hp. }
  split; [intros ->|].
  { unfold MatchSource.getTodayMatchesSafe, MatchSource.getTodayMatches,
      MatchSource.getMatchesForISOSafe, MatchSource.getMatchesForISO.
    now rewrite Hp. }
  split; [intros w Hw; unfold getCurrentMatchesSafe; now rewrite Hw|].
  split; [intros w Hw; unfold getTodayMatchesSafe, getMatchesForISOSafe; now rewrite Hw|].
  unfold MatchSource.fetchScorecard. unfold MatchSource.failsWith in Hscore. now rewrite Hscore.
Qed.

(** The second page of current matches times out and the scorecard
    request answers 503. *)
Lemma C9_witness :
  MatchSource.fetchPaginated flakyUpstream 2 MatchSource.CurrentMatches = Some (inl NetworkError) /\
  MatchSource.getCurrentMatchesSafe flakyUpstream 2 = Some [] /\
  MatchSource.fetchScorecard flakyScore "m1" = inl (HttpError 503).
Proof.
  assert (H1 : MatchSource.failsAtPage flakyUpstream MatchSource.CurrentMatches 1 NetworkError).
  { split; [|reflexivity].
    intros i Hi. assert (i = 0)%nat as -> by lia.
    eexists _, _. split; [reflexivity|]. split; [reflexivity|]. simpl. lia. }
  assert (H2 : (1 < 2)%nat) by lia.
  assert (H3 : MatchSource.failsWith (flakyScore "m1") (HttpError 503)) by reflexivity.
  pose proof (C9_safe_wrappers_return_empty_scorecard_raises
                flakyUpstream flakyScore MatchSource.CurrentMatches 1 2 NetworkError
                (HttpError 503) (fun _ => None) "2025-01-01" "m1" H1 H2 H3)
    as (Ha & Hb & _ & _ & _ & Hc).
  split; [exact Ha|]. split; [exact (Hb eq_refl) | exact Hc].
Defined.

(** ** Reasoning about the scheduler monad *)

Section Holds.

Variable R : St -> St -> Prop.
Hypothesis Rrefl : forall s, R s s.
Hypothesis Rtrans : forall a b c, R a b -> R b c -> R a c.

Lemma holds_ret {A} (Q : A -> Prop) (a : A) : Q a -> holds R Q (ret a).
Proof. intros H s. simpl. split; [apply Rrefl | now intros ? [= <-]]. Qed.

Lemma holds_throw {A} (Q : A -> Prop) (e : Exn) : holds R Q (throw e).
Proof. intros s. simpl. split; [apply Rrefl | discriminate]. Qed.

Lemma holds_getCfg : holds R (fun _ => True) getCfg.
Proof. intros s. simpl. split; [apply Rrefl | trivial]. Qed.

Lemma holds_getLast (mid : string) : holds R (fun _ => True) (getLast mid).
Proof. intros s. simpl. split; [apply Rrefl | trivial]. Qed.

Lemma holds_liftResult {A} (r : Result A) : holds R (fun _ => True) (liftResult r).
Proof. destruct r; [apply holds_throw | now apply holds_ret]. Qed.

Lemma holds_bind {A B} (P : A -> Prop) (Q : B -> Prop) (m : M A) (k : A -> M B) :
  holds R P m -> (forall a, P a -> holds R Q (k a)) -> holds R Q (bind m k).
Proof.
  intros Hm Hk s. unfold bind.
  destruct (Hm s) as [HR HP]. destruct (m s) as [[e|a] s1]; simpl in *.
  - split; [exact HR | discriminate].
  - destruct (Hk a (HP a eq_refl) s1) as [HR2 HQ].
    split; [eapply Rtrans; eassumption | exact HQ].
Qed.

Lemma holds_weaken {A} (P Q : A -> Prop) (m : M A) :
  (forall a, P a -> Q a) -> holds R P m -> holds R Q m.
Proof. intros HPQ Hm s. destruct (Hm s) as [HR HP]. split; [exact HR | auto]. Qed.

Lemma holds_tryCatch {P : unit -> Prop} (m : M unit) :
  holds R P m -> holds R (fun _ => True) (tryCatch m).
Proof.
  intros Hm s. unfold tryCatch. destruct (Hm s) as [HR _].
  destruct (m s) as [[e|a] s1]; simpl in *; split; trivial.
Qed.

Lemma holds_forEach {A L} (I : L -> Prop) (xs : list A) (body : A -> L -> M L) :
  (forall x l, I l -> holds R I (body x l)) ->
  forall l, I l -> holds R I (forEach xs body l).
Proof.
  intros Hbody. induction xs as [|x xs IH]; intros l Hl; simpl.
  - now apply holds_ret.
  - apply (holds_bind I); [now apply Hbody | exact IH].
Qed.

End Holds.

(** The blocks of a tenant's visit, for a relation that the bookkeeping
    writes, the file writes and the summary posts respect. *)
Section Blocks.

Variable env : Env.
Variable w : World.
Variable whole : Cfg -> Data.
Variable R : St -> St -> Prop.
Variable I : list string * bool -> Prop.
Hypothesis Rrefl : forall s, R s s.
Hypothesis Rtrans : forall a b c, R a b -> R b c -> R a c.
Hypothesis Rcfg : forall f s, R s (snd (modifyCfg f s)).
Hypothesis Rsave : forall s, R s (snd (saveData w whole s)).
Hypothesis Rsend : forall ch p s, summaryPost p = true -> R s (snd (send w ch p s)).
Hypothesis Rtrack :
  forall ch pingStr filters genders teams m loc,
    I loc -> holds R I (trackMatch env w whole ch pingStr filters genders teams m loc).

Lemma holds_modifyCfg (f : Cfg -> Cfg) : holds R (fun _ => True) (modifyCfg f).
Proof. intros s. split; [apply Rcfg | trivial]. Qed.

Lemma holds_saveData : holds R (fun _ => True) (saveData w whole).
Proof. intros s. split; [apply Rsave | trivial]. Qed.

Lemma holds_send (ch : string) (p : Post) :
  summaryPost p = true -> holds R (fun _ => True) (send w ch p).
Proof. intros H s. split; [now apply Rsend | trivial]. Qed.

Lemma holds_sendEach {A} (ch : string) (f : A -> Post) (xs : list A) :
  (forall x, summaryPost (f x) = true) ->
  holds R (fun _ => True) (forEach xs (fun x _ => send w ch (f x)) tt).
Proof.
  intros Hf. apply (holds_forEach R Rrefl Rtrans (fun _ => True)); [|trivial].
  intros x l _. now apply holds_send.
Qed.

Lemma holds_sendTomorrowsInternationals (ch : string) :
  holds R (fun _ => True) (sendTomorrowsInternationals env w ch).
Proof.
  unfold sendTomorrowsInternationals.
  apply (holds_bind R Rtrans (fun _ => True)); [now apply holds_getCfg|].
  intros cfg _. now apply holds_sendEach.
Qed.

Lemma holds_sendSlices (ch : string) (pingStr : option string) (matches : list Match) :
  holds R (fun _ => True) (sendSlices w ch pingStr matches).
Proof.
  unfold sendSlices. destruct (slices matches) as [|first rest].
  - now apply holds_ret.
  - apply (holds_bind R Rtrans (fun _ => True)); [now apply holds_send|].
    intros _ _. now apply holds_sendEach.
Qed.

Lemma holds_dailyCadence (ch : string) (pingStr : option string) (dailyHHMM : string)
      (get : Cfg -> option Z) (set : option Z -> Cfg -> Cfg)
      (relevant : Match -> bool) (none : Post) :
  summaryPost none = true ->
  holds R (fun _ => True) (dailyCadence env w whole ch pingStr dailyHHMM get set relevant none).
Proof.
  intros Hnone. unfold dailyCadence.
  apply (holds_bind R Rtrans (fun _ => True)); [now apply holds_getCfg|].
  intros cfg _.
  assert (Hinit : holds R (fun _ : unit => True)
                        (modifyCfg (set (hhmmToNextDate w dailyHHMM)) ;;; saveData w whole)).
  { apply (holds_bind R Rtrans (fun _ => True)); [apply holds_modifyCfg|].
    intros _ _. apply holds_saveData. }
  destruct (get cfg) as [[|nextRun|nextRun]|]; try exact Hinit.
  all: destruct (now w >=? _); [|now apply holds_ret].
  all: apply (holds_bind R Rtrans (fun _ => True));
    [destruct (List.filter relevant (mergedMatches w));
     [now apply holds_send | apply holds_sendSlices]|].
  all: intros _ _; apply (holds_bind R Rtrans (fun _ => True));
    [apply holds_sendTomorrowsInternationals|].
  all: intros _ _; apply (holds_bind R Rtrans (fun _ => True)); [apply holds_modifyCfg|].
  all: intros _ _; apply holds_saveData.
Qed.

Lemma holds_customLive (ch : string) (pingStr : option string)
      (filters genders teams sel : list string) :
  I (sel, false) ->
  holds R (fun _ => True) (customLive env w whole ch pingStr filters genders teams sel).
Proof.
  intros HI. unfold customLive.
  apply (holds_bind R Rtrans (fun _ => True)); [now apply holds_getCfg|].
  intros cfg _. destruct (now w >=? _); [|now apply holds_ret].
  apply (holds_bind R Rtrans I).
  - apply (holds_forEach R Rrefl Rtrans I); [|exact HI].
    intros m loc Hloc. now apply Rtrack.
  - intros loc _. apply (holds_bind R Rtrans (fun _ => True)); [apply holds_modifyCfg|].
    intros _ _. apply (holds_bind R Rtrans (fun _ => True)); [apply holds_saveData|].
    intros _ _. now apply holds_ret.
Qed.

Hypothesis Renter : forall b s, R s (snd (enter b s)).

Lemma holds_enter (b : Branch) : holds R (fun _ => True) (enter b).
Proof. intros s. split; [apply Renter | trivial]. Qed.

Lemma holds_tenantFrom (ch : string) (cfg : Cfg) :
  I (selectedOf cfg, false) ->
  holds R (fun _ => True) (tenantFrom env w whole ch cfg).
Proof.
  intros HI. unfold tenantFrom.
  apply (holds_bind R Rtrans (fun _ => True)).
  { destruct (_ && _); [|now apply holds_ret].
    unfold branchA. apply (holds_bind R Rtrans (fun _ => True)); [apply holds_enter|].
    intros _ _. now apply holds_customLive. }
  intros sel1 _. apply (holds_bind R Rtrans (fun _ => True)).
  { destruct (_ && _); [|now apply holds_ret].
    unfold branchB. apply (holds_bind R Rtrans (fun _ => True)); [apply holds_enter|].
    intros _ _. now apply holds_dailyCadence. }
  intros _ _. destruct (String.eqb _ _); [|now apply holds_ret].
  unfold branchC. apply (holds_bind R Rtrans (fun _ => True)); [apply holds_enter|].
  intros _ _. now apply holds_dailyCadence.
Qed.

Lemma related_tickGuild (s : St) :
  I (selectedOf (st_cfg s), false) -> R s (tickGuild env w whole s).
Proof.
  intros HI. unfold tickGuild.
  destruct (is_paused (st_cfg s)); [apply Rrefl|].
  destruct (channel_id (st_cfg s)) as [ch|]; [|apply Rrefl].
  destruct (isEmpty ch); [apply Rrefl|].
  destruct (channelFound w ch); [|apply Rrefl].
  unfold tenantBody, bind, getCfg.
  exact (proj1 (holds_tenantFrom ch (st_cfg s) HI s)).
Qed.

End Blocks.

(** ** The blocks when every message is delivered *)

Section Delivered.

Variable env : Env.
Variable w : World.
Variable whole : Cfg -> Data.
Variable ch : string.
Hypothesis Hdel : Delivers w ch.

Lemma send_delivered (p : Post) (s : St) :
  send w ch p s = (inr tt, addPosts [(ch, p)] s).
Proof. unfold send. now rewrite (proj1 Hdel p). Qed.

Lemma saveData_delivered (s : St) :
  saveData w whole s =
  (inr tt, mkSt (st_cfg s) (st_last s) (whole (st_cfg s)) (st_posts s) (st_trace s)).
Proof. unfold saveData. now rewrite (proj2 Hdel). Qed.

Lemma addPosts_nil (s : St) : addPosts [] s = s.
Proof. destruct s. unfold addPosts. simpl. now rewrite app_nil_r. Qed.

Lemma addPosts_addPosts (a b : list (string * Post)) (s : St) :
  addPosts b (addPosts a s) = addPosts (a ++ b) s.
Proof. unfold addPosts. simpl. now rewrite app_assoc. Qed.

Lemma sendEach_delivered {A} (f : A -> Post) (xs : list A) (s : St) :
  forEach xs (fun x _ => send w ch (f x)) tt s =
  (inr tt, addPosts (map (fun x => (ch, f x)) xs) s).
Proof.
  revert s. induction xs as [|x xs IH]; intros s; simpl.
  - now rewrite addPosts_nil.
  - unfold bind. rewrite send_delivered, IH. now rewrite addPosts_addPosts.
Qed.

Lemma scorecardEmbedsFrom_cons (sd : ScoreData) :
  exists e es, scorecardEmbedsFrom sd = e :: es.
Proof. unfold scorecardEmbedsFrom. simpl. eauto. Qed.

Lemma trackMatch_delivered (pingStr : option string) (filters genders teams : list string)
      (m : Match) (loc : list string * bool) (s : St) :
  trackMatch env w whole ch pingStr filters genders teams m loc s =
  (inr (fst (trackDelivered env w whole ch pingStr filters genders teams m (loc, s))),
   snd (trackDelivered env w whole ch pingStr filters genders teams m (loc, s))).
Proof.
  unfold trackMatch, trackDelivered. destruct loc as [sel anyLive].
  destruct (_ && _); [|reflexivity].
  destruct (testAnyI FINISHED_RE _).
  - unfold bind, tryCatch, modifyCfg, finalPosts.
    destruct (scorecardOf w (matchIdOf m)) as [e|sd]; simpl.
    + rewrite saveData_delivered. simpl. rewrite send_delivered. reflexivity.
    + destruct (scorecardEmbedsFrom_cons sd) as (e0 & es & ->).
      rewrite send_delivered. simpl.
      rewrite saveData_delivered. simpl. rewrite send_delivered. simpl.
      unfold addPosts. simpl. now rewrite <- app_assoc.
  - destruct (relevantLive m); [|reflexivity].
    unfold bind, getLast, setLast. simpl.
    destruct (_ >=? _); [|reflexivity].
    now rewrite send_delivered.
Qed.

Lemma forEach_trackMatch_delivered (pingStr : option string)
      (filters genders teams : list string) (ms : list Match)
      (loc : list string * bool) (s : St) :
  forEach ms (trackMatch env w whole ch pingStr filters genders teams) loc s =
  (inr (fst (trackAll env w whole ch pingStr filters genders teams ms (loc, s))),
   snd (trackAll env w whole ch pingStr filters genders teams ms (loc, s))).
Proof.
  revert loc s. induction ms as [|m ms IH]; intros loc s; [reflexivity|].
  change (forEach (m :: ms) ?body loc s)
    with (bind (body m loc) (fun l' => forEach ms body l') s).
  unfold bind. rewrite trackMatch_delivered. cbv beta iota. rewrite IH.
  now rewrite <- surjective_pairing.
Qed.

Lemma sendSlices_delivered (pingStr : option string) (matches : list Match) (s : St) :
  sendSlices w ch pingStr matches s = (inr tt, addPosts (summaryPosts ch pingStr matches) s).
Proof.
  unfold sendSlices, summaryPosts. destruct (slices matches) as [|first rest].
  - simpl. now rewrite addPosts_nil.
  - unfold bind. rewrite send_delivered, sendEach_delivered.
    now rewrite addPosts_addPosts.
Qed.

Lemma sendTomorrowsInternationals_delivered (s : St) :
  sendTomorrowsInternationals env w ch s =
  (inr tt, addPosts (tomorrowPosts env w ch (st_cfg s)) s).
Proof.
  unfold sendTomorrowsInternationals, bind, getCfg, tomorrowPosts.
  now rewrite sendEach_delivered.
Qed.

Lemma dailyCadence_delivered (pingStr : option string) (dailyHHMM : string)
      (get : Cfg -> option Z) (set : option Z -> Cfg -> Cfg)
      (relevant : Match -> bool) (none : Post) (s : St) :
  dailyCadence env w whole ch pingStr dailyHHMM get set relevant none s =
  (inr tt, dailyDelivered env w whole ch pingStr dailyHHMM get set relevant none s).
Proof.
  unfold dailyCadence, dailyDelivered, bind, getCfg, modifyCfg.
  assert (Hinit : forall v,
             (let (r, s') := (inr tt, mkSt (set v (st_cfg s)) (st_last s) (st_disk s)
                                           (st_posts s) (st_trace s)) in
              match r with
              | inl e => (inl e, s')
              | inr _ => saveData w whole s'
              end)
             = (inr tt, mkSt (set v (st_cfg s)) (st_last s) (whole (set v (st_cfg s)))
                             (st_posts s) (st_trace s)))
    by (intros v; now rewrite saveData_delivered).
  destruct (get (st_cfg s)) as [[|nextRun|nextRun]|]; try apply Hinit.
  all: destruct (now w >=? _); [|reflexivity].
  all: destruct (List.filter relevant (mergedMatches w)) as [|m0 ms];
    [rewrite send_delivered | rewrite sendSlices_delivered].
  all: rewrite sendTomorrowsInternationals_delivered; simpl.
  all: rewrite saveData_delivered; simpl.
  all: now rewrite <- app_assoc.
Qed.

End Delivered.

(** ** Daily cadence *)

Lemma tickGuild_serviced (env : Env) (w : World) (whole : Cfg -> Data) (s : St) (ch : string) :
  Serviced w (st_cfg s) ch ->
  tickGuild env w whole s = snd (tenantFrom env w whole ch (st_cfg s) s).
Proof.
  intros (Hp & Hc & He & Hf). unfold tickGuild. now rewrite Hp, Hc, He, Hf.
Qed.

Lemma advanceDay_in_range (T : Z) :
  Z.abs (T * 1000) <= 8640000000000000 -> advanceDay T = Some (T + 86400).
Proof.
  intros H. unfold advanceDay.
  destruct (Z.leb_spec (Z.abs (T * 1000)) 8640000000000000); [reflexivity | lia].
Qed.

(** A daily-cadence block whose key holds [T], run at or after [T]. *)
Lemma dailyDelivered_due (env : Env) (w : World) (whole : Cfg -> Data) (ch : string)
      (pingStr : option string) (dailyHHMM : string)
      (get : Cfg -> option Z) (set : option Z -> Cfg -> Cfg)
      (relevant : Match -> bool) (none : Post) (s : St) (T : Z) :
  get (st_cfg s) = Some T -> T <> 0 -> T * 1000 <= now w ->
  dailyDelivered env w whole ch pingStr dailyHHMM get set relevant none s =
  mkSt (set (advanceDay T) (st_cfg s)) (st_last s) (whole (set (advanceDay T) (st_cfg s)))
       (st_posts s
        ++ match List.filter relevant (mergedMatches w) with
           | [] => [(ch, none)]
           | _ => summaryPosts ch pingStr (List.filter relevant (mergedMatches w))
           end
        ++ tomorrowPosts env w ch (st_cfg s))
       (st_trace s).
Proof.
  intros Hget Hnz Hdue. unfold dailyDelivered. rewrite Hget.
  destruct T as [|T|T]; [contradiction| |].
  - destruct (Z.geb_spec (now w) (Z.pos T * 1000)); [reflexivity | lia].
  - destruct (Z.geb_spec (now w) (Z.neg T * 1000)); [reflexivity | lia].
Qed.

(** The visit of a tenant in daily mode is the daily block. *)
Lemma tenantFrom_daily (env : Env) (w : World) (whole : Cfg -> Data) (ch : string)
      (cfg : Cfg) (s : St) :
  modeOf cfg = "daily" ->
  tenantFrom env w whole ch cfg s =
  branchC env w whole ch (mentionText cfg) (orElse (daily_time cfg) (DAILY_SUMMARY_HHMM env))
          (default ALL_CATEGORIES (filters cfg)) (default ["men"; "women"] (gender_filters cfg))
          (default [] (team_filters cfg)) s.
Proof.
  intros Hm. unfold modeOf in Hm. unfold tenantFrom. rewrite Hm. simpl.
  unfold bind at 1 2. simpl. reflexivity.
Qed.

(** The visit of a tenant in custom mode with nothing selected is the
    fallback block. *)
Lemma tenantFrom_fallback (env : Env) (w : World) (whole : Cfg -> Data) (ch : string)
      (cfg : Cfg) (s : St) :
  modeOf cfg = "custom" -> selectedOf cfg = [] ->
  tenantFrom env w whole ch cfg s =
  branchB env w whole ch (mentionText cfg) (orElse (daily_time cfg) (DAILY_SUMMARY_HHMM env))
          (default ["men"; "women"] (gender_filters cfg)) (default [] (team_filters cfg)) s.
Proof.
  intros Hm Hsel. unfold modeOf in Hm. unfold selectedOf in Hsel.
  unfold tenantFrom. rewrite Hm, Hsel. simpl.
  unfold bind at 1 2. simpl.
  destruct (branchB _ _ _ _ _ _ _ _ s) as [[e|[]] s1]; reflexivity.
Qed.

Lemma branch_delivered (env : Env) (w : World) (whole : Cfg -> Data) (ch : string)
      (pingStr : option string) (dailyHHMM : string)
      (get : Cfg -> option Z) (set : option Z -> Cfg -> Cfg)
      (relevant : Match -> bool) (none : Post) (b : Branch) (s : St) :
  Delivers w ch ->
  (enter b ;;; dailyCadence env w whole ch pingStr dailyHHMM get set relevant none) s =
  (inr tt, dailyDelivered env w whole ch pingStr dailyHHMM get set relevant none
                          (mkSt (st_cfg s) (st_last s) (st_disk s) (st_posts s) (st_trace s ++ [b]))).
Proof.
  intros Hdel. unfold bind, enter. now rewrite (dailyCadence_delivered env w whole ch Hdel).
Qed.

(** C5. A daily-cadence key that holds [T] and is serviced by a tick at
    [T + delta] is advanced to exactly [T + 86400] and written to the file,
    in the daily block and in the fallback block alike.  ([T] is a set key:
    not zero, and within the range of a [Date].) *)
Theorem C5_daily_key_advances_from_its_previous_value
        (env : Env) (w : World) (whole : Cfg -> Data) (s : St) (ch : string) (T delta : Z) :
  Serviced w (st_cfg s) ch ->
  Delivers w ch ->
  T <> 0 ->
  Z.abs (T * 1000) <= 8640000000000000 ->
  0 <= delta ->
  now w = T * 1000 + delta ->
  (modeOf (st_cfg s) = "daily" ->
   next_summary (st_cfg s) = Some T ->
   next_summary (st_cfg (tickGuild env w whole s)) = Some (T + 86400) /\
   st_disk (tickGuild env w whole s) = whole (st_cfg (tickGuild env w whole s))) /\
  (modeOf (st_cfg s) = "custom" ->
   selectedOf (st_cfg s) = [] ->
   fallback_summary (st_cfg s) = Some T ->
   fallback_summary (st_cfg (tickGuild env w whole s)) = Some (T + 86400) /\
   st_disk (tickGuild env w whole s) = whole (st_cfg (tickGuild env w whole s))).
Proof.
  intros Hserv Hdel Hnz Hrange Hdelta Hnow.
  rewrite (tickGuild_serviced env w whole s ch Hserv).
  split.
  - intros Hmode Hkey. rewrite tenantFrom_daily by exact Hmode.
    unfold branchC. rewrite branch_delivered by exact Hdel. simpl.
    rewrite (dailyDelivered_due _ _ _ _ _ _ _ _ _ _ _ T) by (simpl; trivial; lia).
    simpl. rewrite advanceDay_in_range by exact Hrange. now split.
  - intros Hmode Hsel Hkey. rewrite tenantFrom_fallback by assumption.
    unfold branchB. rewrite branch_delivered by exact Hdel. simpl.
    rewrite (dailyDelivered_due _ _ _ _ _ _ _ _ _ _ _ T) by (simpl; trivial; lia).
    simpl. rewrite advanceDay_in_range by exact Hrange. now split.
Qed.

(** A daily summary due at 21:00:00 and serviced a minute late. *)
Lemma C5_witness :
  next_summary
    (st_cfg (tickGuild sampleEnv (sampleWorld 1735765260000 []) (fun c => [("g1", c)])
                       (startOf (dailyTenant 1735765200))))
  = Some (1735765200 + 86400).
Proof.
  refine (proj1 (proj1 (C5_daily_key_advances_from_its_previous_value
                   sampleEnv (sampleWorld 1735765260000 []) (fun c => [("g1", c)])
                   (startOf (dailyTenant 1735765200)) "chan" 1735765200 60000
                   _ _ _ _ _ _) _ _)).
  - repeat split.
  - split; [intros p; reflexivity | reflexivity].
  - lia.
  - simpl. lia.
  - lia.
  - reflexivity.
  - reflexivity.
  - reflexivity.
Defined.

(** ** Objects as maps, and the merge by identity *)

Lemma put_keys {V} (k : string) (v : V) (obj : JsObj.t V) (x : string) :
  In x (map fst (JsObj.put k v obj)) <-> x = k \/ In x (map fst obj).
Proof.
  induction obj as [|[k' v'] rest IH]; simpl.
  - split; [intros [<-|[]]; now left | intros [->|[]]; now left].
  - destruct (String.eqb_spec k k') as [->|Hne]; simpl.
    + split; [intros [<-|H]; [now left | right; now right] | intros [->|[<-|H]]; auto].
    + rewrite IH. split; [intros [<-|[->|H]]; auto | intros [->|[<-|H]]; auto].
Qed.

Lemma put_NoDup {V} (k : string) (v : V) (obj : JsObj.t V) :
  List.NoDup (map fst obj) -> List.NoDup (map fst (JsObj.put k v obj)).
Proof.
  induction obj as [|[k' v'] rest IH]; simpl; intros H.
  - constructor; [intros [] | constructor].
  - inversion H as [|? ? Hnin Hrest]; subst.
    destruct (String.eqb_spec k k') as [->|Hne]; simpl; [now constructor|].
    constructor; [|now apply IH].
    rewrite put_keys. intros [->|Hin]; [now apply Hne | now apply Hnin].
Qed.

Lemma put_In {V} (k0 : string) (v0 : V) (obj : JsObj.t V) (k : string) (v : V) :
  List.NoDup (map fst obj) ->
  In (k, v) (JsObj.put k0 v0 obj) <-> (k = k0 /\ v = v0) \/ (k <> k0 /\ In (k, v) obj).
Proof.
  induction obj as [|[k' v'] rest IH]; simpl; intros H.
  - split; [intros [[= <- <-]|[]]; now left | intros [[-> ->]|[_ []]]; now left].
  - inversion H as [|? ? Hnin Hrest]; subst.
    destruct (String.eqb_spec k0 k') as [->|Hne]; simpl.
    + split.
      * intros [[= <- <-]|Hin]; [now left|]. right. split; [|now right].
        intros ->. apply Hnin. apply in_map_iff. now exists (k', v).
      * intros [[-> ->]|[Hk [[= -> ->]|Hin]]]; [now left | contradiction | now right].
    + rewrite (IH Hrest). split.
      * intros [[= <- <-]|[[-> ->]|[Hk Hin]]]; [right|now left|right]; split; auto.
      * intros [[-> ->]|[Hk [[= -> ->]|Hin]]]; [right; now left | now left | right; right; auto].
Qed.

Lemma insertByIndex_In {V} (n : N) (v : V) (l : list (N * V)) (x : N * V) :
  In x (JsObj.insertByIndex n v l) <-> x = (n, v) \/ In x l.
Proof.
  induction l as [|[n' v'] rest IH]; simpl.
  - split; [intros [<-|[]]; now left | intros [->|[]]; now left].
  - destruct (n <=? n')%N; simpl.
    + split; [intros [<-|H]; auto | intros [->|H]; auto].
    + rewrite IH. split; [intros [<-|[->|H]]; auto | intros [->|[<-|H]]; auto].
Qed.

Lemma indexed_In {V} (obj : JsObj.t V) (v : V) :
  In v (map snd (JsObj.indexed obj)) <->
  exists k n, In (k, v) obj /\ JsObj.arrayIndex k = Some n.
Proof.
  induction obj as [|[k' v'] rest IH]; simpl.
  - split; [intros [] | intros (k & n & [] & _)].
  - destruct (JsObj.arrayIndex k') as [n'|] eqn:E.
    + rewrite in_map_iff. split.
      * intros ([n v0] & <- & Hin). simpl. apply insertByIndex_In in Hin as [[= -> ->]|Hin].
        -- exists k', n'. split; [now left | exact E].
        -- assert (Hv : In v0 (map snd (JsObj.indexed rest)))
             by (apply in_map_iff; now exists (n, v0)).
           apply IH in Hv as (k & n0 & Hk & Hn). exists k, n0. split; [now right | exact Hn].
      * intros (k & n & [[= -> ->]|Hin] & Hn).
        -- exists (n', v). split; [reflexivity|]. apply insertByIndex_In. now left.
        -- assert (Hv : In v (map snd (JsObj.indexed rest)))
             by (apply IH; now exists k, n).
           apply in_map_iff in Hv as ([n0 v0] & <- & Hin0).
           exists (n0, v0). split; [reflexivity|]. apply insertByIndex_In. now right.
    + rewrite IH. split.
      * intros (k & n & Hin & Hn). exists k, n. split; [now right | exact Hn].
      * intros (k & n & [[= -> ->]|Hin] & Hn); [congruence|]. now exists k, n.
Qed.

Lemma named_In {V} (obj : JsObj.t V) (v : V) :
  In v (JsObj.named obj) <-> exists k, In (k, v) obj /\ JsObj.arrayIndex k = None.
Proof.
  unfold JsObj.named. rewrite in_map_iff. split.
  - intros ([k v0] & <- & Hin). apply filter_In in Hin as [Hin Hk]. simpl in *.
    exists k. split; [exact Hin|]. now destruct (JsObj.arrayIndex k).
  - intros (k & Hin & Hk). exists (k, v). split; [reflexivity|].
    apply filter_In. split; [exact Hin|]. simpl. now rewrite Hk.
Qed.

(** [Object.values] lists exactly the values held. *)
Lemma values_In {V} (obj : JsObj.t V) (v : V) :
  In v (JsObj.values obj) <-> exists k, In (k, v) obj.
Proof.
  unfold JsObj.values. rewrite in_app_iff, indexed_In, named_In. split.
  - intros [(k & n & Hin & _)|(k & Hin & _)]; now exists k.
  - intros (k & Hin). destruct (JsObj.arrayIndex k) as [n|] eqn:E;
      [left; now exists k, n | right; now exists k].
Qed.

Lemma lastOfId_snoc (l : list Match) (x m : Match) :
  lastOfId (l ++ [x]) m <-> m = x \/ (matchIdOf m <> matchIdOf x /\ lastOfId l m).
Proof.
  split.
  - intros (pre & post & E & Hpost).
    destruct post as [|y0 post0].
    { left. apply app_inj_tail in E as [_ ->]. reflexivity. }
    destruct (@exists_last _ (y0 :: post0) ltac:(discriminate)) as (post' & y & Ey).
    rewrite Ey in *. clear Ey y0 post0.
    right. rewrite app_comm_cons, app_assoc in E.
    apply app_inj_tail in E as [El Ex]. subst l y. split.
    * intros Heq. apply (Hpost x); [apply in_or_app; right; now left | now symmetry].
    * exists pre, post'. split; [reflexivity|].
      intros m' Hin. apply Hpost, in_or_app. now left.
  - intros [->|[Hne (pre & post & -> & Hpost)]].
    + exists l, []. split; [reflexivity | intros ? []].
    + exists pre, (post ++ [x]). split; [now rewrite <- app_assoc|].
      intros m' Hin. apply in_app_or in Hin as [Hin|[<-|[]]]; [now apply Hpost | congruence].
Qed.

Lemma mergeById_In (l : list Match) :
  let obj := fold_left (fun byId m => JsObj.put (matchIdOf m) m byId) l JsObj.empty in
  List.NoDup (map fst obj) /\
  forall k m, In (k, m) obj <-> k = matchIdOf m /\ lastOfId l m.
Proof.
  induction l as [|x l IH] using rev_ind; simpl.
  - split; [constructor|]. intros k m. split; [intros [] | intros [_ (pre & post & E & _)]].
    now destruct pre.
  - rewrite fold_left_app. simpl. destruct IH as [Hnd Hin]. split; [now apply put_NoDup|].
    intros k m. rewrite (put_In _ _ _ _ _ Hnd), Hin, lastOfId_snoc. split.
    + intros [[-> ->]|[Hk [-> Hl]]]; [split; [reflexivity | now left]|].
      split; [reflexivity|]. right. now split.
    + intros [-> [->|[Hne Hl]]]; [now left | right; now repeat split].
Qed.

(** The merged list holds exactly the last record of each identity, in
    today's matches followed by the current ones. *)
Lemma mergedMatches_In (w : World) (m : Match) :
  In m (mergedMatches w) <-> lastOfId (getTodayMatchesSafe w ++ getCurrentMatchesSafe w) m.
Proof.
  unfold mergedMatches, mergeById. rewrite values_In.
  destruct (mergeById_In (getTodayMatchesSafe w ++ getCurrentMatchesSafe w)) as [_ H].
  split.
  - intros (k & Hk). now apply H in Hk.
  - intros Hl. exists (matchIdOf m). apply H. now split.
Qed.

(** ** The summary messages *)

Lemma slicesFrom_concat (fuel : nat) (l : list Match) :
  (length l <= fuel)%nat -> List.concat (slicesFrom fuel l) = l.
Proof.
  revert l. induction fuel as [|f IH]; intros l Hl.
  - destruct l; [reflexivity | simpl in Hl; lia].
  - destruct l as [|x l]; [reflexivity|].
    change (slicesFrom (S f) (x :: l))
      with (firstn 8 (x :: l) :: slicesFrom f (skipn 8 (x :: l))).
    change (List.concat (?a :: ?b)) with (a ++ List.concat b).
    rewrite IH; [apply firstn_skipn|].
    rewrite length_skipn. simpl in *. lia.
Qed.

Lemma embedded_summaryPosts (ch : string) (pingStr : option string) (ms : list Match) (m : Match) :
  embedded m (summaryPosts ch pingStr ms) <-> In m ms.
Proof.
  assert (Hc : List.concat (slices ms) = ms) by (apply slicesFrom_concat; lia).
  unfold embedded, summaryPosts.
  assert (Hin : In m ms <-> exists sl, In sl (slices ms) /\ In m sl)
    by (rewrite <- Hc at 1; apply in_concat).
  rewrite Hin. clear Hin Hc.
  destruct (slices ms) as [|first rest].
  - split; [intros (c & p & sl & [] & _) | intros (sl & [] & _)].
  - split.
    + intros (c & p & sl & [[= _ _ <-]|Hin] & Hm); [exists first; split; [now left|exact Hm]|].
      apply in_map_iff in Hin as (sl' & [= _ _ <-] & Hin). exists sl'. split; [now right|exact Hm].
    + intros (sl & [<-|Hin] & Hm).
      * exists ch, pingStr, first. split; [now left | exact Hm].
      * exists ch, None, sl. split; [|exact Hm]. right. apply in_map_iff. now exists sl.
Qed.

Lemma embedded_app (m : Match) (a b : list (string * Post)) :
  embedded m (a ++ b) <-> embedded m a \/ embedded m b.
Proof.
  unfold embedded. split.
  - intros (c & p & sl & Hin & Hm). apply in_app_or in Hin as [Hin|Hin];
      [left | right]; now exists c, p, sl.
  - intros [(c & p & sl & Hin & Hm)|(c & p & sl & Hin & Hm)];
      exists c, p, sl; (split; [apply in_or_app; auto | exact Hm]).
Qed.

Lemma embedded_tomorrowPosts (env : Env) (w : World) (ch : string) (cfg : Cfg) (m : Match) :
  ~ embedded m (tomorrowPosts env w ch cfg).
Proof.
  unfold embedded, tomorrowPosts. intros (c & p & sl & Hin & _).
  apply in_map_iff in Hin as (x & [=] & _).
Qed.

Lemma embedded_summary_or_none (ch : string) (pingStr : option string) (none : Post)
      (ms : list Match) (m : Match) :
  summaryPost none = true -> (forall c sl, none <> PSummary c sl) ->
  embedded m (match ms with [] => [(ch, none)] | _ => summaryPosts ch pingStr ms end) <-> In m ms.
Proof.
  intros _ Hnone. destruct ms as [|x ms]; [|apply embedded_summaryPosts].
  split; [|intros []]. intros (c & p & sl & [[= _ E]|[]] & _). now apply (Hnone p sl).
Qed.

Lemma fallbackRelevant_true (w : World) (genders teams : list string) (m : Match) :
  fallbackRelevant w genders teams m = true <->
  fallbackCategory m = true /\ genderAllowed m (Some genders) = true /\
  teamAllowed m (Some teams) = true /\ isTodayOrLive w m = true.
Proof.
  unfold fallbackRelevant, fallbackCategory. rewrite !andb_true_iff. tauto.
Qed.

(** C8. When the fallback block of a tenant in custom mode with nothing
    selected is due, the matches embedded in its summary messages are
    exactly the records that are the last of their identity in today's
    matches followed by the current ones (so a current record wins over
    today's), that are international or domestic / first-class of the
    Indian domestic game, pass the tenant's gender and team filters and are
    scheduled today or live; the tenant's category filters play no part. *)
Theorem C8_fallback_summary_embeds_exactly
        (env : Env) (w : World) (whole : Cfg -> Data) (s : St) (ch : string) (T : Z) :
  Serviced w (st_cfg s) ch ->
  Delivers w ch ->
  modeOf (st_cfg s) = "custom" ->
  selectedOf (st_cfg s) = [] ->
  fallback_summary (st_cfg s) = Some T ->
  T <> 0 ->
  T * 1000 <= now w ->
  exists delta,
    st_posts (tickGuild env w whole s) = st_posts s ++ delta /\
    (forall m,
        embedded m delta <->
        lastOfId (getTodayMatchesSafe w ++ getCurrentMatchesSafe w) m /\
        fallbackCategory m = true /\
        genderAllowed m (Some (default ["men"; "women"] (gender_filters (st_cfg s)))) = true /\
        teamAllowed m (Some (default [] (team_filters (st_cfg s)))) = true /\
        isTodayOrLive w m = true) /\
    (forall f,
        st_posts (tickGuild env w whole
                            (mkSt (set_filters f (st_cfg s)) (st_last s) (st_disk s)
                                  (st_posts s) (st_trace s)))
        = st_posts s ++ delta).
Proof.
  intros Hserv Hdel Hmode Hsel Hkey Hnz Hdue.
  set (genders := default ["men"; "women"] (gender_filters (st_cfg s))).
  set (teams := default [] (team_filters (st_cfg s))).
  set (ms := List.filter (fallbackRelevant w genders teams) (mergedMatches w)).
  exists (match ms with
          | [] => [(ch, PFallbackNone)]
          | _ => summaryPosts ch (mentionText (st_cfg s)) ms
          end ++ tomorrowPosts env w ch (st_cfg s)).
  split; [|split].
  - rewrite (tickGuild_serviced env w whole s ch Hserv).
    rewrite tenantFrom_fallback by assumption.
    unfold branchB. rewrite branch_delivered by exact Hdel. simpl.
    rewrite (dailyDelivered_due _ _ _ _ _ _ _ _ _ _ _ T) by (simpl; trivial).
    reflexivity.
  - intros m. rewrite embedded_app.
    rewrite (embedded_summary_or_none ch (mentionText (st_cfg s)) PFallbackNone ms m)
      by (try reflexivity; discriminate).
    unfold ms. rewrite filter_In, mergedMatches_In, fallbackRelevant_true.
    pose proof (embedded_tomorrowPosts env w ch (st_cfg s) m). tauto.
  - intros f.
    set (s2 := mkSt (set_filters f (st_cfg s)) (st_last s) (st_disk s) (st_posts s) (st_trace s)).
    assert (Hserv2 : Serviced w (st_cfg s2) ch) by exact Hserv.
    rewrite (tickGuild_serviced env w whole s2 ch Hserv2).
    rewrite tenantFrom_fallback by assumption.
    unfold branchB. rewrite branch_delivered by exact Hdel. simpl.
    rewrite (dailyDelivered_due _ _ _ _ _ _ _ _ _ _ _ T) by (simpl; trivial).
    reflexivity.
Qed.

(** ** Which blocks a visit enters *)

Lemma SameTrace_refl (s : St) : SameTrace s s.
Proof. reflexivity. Qed.

Lemma SameTrace_trans (a b c : St) : SameTrace a b -> SameTrace b c -> SameTrace a c.
Proof. unfold SameTrace. congruence. Qed.

Lemma SameTrace_send (w : World) (ch : string) (p : Post) :
  holds SameTrace (fun _ => True) (send w ch p).
Proof. intros s. unfold send. destruct (sendOk w ch p); simpl; split; trivial; reflexivity. Qed.

Lemma SameTrace_saveData (w : World) (whole : Cfg -> Data) :
  holds SameTrace (fun _ => True) (saveData w whole).
Proof. intros s. unfold saveData. destruct (diskOk w); simpl; split; trivial; reflexivity. Qed.

Lemma SameTrace_trackMatch (env : Env) (w : World) (whole : Cfg -> Data) (ch : string)
      (pingStr : option string) (filters genders teams : list string) (m : Match)
      (loc : list string * bool) :
  holds SameTrace (fun _ => True)
        (trackMatch env w whole ch pingStr filters genders teams m loc).
Proof.
  pose proof SameTrace_refl as Hrefl. pose proof SameTrace_trans as Htrans.
  unfold trackMatch. destruct loc as [sel anyLive].
  destruct (_ && _); [|now apply holds_ret].
  destruct (testAnyI FINISHED_RE _).
  - apply (holds_bind _ Htrans (fun _ => True)).
    { apply (holds_tryCatch _ (P := fun _ => True)).
      apply (holds_bind _ Htrans (fun _ => True)); [now apply holds_liftResult|].
      intros sc _. destruct (scorecardEmbedsFrom sc) as [|e0 es]; [now apply holds_ret|].
      apply SameTrace_send. }
    intros _ _. apply (holds_bind _ Htrans (fun _ => True)).
    { intros s. split; [reflexivity | trivial]. }
    intros _ _. apply (holds_bind _ Htrans (fun _ => True)); [apply SameTrace_saveData|].
    intros _ _. apply (holds_bind _ Htrans (fun _ => True)); [apply SameTrace_send|].
    intros _ _. now apply holds_ret.
  - destruct (relevantLive m); [|now apply holds_ret].
    apply (holds_bind _ Htrans (fun _ => True)); [now apply holds_getLast|].
    intros last _. destruct (_ >=? _); [|now apply holds_ret].
    apply (holds_bind _ Htrans (fun _ => True)); [apply SameTrace_send|].
    intros _ _. apply (holds_bind _ Htrans (fun _ => True)).
    { intros s. split; [reflexivity | trivial]. }
    intros _ _. now apply holds_ret.
Qed.

Lemma SameTrace_customLive (env : Env) (w : World) (whole : Cfg -> Data) (ch : string)
      (pingStr : option string) (filters genders teams sel : list string) :
  holds SameTrace (fun _ => True) (customLive env w whole ch pingStr filters genders teams sel).
Proof.
  apply (holds_customLive env w whole SameTrace (fun _ => True)); trivial.
  - apply SameTrace_refl.
  - apply SameTrace_trans.
  - intros f s. reflexivity.
  - intros s. apply SameTrace_saveData.
  - intros. apply SameTrace_trackMatch.
Qed.

Lemma SameTrace_dailyCadence (env : Env) (w : World) (whole : Cfg -> Data) (ch : string)
      (pingStr : option string) (dailyHHMM : string)
      (get : Cfg -> option Z) (set : option Z -> Cfg -> Cfg)
      (relevant : Match -> bool) (none : Post) :
  summaryPost none = true ->
  holds SameTrace (fun _ => True)
        (dailyCadence env w whole ch pingStr dailyHHMM get set relevant none).
Proof.
  apply (holds_dailyCadence env w whole SameTrace).
  - apply SameTrace_refl.
  - apply SameTrace_trans.
  - intros f s. reflexivity.
  - intros s. apply SameTrace_saveData.
  - intros c p s _. apply SameTrace_send.
Qed.

(** A block records its entry and nothing else. *)
Lemma entered_once {A} (b : Branch) (m : M A) (Q : A -> Prop) (s : St) :
  holds SameTrace Q m -> st_trace (snd ((enter b ;;; m) s)) = st_trace s ++ [b].
Proof.
  intros Hm. unfold bind, enter.
  exact (proj1 (Hm (mkSt (st_cfg s) (st_last s) (st_disk s) (st_posts s) (st_trace s ++ [b])))).
Qed.

Lemma guards_custom (cfg : Cfg) :
  modeOf cfg = "custom" ->
  guardC cfg = false /\ guardA cfg = negb (length (selectedOf cfg) =? 0)%nat /\
  guardB cfg = (length (selectedOf cfg) =? 0)%nat.
Proof. intros H. unfold guardA, guardB, guardC. now rewrite H. Qed.

Lemma guards_daily (cfg : Cfg) :
  modeOf cfg = "daily" -> guardC cfg = true /\ guardA cfg = false /\ guardB cfg = false.
Proof. intros H. unfold guardA, guardB, guardC. now rewrite H. Qed.

(** C3, the input that separates claim and code: when the tracked match has
    finished, one tick enters the custom/live block and then the fallback
    block. *)
Lemma C3_two_blocks_in_one_tick :
  branchesRun sampleEnv (sampleWorld 1735725600000 [wonMatch]) sampleWhole
              (startOf (customTenant ["m1"]))
  = [BranchA; BranchB].
Proof. vm_compute. reflexivity. Qed.

(** C3 as the code has it. For a serviced tenant in custom or daily mode
    exactly one of the three guards holds of the configuration the tick
    finds, and the block of that guard is the first the tick enters; the
    only other block a tick may enter is the fallback block, after the
    custom/live block. *)
Theorem C3_one_guard_holds_at_entry
        (env : Env) (w : World) (whole : Cfg -> Data) (s : St) (ch : string) :
  Serviced w (st_cfg s) ch ->
  modeOf (st_cfg s) = "custom" \/ modeOf (st_cfg s) = "daily" ->
  exists b,
    guardOf b (st_cfg s) = true /\
    (forall b', guardOf b' (st_cfg s) = true -> b' = b) /\
    (branchesRun env w whole s = [b] \/
     (b = BranchA /\ branchesRun env w whole s = [BranchA; BranchB])).
Proof.
  intros Hserv Hmode. unfold branchesRun.
  set (s0 := mkSt (st_cfg s) (st_last s) (st_disk s) (st_posts s) []).
  assert (Hserv0 : Serviced w (st_cfg s0) ch) by exact Hserv.
  rewrite (tickGuild_serviced env w whole s0 ch Hserv0). simpl st_cfg.
  destruct Hmode as [Hm|Hm].
  - destruct (guards_custom _ Hm) as (HC & HA & HB).
    destruct (length (selectedOf (st_cfg s)) =? 0)%nat eqn:El; simpl in HA.
    + exists BranchB. split; [exact HB|]. split.
      { intros [] Hg; simpl in Hg; congruence. }
      left. apply Nat.eqb_eq in El.
      rewrite tenantFrom_fallback; [|exact Hm|now destruct (selectedOf (st_cfg s))].
      unfold branchB. rewrite (entered_once _ _ (fun _ => True)); [reflexivity|].
      now apply SameTrace_dailyCadence.
    + exists BranchA. split; [exact HA|]. split.
      { intros [] Hg; simpl in Hg; congruence. }
      unfold tenantFrom. unfold modeOf in Hm. unfold selectedOf in El. rewrite Hm, El. simpl.
      unfold bind.
      match goal with
      | |- context [branchA ?e ?w ?wh ?c ?p ?f ?g ?t ?sl s0] =>
          pose proof (entered_once BranchA (customLive e w wh c p f g t sl) (fun _ => True) s0
                                   (SameTrace_customLive e w wh c p f g t sl)) as HtA;
          fold (branchA e w wh c p f g t sl) in HtA;
          destruct (branchA e w wh c p f g t sl s0) as [[e1|sel1] s1]
      end; simpl in HtA.
      * left. simpl. exact HtA.
      * destruct (length sel1 =? 0)%nat.
        -- right. split; [reflexivity|].
           match goal with
           | |- context [branchB ?e ?w ?wh ?c ?p ?h ?g ?t s1] =>
               pose proof (entered_once BranchB
                             (dailyCadence e w wh c p h fallback_summary set_fallback_summary
                                           (fallbackRelevant w g t) PFallbackNone)
                             (fun _ => True) s1
                             (SameTrace_dailyCadence e w wh c p h fallback_summary
                                set_fallback_summary (fallbackRelevant w g t) PFallbackNone
                                eq_refl)) as HtB;
               fold (branchB e w wh c p h g t) in HtB;
               destruct (branchB e w wh c p h g t s1) as [[e2|[]] s2]
           end; simpl in *; now rewrite HtB, HtA.
        -- left. simpl. exact HtA.
  - destruct (guards_daily _ Hm) as (HC & HA & HB).
    exists BranchC. split; [exact HC|]. split.
    { intros [] Hg; simpl in Hg; congruence. }
    left. rewrite tenantFrom_daily by exact Hm.
    unfold branchC. rewrite (entered_once _ _ (fun _ => True)); [reflexivity|].
    now apply SameTrace_dailyCadence.
Qed.

(** A tenant in daily mode enters the daily block alone. *)
Lemma C3_witness :
  guardOf BranchC (dailyTenant 1735765200) = true /\
  branchesRun sampleEnv (sampleWorld 1735765260000 []) sampleWhole
              (startOf (dailyTenant 1735765200)) = [BranchC].
Proof.
  assert (H1 : Serviced (sampleWorld 1735765260000 []) (st_cfg (startOf (dailyTenant 1735765200))) "chan")
    by (repeat split).
  assert (H2 : modeOf (st_cfg (startOf (dailyTenant 1735765200))) = "custom" \/
               modeOf (st_cfg (startOf (dailyTenant 1735765200))) = "daily")
    by (right; reflexivity).
  destruct (C3_one_guard_holds_at_entry sampleEnv (sampleWorld 1735765260000 []) sampleWhole
              (startOf (dailyTenant 1735765200)) "chan" H1 H2) as (b & Hg & Hone & Hrun).
  assert (HC : guardOf BranchC (dailyTenant 1735765200) = true) by reflexivity.
  split; [exact HC|].
  rewrite <- (Hone BranchC HC) in Hrun.
  destruct Hrun as [Hrun|[Hb _]]; [exact Hrun | discriminate Hb].
Defined.

(** ** The custom/live block when everything is delivered *)

Lemma arrIncludes_true (l : list string) (x : string) : arrIncludes l x = true <-> In x l.
Proof.
  unfold arrIncludes. rewrite existsb_exists. split.
  - intros (y & Hy & E). apply String.eqb_eq in E. now subst.
  - intros H. exists x. split; [exact H | apply String.eqb_refl].
Qed.

Lemma setDelete_In (mid x : string) (sel : list string) :
  In x (setDelete mid sel) <-> In x sel /\ x <> mid.
Proof.
  unfold setDelete. rewrite filter_In, negb_true_iff, String.eqb_neq. intuition congruence.
Qed.

Lemma setOf_In (l : list string) (x : string) : In x (setOf l) <-> In x l.
Proof.
  induction l as [|y r IH]; simpl; [tauto|].
  rewrite filter_In, negb_true_iff, String.eqb_neq, IH.
  destruct (String.eqb_spec y x) as [->|Hne]; intuition congruence.
Qed.

Lemma set_selected_twice (a b : option (list string)) (c : Cfg) :
  set_selected a (set_selected b c) = set_selected a c.
Proof. reflexivity. Qed.

Section LiveLoop.

Variable env : Env.
Variable w : World.
Variable whole : Cfg -> Data.
Variable ch : string.
Variable pingStr : option string.
Variables filters genders teams : list string.

Local Abbreviation step := (trackDelivered env w whole ch pingStr filters genders teams).
Local Abbreviation loop := (trackAll env w whole ch pingStr filters genders teams).

(** One turn of the loop either keeps the selection, posting at most a
    live update of the record at hand, or drops a finished record that
    was selected and passed the filters. *)
Lemma step_cases (m : Match) (sel : list string) (anyLive : bool) (s : St) :
  (fst (fst (step m ((sel, anyLive), s))) = sel /\
   st_cfg (snd (step m ((sel, anyLive), s))) = st_cfg s /\
   st_disk (snd (step m ((sel, anyLive), s))) = st_disk s /\
   (exists d, st_posts (snd (step m ((sel, anyLive), s))) = st_posts s ++ d /\
              forall cp, In cp d -> cp = (ch, PLive pingStr m)) /\
   ~ (In (matchIdOf m) sel /\ passes filters genders teams m = true /\
      isFinishedOrStumps m = true))
  \/
  (In (matchIdOf m) sel /\ passes filters genders teams m = true /\
   isFinishedOrStumps m = true /\
   fst (fst (step m ((sel, anyLive), s))) = setDelete (matchIdOf m) sel /\
   st_cfg (snd (step m ((sel, anyLive), s)))
   = set_selected (Some (setDelete (matchIdOf m) sel)) (st_cfg s) /\
   st_disk (snd (step m ((sel, anyLive), s)))
   = whole (st_cfg (snd (step m ((sel, anyLive), s)))) /\
   st_posts (snd (step m ((sel, anyLive), s)))
   = st_posts s ++ finalPosts w ch (matchIdOf m) ++ [(ch, PStopped (matchIdOf m))]).
Proof.
  assert (Hnil : exists d : list (string * Post),
             st_posts s = st_posts s ++ d /\ forall cp, In cp d -> cp = (ch, PLive pingStr m))
    by (exists []; split; [now rewrite app_nil_r | intros ? []]).
  unfold trackDelivered, passes, isFinishedOrStumps.
  destruct (arrIncludes sel (matchIdOf m)) eqn:Esel;
    [apply arrIncludes_true in Esel|];
    destruct (categoryAllowed m (Some filters));
    destruct (genderAllowed m (Some genders));
    destruct (teamAllowed m (Some teams)); cbn [andb fst snd];
    try (left; do 3 (split; [reflexivity|]); split; [exact Hnil|];
         intros (Hin & Hp & _); try discriminate Hp;
         apply arrIncludes_true in Hin; congruence).
  destruct (testAnyI FINISHED_RE (orElse (m_status m) "")) eqn:Efin.
  - right. cbn [fst snd st_cfg st_disk st_posts]. do 6 (split; [trivial|]). reflexivity.
  - left. destruct (relevantLive m); [destruct (_ >=? _)|]; cbn [fst snd st_cfg st_disk st_posts];
      do 3 (split; [reflexivity|]); (split; [|intros (_ & _ & Hf); congruence]);
      try exact Hnil.
    exists [(ch, PLive pingStr m)]. split; [reflexivity|]. now intros cp [<-|[]].
Qed.

Lemma loop_cons (m : Match) (ms : list Match) (r : (list string * bool) * St) :
  loop (m :: ms) r = loop ms (step m r).
Proof. reflexivity. Qed.

(** What the loop leaves: a smaller selection, the notices for every
    identity dropped, the configuration and the file holding the new
    selection, and no finished record that was selected and passed the
    filters. *)
Lemma loop_drops (ms : list Match) :
  forall (sel : list string) (anyLive : bool) (s : St),
    let r := loop ms ((sel, anyLive), s) in
    (forall x, In x (fst (fst r)) -> In x sel) /\
    (exists d, st_posts (snd r) = st_posts s ++ d /\
               forall x, In x sel -> ~ In x (fst (fst r)) ->
                         In (ch, PStopped x) d /\ incl (finalPosts w ch x) d) /\
    ((fst (fst r) = sel /\ st_cfg (snd r) = st_cfg s /\ st_disk (snd r) = st_disk s) \/
     (st_cfg (snd r) = set_selected (Some (fst (fst r))) (st_cfg s) /\
      st_disk (snd r) = whole (st_cfg (snd r)))) /\
    (forall m, In m ms -> In (matchIdOf m) sel -> passes filters genders teams m = true ->
               isFinishedOrStumps m = true -> ~ In (matchIdOf m) (fst (fst r))).
Proof.
  induction ms as [|m ms IH]; intros sel anyLive s.
  - cbn [trackAll fold_left fst snd]. split; [trivial|]. split.
    + exists []. split; [now rewrite app_nil_r | intros x Hx Hn; contradiction].
    + split; [left; now repeat split | intros ? []].
  - rewrite loop_cons.
    pose proof (step_cases m sel anyLive s) as Hstep.
    destruct (step m ((sel, anyLive), s)) as [[sel1 any1] s1]. cbn [fst snd] in Hstep.
    specialize (IH sel1 any1 s1).
    destruct (loop ms ((sel1, any1), s1)) as [[sel2 any2] s2]. cbn [fst snd] in *.
    destruct IH as (Hsub & (d2 & Hp2 & Hd2) & Hcfg2 & Hfin2).
    destruct Hstep as [(-> & Hc1 & Hk1 & (d1 & Hp1 & Hd1) & Hno)
                      |(Hin & Hpass & Hfin & -> & Hc1 & Hk1 & Hp1)].
    + split; [exact Hsub|]. split.
      { exists (d1 ++ d2). split; [now rewrite Hp2, Hp1, <- app_assoc|].
        intros x Hx Hn. destruct (Hd2 x Hx Hn) as [Ha Hb].
        split; [apply in_or_app; now right | intros y Hy; apply in_or_app; right; now apply Hb]. }
      split.
      { destruct Hcfg2 as [(-> & Hc & Hk)|[Hc Hk]]; [left|right].
        - repeat split; congruence.
        - split; [now rewrite Hc, Hc1 | exact Hk]. }
      intros m0 [<-|Hm0] Hsel0 Hp0 Hf0.
      * exfalso. apply Hno. now repeat split.
      * now apply Hfin2.
    + split; [intros x Hx; now apply (setDelete_In (matchIdOf m) x sel), Hsub|]. split.
      { exists ((finalPosts w ch (matchIdOf m) ++ [(ch, PStopped (matchIdOf m))]) ++ d2).
        split; [now rewrite Hp2, Hp1, <- !app_assoc|].
        intros x Hx Hn.
        destruct (String.eqb_spec x (matchIdOf m)) as [->|Hne].
        - split; [apply in_or_app; left; apply in_or_app; right; now left|].
          intros y Hy. apply in_or_app. left. apply in_or_app. now left.
        - assert (Hx1 : In x (setDelete (matchIdOf m) sel)) by (apply setDelete_In; now split).
          destruct (Hd2 x Hx1 Hn) as [Ha Hb].
          split; [apply in_or_app; now right | intros y Hy; apply in_or_app; right; now apply Hb]. }
      split.
      { right. destruct Hcfg2 as [(-> & Hc & Hk)|[Hc Hk]].
        - split; [now rewrite Hc, Hc1 | now rewrite Hk, Hk1, Hc].
        - split; [now rewrite Hc, Hc1 | exact Hk]. }
      intros m0 Hm0 Hsel0 Hp0 Hf0 Hin2.
      assert (Hin1 : In (matchIdOf m0) (setDelete (matchIdOf m) sel)) by now apply Hsub.
      destruct Hm0 as [<-|Hm0].
      * apply setDelete_In in Hin1 as [_ Hne]. now apply Hne.
      * now apply (Hfin2 m0 Hm0 Hin1 Hp0 Hf0).
Qed.

(** An identity stays selected through the loop unless a record of it is
    finished. *)
Lemma loop_keeps (ms : list Match) (mid : string) :
  (forall m, In m ms -> matchIdOf m = mid -> isFinishedOrStumps m = false) ->
  forall (sel : list string) (anyLive : bool) (s : St),
    In mid sel -> In mid (fst (fst (loop ms ((sel, anyLive), s)))).
Proof.
  induction ms as [|m ms IH]; intros Hlive sel anyLive s Hin; [exact Hin|].
  rewrite loop_cons.
  pose proof (step_cases m sel anyLive s) as Hstep.
  destruct (step m ((sel, anyLive), s)) as [[sel1 any1] s1]. cbn [fst snd] in Hstep.
  apply IH; [intros m' Hm'; apply Hlive; now right|].
  destruct Hstep as [(-> & _)|(_ & _ & Hfin & -> & _)]; [exact Hin|].
  apply setDelete_In. split; [exact Hin|].
  intros ->. rewrite (Hlive m (or_introl eq_refl) eq_refl) in Hfin. discriminate.
Qed.

Lemma loop_app (l1 l2 : list Match) (r : (list string * bool) * St) :
  loop (l1 ++ l2) r = loop l2 (loop l1 r).
Proof. unfold trackAll. apply fold_left_app. Qed.

End LiveLoop.

Lemma customLive_delivered (env : Env) (w : World) (whole : Cfg -> Data) (ch : string)
      (pingStr : option string) (filters genders teams sel : list string) (s : St) :
  Delivers w ch ->
  default 0 (next_due (st_cfg s)) <= now w ->
  customLive env w whole ch pingStr filters genders teams sel s =
  (inr (fst (fst (trackAll env w whole ch pingStr filters genders teams
                           (getCurrentMatchesSafe w) ((sel, false), s)))),
   afterLoop env w whole
             (trackAll env w whole ch pingStr filters genders teams
                       (getCurrentMatchesSafe w) ((sel, false), s))).
Proof.
  intros Hdel Hdue. unfold customLive, bind at 1, getCfg.
  destruct (Z.geb_spec (now w) (default 0 (next_due (st_cfg s)))); [|lia].
  unfold bind. rewrite (forEach_trackMatch_delivered env w whole ch Hdel).
  unfold modifyCfg. rewrite (saveData_delivered w whole ch Hdel). reflexivity.
Qed.

(** The visit of a tenant in custom mode with a selection, when the
    custom/live block is due and everything is delivered: the loop, the
    bookkeeping, and the fallback block if the loop emptied the selection. *)
Lemma tenantFrom_custom_delivered (env : Env) (w : World) (whole : Cfg -> Data) (ch : string)
      (cfg : Cfg) (s : St) :
  modeOf cfg = "custom" ->
  (length (selectedOf cfg) =? 0)%nat = false ->
  Delivers w ch ->
  default 0 (next_due (st_cfg s)) <= now w ->
  snd (tenantFrom env w whole ch cfg s) =
  let r := trackAll env w whole ch (mentionText cfg) (default ALL_CATEGORIES (filters cfg))
                    (default ["men"; "women"] (gender_filters cfg))
                    (default [] (team_filters cfg))
                    (getCurrentMatchesSafe w) ((selectedOf cfg, false), entered BranchA s) in
  if (length (fst (fst r)) =? 0)%nat
  then dailyDelivered env w whole ch (mentionText cfg)
                      (orElse (daily_time cfg) (DAILY_SUMMARY_HHMM env))
                      fallback_summary set_fallback_summary
                      (fallbackRelevant w (default ["men"; "women"] (gender_filters cfg))
                                        (default [] (team_filters cfg)))
                      PFallbackNone (entered BranchB (afterLoop env w whole r))
  else afterLoop env w whole r.
Proof.
  intros Hm Hsel Hdel Hdue. unfold modeOf in Hm. unfold selectedOf in Hsel.
  unfold tenantFrom. rewrite Hm, Hsel. cbn [String.eqb Ascii.eqb Bool.eqb andb negb].
  unfold bind at 1. unfold branchA, bind at 1, enter.
  rewrite (customLive_delivered env w whole ch _ _ _ _ _ _ Hdel) by exact Hdue.
  cbv zeta. fold (selectedOf cfg). fold (entered BranchA s). clear Hsel.
  destruct (length _ =? 0)%nat.
  - unfold bind at 1. unfold branchB.
    rewrite (branch_delivered env w whole ch _ _ _ _ _ _ _ _ Hdel). reflexivity.
  - reflexivity.
Qed.

Lemma dailyDelivered_fallback_facts (env : Env) (w : World) (whole : Cfg -> Data) (ch : string)
      (pingStr : option string) (dailyHHMM : string) (relevant : Match -> bool) (s : St) :
  let s' := dailyDelivered env w whole ch pingStr dailyHHMM fallback_summary
                           set_fallback_summary relevant PFallbackNone s in
  selected_match_ids (st_cfg s') = selected_match_ids (st_cfg s) /\
  st_last s' = st_last s /\
  (st_disk s = whole (st_cfg s) -> st_disk s' = whole (st_cfg s')) /\
  exists d, st_posts s' = st_posts s ++ d /\ forall cp, In cp d -> summaryPost (snd cp) = true.
Proof.
  assert (Hsum : forall ms cp, In cp (summaryPosts ch pingStr ms) -> summaryPost (snd cp) = true).
  { intros ms cp. unfold summaryPosts. destruct (slices ms) as [|first rest]; [intros []|].
    intros [<-|Hin]; [reflexivity|]. apply in_map_iff in Hin as (sl & <- & _). reflexivity. }
  assert (Htom : forall cp, In cp (tomorrowPosts env w ch (st_cfg s)) -> summaryPost (snd cp) = true).
  { intros cp Hin. unfold tomorrowPosts in Hin. apply in_map_iff in Hin as (c & <- & _).
    reflexivity. }
  assert (Hnil : exists d : list (string * Post),
             st_posts s = st_posts s ++ d /\ forall cp, In cp d -> summaryPost (snd cp) = true)
    by (exists []; split; [now rewrite app_nil_r | intros ? []]).
  unfold dailyDelivered.
  destruct (fallback_summary (st_cfg s)) as [[|T|T]|]; cbn [st_cfg st_last st_disk st_posts];
    try (now repeat split).
  all: destruct (now w >=? _); cbn [st_cfg st_last st_disk st_posts]; try (now repeat split).
  all: do 3 (split; [reflexivity|]); eexists; split; [reflexivity|].
  all: intros cp Hin; apply in_app_or in Hin as [Hin|Hin]; [|now apply Htom].
  all: destruct (List.filter relevant (mergedMatches w));
    [destruct Hin as [<-|[]]; reflexivity | now apply (Hsum _ _ Hin)].
Qed.

(** ** Posts about a match that is not selected *)

Lemma Untracked_refl (mid : string) (s : St) : Untracked mid s s.
Proof. exists []. split; [now rewrite app_nil_r | intros ? []]. Qed.

Lemma Untracked_trans (mid : string) (a b c : St) :
  Untracked mid a b -> Untracked mid b c -> Untracked mid a c.
Proof.
  intros (d1 & E1 & H1) (d2 & E2 & H2). exists (d1 ++ d2).
  split; [now rewrite E2, E1, <- app_assoc|].
  intros cp Hin. apply in_app_or in Hin as [Hin|Hin]; auto.
Qed.

Lemma Untracked_quiet (mid : string) (s s' : St) :
  st_posts s' = st_posts s -> Untracked mid s s'.
Proof. intros H. exists []. split; [now rewrite app_nil_r | intros ? []]. Qed.

Lemma Untracked_send (mid : string) (w : World) (ch : string) (p : Post) :
  trackingFor mid p = false -> holds (Untracked mid) (fun _ => True) (send w ch p).
Proof.
  intros Hp s. split; [|trivial]. unfold send.
  destruct (sendOk w ch p); cbn [snd]; [|apply Untracked_refl].
  exists [(ch, p)]. split; [reflexivity|]. now intros cp [<-|[]].
Qed.

Lemma Untracked_saveData (mid : string) (w : World) (whole : Cfg -> Data) :
  holds (Untracked mid) (fun _ => True) (saveData w whole).
Proof.
  intros s. split; [|trivial]. unfold saveData.
  destruct (diskOk w); cbn [snd]; [now apply Untracked_quiet | apply Untracked_refl].
Qed.

Lemma Untracked_trackMatch (mid : string) (env : Env) (w : World) (whole : Cfg -> Data)
      (ch : string) (pingStr : option string) (filters genders teams : list string)
      (m : Match) (loc : list string * bool) :
  ~ In mid (fst loc) ->
  holds (Untracked mid) (fun loc' => ~ In mid (fst loc'))
        (trackMatch env w whole ch pingStr filters genders teams m loc).
Proof.
  pose proof (Untracked_refl mid) as Hrefl. pose proof (Untracked_trans mid) as Htrans.
  intros Hloc. unfold trackMatch. destruct loc as [sel anyLive]. cbn [fst] in Hloc.
  destruct (arrIncludes sel (matchIdOf m)) eqn:Esel; cbn [andb]; [|now apply holds_ret].
  apply arrIncludes_true in Esel.
  assert (Hne : String.eqb (matchIdOf m) mid = false)
    by (apply String.eqb_neq; intros <-; contradiction).
  destruct (_ && _); [|now apply holds_ret].
  destruct (testAnyI FINISHED_RE _).
  - apply (holds_bind _ Htrans (fun _ => True)).
    { apply (holds_tryCatch _ (P := fun _ => True)).
      apply (holds_bind _ Htrans (fun _ => True)); [now apply holds_liftResult|].
      intros sc _. destruct (scorecardEmbedsFrom sc) as [|e0 es]; [now apply holds_ret|].
      now apply Untracked_send. }
    intros _ _. apply (holds_bind _ Htrans (fun _ => True)).
    { intros s. split; [now apply Untracked_quiet | trivial]. }
    intros _ _. apply (holds_bind _ Htrans (fun _ => True)); [apply Untracked_saveData|].
    intros _ _. apply (holds_bind _ Htrans (fun _ => True)); [now apply Untracked_send|].
    intros _ _. apply holds_ret; [exact Hrefl|]. cbn [fst].
    intros Hin. apply setDelete_In in Hin as [Hin _]. contradiction.
  - destruct (relevantLive m); [|now apply holds_ret].
    apply (holds_bind _ Htrans (fun _ => True)); [now apply holds_getLast|].
    intros last _. destruct (_ >=? _); [|now apply holds_ret].
    apply (holds_bind _ Htrans (fun _ => True)); [now apply Untracked_send|].
    intros _ _. apply (holds_bind _ Htrans (fun _ => True)).
    { intros s. split; [now apply Untracked_quiet | trivial]. }
    intros _ _. now apply holds_ret.
Qed.

(** A visit posts nothing about a match the tenant has not selected. *)
Lemma Untracked_tickGuild (mid : string) (env : Env) (w : World) (whole : Cfg -> Data) (s : St) :
  ~ In mid (selectedOf (st_cfg s)) -> Untracked mid s (tickGuild env w whole s).
Proof.
  intros Hsel.
  apply (related_tickGuild env w whole (Untracked mid) (fun loc => ~ In mid (fst loc)));
    trivial.
  - apply Untracked_refl.
  - apply Untracked_trans.
  - intros f s0. now apply Untracked_quiet.
  - intros s0. apply Untracked_saveData.
  - intros c p s0 Hp. apply Untracked_send. now destruct p.
  - intros. now apply Untracked_trackMatch.
  - intros b s0. now apply Untracked_quiet.
Qed.

(** ** Finished matches in the custom/live block *)

(** C1 at the input on which the code departs from it.  "Match Tied" is the
    status of a finished match, but [FINISHED_RE] has no alternative for a
    tie (nor for a draw): the due tick posts a live update for the tied
    match, no final scorecard and no notice, and leaves the identity
    selected; ten minutes later the next due tick does the same again. *)
Lemma C1_match_tied_stays_tracked :
  let s1 := tickGuild sampleEnv (sampleWorld 1735725600000 [tiedMatch]) sampleWhole
                      (startOf (customTenant ["m1"])) in
  let s2 := tickGuild sampleEnv (sampleWorld 1735726200000 [tiedMatch]) sampleWhole s1 in
  testAnyI FINISHED_RE "Match Tied" = false /\
  testAnyI FINISHED_RE "Match drawn" = false /\
  isFinishedOrStumps tiedMatch = false /\
  st_posts s1 = [("chan", PLive None tiedMatch)] /\
  selected_match_ids (st_cfg s1) = Some ["m1"] /\
  st_posts s2 = [("chan", PLive None tiedMatch); ("chan", PLive None tiedMatch)] /\
  selected_match_ids (st_cfg s2) = Some ["m1"].
Proof. repeat split; vm_compute; reflexivity. Qed.

(** X31 (tick, FINISHED_RE): in custom mode, when the custom/live block is
    due and the feed holds a record of a tracked match that passes the
    tenant's filters and whose status matches [FINISHED_RE], the tick (its
    messages delivered, its file written) sends the final scorecard if the
    scorecard can be fetched, sends the tracking-stopped notice, removes
    the identity from the selection and writes that to the file; any later
    visit that finds this configuration sends no final scorecard, no
    tracking-stopped notice and no live update for that identity. *)
Theorem X31_finished_match_is_dropped_for_good
        (env : Env) (w : World) (whole : Cfg -> Data) (s : St) (ch mid : string) (m : Match) :
  Serviced w (st_cfg s) ch ->
  Delivers w ch ->
  modeOf (st_cfg s) = "custom" ->
  In mid (selectedOf (st_cfg s)) ->
  default 0 (next_due (st_cfg s)) <= now w ->
  In m (getCurrentMatchesSafe w) ->
  matchIdOf m = mid ->
  isFinishedOrStumps m = true ->
  passesFilters (st_cfg s) m = true ->
  (exists delta,
      st_posts (tickGuild env w whole s) = st_posts s ++ delta /\
      In (ch, PStopped mid) delta /\
      incl (finalPosts w ch mid) delta) /\
  (exists sel',
      selected_match_ids (st_cfg (tickGuild env w whole s)) = Some sel' /\ ~ In mid sel') /\
  st_disk (tickGuild env w whole s) = whole (st_cfg (tickGuild env w whole s)) /\
  (forall env2 w2 whole2 s2,
      st_cfg s2 = st_cfg (tickGuild env w whole s) ->
      Untracked mid s2 (tickGuild env2 w2 whole2 s2)).
Proof.
  intros Hserv Hdel Hmode Hsel Hdue Hfeed Hid Hfin Hpass.
  assert (Hlen : (length (selectedOf (st_cfg s)) =? 0)%nat = false)
    by (destruct (selectedOf (st_cfg s)); [contradiction | reflexivity]).
  rewrite (tickGuild_serviced env w whole s ch Hserv).
  rewrite (tenantFrom_custom_delivered env w whole ch (st_cfg s) s Hmode Hlen Hdel Hdue).
  cbv zeta.
  pose proof (loop_drops env w whole ch (mentionText (st_cfg s))
                         (default ALL_CATEGORIES (filters (st_cfg s)))
                         (default ["men"; "women"] (gender_filters (st_cfg s)))
                         (default [] (team_filters (st_cfg s)))
                         (getCurrentMatchesSafe w)
                         (selectedOf (st_cfg s)) false (entered BranchA s)) as Hloop.
  cbv zeta in Hloop.
  set (r := trackAll env w whole ch (mentionText (st_cfg s))
                     (default ALL_CATEGORIES (filters (st_cfg s)))
                     (default ["men"; "women"] (gender_filters (st_cfg s)))
                     (default [] (team_filters (st_cfg s)))
                     (getCurrentMatchesSafe w)
                     ((selectedOf (st_cfg s), false), entered BranchA s)) in *.
  destruct Hloop as (Hsub & (d & Hp & Hd) & Hcfg & Hgone).
  assert (Hout : ~ In mid (fst (fst r))).
  { rewrite <- Hid. apply (Hgone m Hfeed); [now rewrite Hid | exact Hpass | exact Hfin]. }
  destruct (Hd mid Hsel Hout) as [Hstop Hfinal].
  destruct Hcfg as [(Heq & _)|[Hc Hk]]; [rewrite Heq in Hout; contradiction|].
  set (sA := afterLoop env w whole r).
  assert (HA1 : st_posts sA = st_posts s ++ d) by exact Hp.
  assert (HA2 : selected_match_ids (st_cfg sA) = Some (fst (fst r)))
    by (unfold sA, afterLoop; cbn [st_cfg]; now rewrite Hc).
  assert (HA3 : st_disk sA = whole (st_cfg sA)) by reflexivity.
  assert (Hlater : forall s', selected_match_ids (st_cfg s') = Some (fst (fst r)) ->
                     forall env2 w2 whole2 s2,
                       st_cfg s2 = st_cfg s' -> Untracked mid s2 (tickGuild env2 w2 whole2 s2)).
  { intros s' Hs' env2 w2 whole2 s2 E. apply Untracked_tickGuild.
    unfold selectedOf. rewrite E, Hs'. cbn [default]. now rewrite setOf_In. }
  destruct (length (fst (fst r)) =? 0)%nat.
  - pose proof (dailyDelivered_fallback_facts env w whole ch (mentionText (st_cfg s))
                  (orElse (daily_time (st_cfg s)) (DAILY_SUMMARY_HHMM env))
                  (fallbackRelevant w (default ["men"; "women"] (gender_filters (st_cfg s)))
                                    (default [] (team_filters (st_cfg s))))
                  (entered BranchB sA)) as Hfb.
    cbv zeta in Hfb. destruct Hfb as (Hs & _ & Hdsk & (d' & Hp' & _)).
    cbn [entered st_cfg st_disk st_posts] in Hs, Hdsk, Hp'.
    split; [|split; [|split]].
    + exists (d ++ d'). split; [now rewrite Hp', HA1, <- app_assoc|].
      split; [apply in_or_app; now left | intros y Hy; apply in_or_app; left; now apply Hfinal].
    + exists (fst (fst r)). split; [now rewrite Hs | exact Hout].
    + now apply Hdsk.
    + apply Hlater. now rewrite Hs.
  - split; [|split; [|split]].
    + exists d. now repeat split.
    + exists (fst (fst r)). now split.
    + exact HA3.
    + now apply Hlater.
Qed.

(** The tracked match is reported won: it is dropped and the notice sent. *)
Lemma X31_witness :
  selected_match_ids
    (st_cfg (tickGuild sampleEnv (sampleWorld 1735725600000 [wonMatch]) sampleWhole
                       (startOf (customTenant ["m1"]))))
  = Some [] /\
  In ("chan", PStopped "m1")
     (st_posts (tickGuild sampleEnv (sampleWorld 1735725600000 [wonMatch]) sampleWhole
                          (startOf (customTenant ["m1"])))).
Proof.
  assert (H1 : Serviced (sampleWorld 1735725600000 [wonMatch])
                        (st_cfg (startOf (customTenant ["m1"]))) "chan") by (repeat split).
  assert (H2 : Delivers (sampleWorld 1735725600000 [wonMatch]) "chan")
    by (split; [intros p; reflexivity | reflexivity]).
  assert (H3 : modeOf (st_cfg (startOf (customTenant ["m1"]))) = "custom") by reflexivity.
  assert (H4 : In "m1" (selectedOf (st_cfg (startOf (customTenant ["m1"]))))) by (now left).
  assert (H5 : default 0 (next_due (st_cfg (startOf (customTenant ["m1"]))))
               <= now (sampleWorld 1735725600000 [wonMatch])) by (simpl; lia).
  assert (H6 : In wonMatch (getCurrentMatchesSafe (sampleWorld 1735725600000 [wonMatch])))
    by (now left).
  assert (H7 : matchIdOf wonMatch = "m1") by reflexivity.
  assert (H8 : isFinishedOrStumps wonMatch = true) by reflexivity.
  assert (H9 : passesFilters (st_cfg (startOf (customTenant ["m1"]))) wonMatch = true)
    by reflexivity.
  destruct (X31_finished_match_is_dropped_for_good
              sampleEnv (sampleWorld 1735725600000 [wonMatch]) sampleWhole
              (startOf (customTenant ["m1"])) "chan" "m1" wonMatch
              H1 H2 H3 H4 H5 H6 H7 H8 H9)
    as ((delta & Hposts & Hstop & _) & _ & _ & _).
  split; [vm_compute; reflexivity|].
  rewrite Hposts. apply in_or_app. right. exact Hstop.
Defined.

(** A live international is embedded in the fallback summary of a tenant
    whose category filters name franchise cricket only. *)
Lemma C8_witness :
  embedded liveMatch
           (st_posts (tickGuild sampleEnv (sampleWorld 1735725600000 [liveMatch]) sampleWhole
                                (startOf (fallbackTenant 1735722000)))).
Proof.
  assert (H1 : Serviced (sampleWorld 1735725600000 [liveMatch])
                        (st_cfg (startOf (fallbackTenant 1735722000))) "chan") by (repeat split).
  assert (H2 : Delivers (sampleWorld 1735725600000 [liveMatch]) "chan")
    by (split; [intros p; reflexivity | reflexivity]).
  assert (H3 : 1735722000 <> 0) by lia.
  assert (H4 : 1735722000 * 1000 <= now (sampleWorld 1735725600000 [liveMatch]))
    by (simpl; lia).
  destruct (C8_fallback_summary_embeds_exactly
              sampleEnv (sampleWorld 1735725600000 [liveMatch]) sampleWhole
              (startOf (fallbackTenant 1735722000)) "chan" 1735722000
              H1 H2 eq_refl eq_refl eq_refl H3 H4)
    as (delta & Hposts & Hiff & _).
  rewrite Hposts. apply embedded_app. right. apply Hiff.
  split; [|repeat split].
  exists [], []. split; [reflexivity | intros m' []].
Defined.

(** ** Text chunks *)

Lemma slen_app (a b : string) :
  String.length (a +:+ b) = (String.length a + String.length b)%nat.
Proof.
  induction a as [|c a IH]; [now rewrite sapp_nil|].
  rewrite sapp_cons. simpl. now rewrite IH.
Qed.

Lemma strTake_drop (n : nat) (s : string) : strTake n s +:+ strDrop n s = s.
Proof.
  revert s. induction n as [|n IH]; intros [|c r]; simpl; try reflexivity.
  rewrite sapp_cons. now rewrite IH.
Qed.

Lemma strTake_length (n : nat) (s : string) :
  String.length (strTake n s) = Nat.min n (String.length s).
Proof.
  revert s. induction n as [|n IH]; intros [|c r]; simpl; try reflexivity.
  now rewrite IH.
Qed.

Lemma strDrop_length (n : nat) (s : string) :
  String.length (strDrop n s) = (String.length s - n)%nat.
Proof.
  revert s. induction n as [|n IH]; intros [|c r]; simpl; try reflexivity.
  now rewrite IH.
Qed.

Lemma glue_app (a b : list string) : glue (a ++ b) = glue a +:+ glue b.
Proof.
  induction a as [|x a IH]; simpl.
  - now rewrite sapp_nil.
  - unfold glue in *. simpl. rewrite IH. now rewrite sapp_assoc.
Qed.

Lemma glue_cons (x : string) (l : list string) : glue (x :: l) = x +:+ glue l.
Proof. reflexivity. Qed.

Lemma visible_app (a b : string) : visible (a +:+ b) = visible a +:+ visible b.
Proof.
  induction a as [|c a IH]; [now rewrite !sapp_nil|].
  rewrite sapp_cons. simpl. destruct (Ascii.eqb c "010"); [exact IH|].
  rewrite sapp_cons. now rewrite IH.
Qed.

Lemma isEmpty_length (s : string) : isEmpty s = true <-> String.length s = 0%nat.
Proof. destruct s; simpl; split; intro H; congruence. Qed.

Lemma sliceEvery_glue (fuel maxLen : nat) (s : string) (ps : list string) :
  sliceEvery fuel maxLen s = Some ps -> glue ps = s.
Proof.
  revert s ps. induction fuel as [|f IH]; intros [|c r] ps; simpl; intro H;
    try (injection H as <-; reflexivity); try discriminate.
  destruct (sliceEvery f maxLen (strDrop maxLen (String c r))) as [qs|] eqn:E; [|discriminate].
  injection H as <-. rewrite glue_cons. rewrite (IH _ _ E). apply strTake_drop.
Qed.

(** With a positive [maxLen] the slicing loop ends within [line.length]
    rounds, and every piece is non-empty and at most [maxLen] long. *)
Lemma sliceEvery_ok (maxLen : nat) :
  (0 < maxLen)%nat ->
  forall fuel s, (String.length s <= fuel)%nat ->
    exists ps, sliceEvery fuel maxLen s = Some ps /\
               Forall (fun p => (0 < String.length p <= maxLen)%nat) ps.
Proof.
  intros Hpos. induction fuel as [|f IH]; intros [|c r] Hlen.
  - exists []. split; [reflexivity|constructor].
  - simpl in Hlen. lia.
  - exists []. split; [reflexivity|constructor].
  - assert (Hd : (String.length (strDrop maxLen (String c r)) <= f)%nat).
    { rewrite strDrop_length. simpl in *. lia. }
    destruct (IH _ Hd) as [ps [E F]].
    exists (strTake maxLen (String c r) :: ps). split.
    + cbn [sliceEvery]. now rewrite E.
    + constructor; [|exact F]. rewrite strTake_length. simpl String.length. lia.
Qed.

Lemma splitOn_cons (sep : ascii) (s : string) : exists l ls, splitOn sep s = l :: ls.
Proof.
  destruct s as [|c r]; simpl; [eauto|].
  destruct (Ascii.eqb c sep); [eauto|].
  destruct (splitOn sep r); eauto.
Qed.

Lemma splitOn_lengths (sep : ascii) (s : string) :
  Forall (fun l => (String.length l <= String.length s)%nat) (splitOn sep s).
Proof.
  induction s as [|c r IH]; simpl.
  - constructor; [simpl; lia|constructor].
  - assert (W : Forall (fun l => (String.length l <= S (String.length r))%nat) (splitOn sep r)).
    { eapply List.Forall_impl; [|exact IH]. simpl. intros; lia. }
    destruct (Ascii.eqb c sep).
    + constructor; [simpl; lia|exact W].
    + destruct (splitOn sep r) as [|l ls]; [constructor; [simpl; lia|constructor]|].
      inversion W; subst. inversion IH; subst.
      constructor; [simpl; lia|assumption].
Qed.

Lemma splitOn_visible (s : string) :
  glue (map visible (splitOn "010" s)) = visible s.
Proof.
  induction s as [|c r IH]; [reflexivity|].
  cbn [splitOn visible]. destruct (Ascii.eqb c "010") eqn:E.
  - cbn [map]. rewrite glue_cons. cbn [visible]. rewrite sapp_nil. exact IH.
  - destruct (splitOn "010" r) as [|l ls].
    + cbn [map glue fold_right] in *. rewrite <- IH. cbn [visible]. rewrite E. reflexivity.
    + cbn [map] in *. rewrite glue_cons in *. cbn [visible]. rewrite E.
      rewrite sapp_cons. now rewrite IH.
Qed.

(** The text is its lines joined by line feeds. *)
Lemma splitOn_join (s : string) :
  exists l ls, splitOn "010" s = l :: ls /\
               s = l +:+ glue (map (fun x => newline +:+ x) ls) /\
               (isEmpty l = true -> s = "" \/ exists r, s = String "010" r).
Proof.
  induction s as [|c r IH].
  - exists "", []. repeat split; auto.
  - destruct IH as [l [ls [E [J K]]]]. simpl. rewrite E.
    destruct (Ascii.eqb_spec c "010") as [->|Hc].
    + exists "", (l :: ls). split; [reflexivity|]. split.
      * cbn [map]. rewrite glue_cons. rewrite sapp_nil.
        rewrite sapp_assoc, <- J. reflexivity.
      * intros _. right. eauto.
    + exists (String c l), ls. split; [reflexivity|]. split.
      * rewrite sapp_cons. now rewrite <- J.
      * simpl. discriminate.
Qed.

Lemma chunkStep_ok (maxLen fuel : nat) (line : string) (st : list string * string) :
  (0 < maxLen)%nat -> (String.length line <= fuel)%nat -> chunksOk maxLen st ->
  exists st', chunkStep fuel maxLen line st = Some st' /\ chunksOk maxLen st'.
Proof.
  intros Hpos Hfuel. destruct st as [chunks cur]. intros [Hc Hcur]. simpl in Hc, Hcur.
  unfold chunkStep.
  assert (H1 : Forall (fun p => (0 < String.length p <= maxLen)%nat)
                 (if isEmpty cur then chunks else chunks ++ [cur])).
  { destruct cur as [|a cur]; simpl; [exact Hc|].
    apply Forall_app. split; [exact Hc|]. constructor; [|constructor]. simpl in *. lia. }
  destruct (Nat.ltb_spec maxLen (String.length (cur +:+ newline +:+ line))) as [Hbig|Hfit].
  - destruct (Nat.ltb_spec maxLen (String.length line)) as [Hlong|Hshort].
    + destruct (sliceEvery_ok maxLen Hpos fuel line Hfuel) as [ps [E F]].
      rewrite E. eexists. split; [reflexivity|]. split; simpl; [|lia].
      apply Forall_app. now split.
    + eexists. split; [reflexivity|]. split; simpl; assumption.
  - eexists. split; [reflexivity|]. split; simpl; [exact Hc|].
    destruct cur as [|a cur]; simpl isEmpty; cbv iota; [|exact Hfit].
    rewrite !slen_app in Hfit. lia.
Qed.

Lemma chunkLines_ok (maxLen fuel : nat) (lines : list string) :
  (0 < maxLen)%nat -> Forall (fun l => (String.length l <= fuel)%nat) lines ->
  forall st, chunksOk maxLen st ->
    exists st', chunkLines fuel maxLen lines st = Some st' /\ chunksOk maxLen st'.
Proof.
  intros Hpos. induction 1 as [|l ls Hl Hls IH]; intros st Hst.
  - exists st. now split.
  - destruct (chunkStep_ok maxLen fuel l st Hpos Hl Hst) as [st1 [E1 H1]].
    destruct (IH st1 H1) as [st2 [E2 H2]].
    exists st2. split; [|exact H2]. simpl. now rewrite E1.
Qed.

Lemma visible_newline : visible newline = "".
Proof. reflexivity. Qed.

Lemma chunkStep_content (maxLen fuel : nat) (line : string) (chunks chunks' : list string)
      (cur cur' : string) :
  chunkStep fuel maxLen line (chunks, cur) = Some (chunks', cur') ->
  visible (glue chunks') +:+ visible cur'
  = (visible (glue chunks) +:+ visible cur) +:+ visible line.
Proof.
  unfold chunkStep.
  assert (H1 : visible (glue (if isEmpty cur then chunks else chunks ++ [cur]))
               = visible (glue chunks) +:+ visible cur).
  { destruct cur as [|a cur]; simpl isEmpty; cbv iota.
    - simpl visible at 3. now rewrite sapp_empty_r.
    - rewrite glue_app, visible_app. rewrite glue_cons. simpl glue.
      now rewrite sapp_empty_r. }
  destruct (maxLen <? String.length (cur +:+ newline +:+ line))%nat.
  - destruct (maxLen <? String.length line)%nat.
    + destruct (sliceEvery fuel maxLen line) as [ps|] eqn:E; [|discriminate].
      intro H. injection H as <- <-.
      rewrite glue_app, visible_app, H1. rewrite (sliceEvery_glue _ _ _ _ E).
      simpl visible at 4. now rewrite sapp_empty_r.
    + intro H. injection H as <- <-. now rewrite H1.
  - intro H. injection H as <- <-.
    destruct cur as [|a cur]; simpl isEmpty; cbv iota.
    + simpl visible at 3. now rewrite sapp_empty_r.
    + rewrite !visible_app, visible_newline, sapp_nil. now rewrite sapp_assoc.
Qed.

Lemma chunkLines_content (maxLen fuel : nat) (lines : list string) :
  forall chunks cur chunks' cur',
    chunkLines fuel maxLen lines (chunks, cur) = Some (chunks', cur') ->
    visible (glue chunks') +:+ visible cur'
    = (visible (glue chunks) +:+ visible cur) +:+ glue (map visible lines).
Proof.
  induction lines as [|l ls IH]; intros chunks cur chunks' cur'; cbn [chunkLines map].
  - intro H. injection H as <- <-. cbn [glue fold_right]. now rewrite sapp_empty_r.
  - destruct (chunkStep fuel maxLen l (chunks, cur)) as [[c1 u1]|] eqn:E; [|discriminate].
    intro H. rewrite (IH _ _ _ _ H). rewrite (chunkStep_content _ _ _ _ _ _ _ E).
    rewrite glue_cons. now rewrite sapp_assoc.
Qed.

(** A text that fits is kept in [cur] line after line. *)
Lemma chunkLines_fits (maxLen fuel : nat) (lines : list string) :
  forall cur,
    isEmpty cur = false ->
    (String.length (cur +:+ glue (map (fun x => newline +:+ x) lines)) <= maxLen)%nat ->
    chunkLines fuel maxLen lines ([], cur)
    = Some ([], cur +:+ glue (map (fun x => newline +:+ x) lines)).
Proof.
  induction lines as [|l ls IH]; intros cur Hne Hlen; cbn [chunkLines map].
  - cbn [glue fold_right]. now rewrite sapp_empty_r.
  - cbn [map] in Hlen. rewrite glue_cons in *. cbn beta in *.
    unfold chunkStep.
    destruct (Nat.ltb_spec maxLen (String.length (cur +:+ newline +:+ l))) as [Hbig|Hfit].
    + rewrite !slen_app in Hlen. rewrite !slen_app in Hbig. lia.
    + rewrite Hne.
      rewrite IH.
      * now rewrite !sapp_assoc.
      * destruct cur; [discriminate|reflexivity].
      * now rewrite !sapp_assoc.
Qed.

(** X1 (chunkText): with a positive limit [maxLen], [chunkText] ends
    within [text.length] rounds of its slicing loop, and every chunk it
    returns is non-empty and at most [maxLen] characters long. *)
Theorem X1_chunkText_chunks_within_limit (fuel : nat) (text : string) (maxLen : nat) :
  (0 < maxLen)%nat -> (String.length text <= fuel)%nat ->
  exists chunks,
    chunkText fuel text maxLen = Some chunks /\
    forall c, In c chunks -> (0 < String.length c <= maxLen)%nat.
Proof.
  intros Hpos Hfuel. unfold chunkText.
  assert (Hl : Forall (fun l => (String.length l <= fuel)%nat) (splitOn "010" text)).
  { eapply List.Forall_impl; [|apply splitOn_lengths]. simpl. intros; lia. }
  assert (H0 : chunksOk maxLen ([], "")).
  { split; simpl; [constructor|lia]. }
  destruct (chunkLines_ok maxLen fuel _ Hpos Hl _ H0) as [[chunks cur] [E [Hc Hcur]]].
  rewrite E. eexists. split; [reflexivity|].
  simpl in Hc, Hcur. intros c Hin.
  assert (F : Forall (fun p => (0 < String.length p <= maxLen)%nat)
                (if isEmpty cur then chunks else chunks ++ [cur])).
  { destruct cur as [|a cur]; simpl; [exact Hc|].
    apply Forall_app. split; [exact Hc|]. constructor; [|constructor]. simpl in *. lia. }
  exact (proj1 (List.Forall_forall _ _) F c Hin).
Qed.

Lemma X1_witness :
  exists chunks,
    chunkText 9 ("ab" +:+ newline +:+ "cdefg") 3 = Some chunks /\
    forall c, In c chunks -> (0 < String.length c <= 3)%nat.
Proof. apply X1_chunkText_chunks_within_limit; vm_compute; lia. Defined.

(** X2 (chunkText): the chunks returned hold, in order, exactly the
    characters of the text other than line feeds: nothing is lost,
    repeated or reordered, whatever the limit. *)
Theorem X2_chunkText_keeps_every_character (fuel : nat) (text : string) (maxLen : nat)
        (chunks : list string) :
  chunkText fuel text maxLen = Some chunks ->
  visible (glue chunks) = visible text.
Proof.
  unfold chunkText.
  destruct (chunkLines fuel maxLen (splitOn "010" text) ([], "")) as [[cs cur]|] eqn:E;
    [|discriminate].
  intro H. injection H as <-.
  pose proof (chunkLines_content _ _ _ _ _ _ _ E) as C.
  simpl glue in C at 2. simpl visible in C at 3 4. rewrite !sapp_nil in C.
  rewrite splitOn_visible in C. rewrite <- C.
  destruct cur as [|a cur]; simpl isEmpty; cbv iota.
  - simpl visible at 3. now rewrite sapp_empty_r.
  - rewrite glue_app, visible_app. rewrite glue_cons. simpl glue. now rewrite sapp_empty_r.
Qed.

Lemma X2_witness :
  chunkText 9 ("ab" +:+ newline +:+ "cdefg") 3 = Some ["ab"; "cde"; "fg"] /\
  visible (glue ["ab"; "cde"; "fg"]) = visible ("ab" +:+ newline +:+ "cdefg").
Proof.
  split; [reflexivity|].
  apply (X2_chunkText_keeps_every_character 9 _ 3). reflexivity.
Defined.

(** X3 (chunkText): a non-empty text that fits the limit and does not
    start with a line feed comes back as one chunk, unchanged. *)
Theorem X3_chunkText_short_text_is_one_chunk (fuel : nat) (text : string) (maxLen : nat) :
  (0 < String.length text <= maxLen)%nat ->
  startsWith text newline = false ->
  chunkText fuel text maxLen = Some [text].
Proof.
  intros [Hpos Hfit] Hstart. unfold chunkText.
  destruct (splitOn_join text) as [l [ls [E [J K]]]]. rewrite E.
  assert (Hl : isEmpty l = false).
  { destruct (isEmpty l) eqn:El; [|reflexivity].
    destruct (K eq_refl) as [->|[r ->]]; [simpl in Hpos; lia|].
    discriminate Hstart. }
  assert (S1 : chunkStep fuel maxLen l ([], "") = Some ([], l)).
  { unfold chunkStep. simpl isEmpty. cbv iota.
    assert (Hle : (String.length l <= maxLen)%nat).
    { rewrite J in Hfit. rewrite slen_app in Hfit. lia. }
    destruct (maxLen <? String.length ("" +:+ newline +:+ l))%nat; [|reflexivity].
    destruct (Nat.ltb_spec maxLen (String.length l)); [lia|reflexivity]. }
  cbn [chunkLines]. rewrite S1.
  rewrite (chunkLines_fits maxLen fuel ls l Hl); [|now rewrite <- J].
  rewrite <- J. destruct text; [simpl in Hpos; lia|reflexivity].
Qed.

Lemma X3_witness :
  chunkText 0 ("Tomorrow:" +:+ newline +:+ "India v England") 1900
  = Some ["Tomorrow:" +:+ newline +:+ "India v England"].
Proof. apply X3_chunkText_short_text_is_one_chunk; [vm_compute; lia|reflexivity]. Defined.

(** ** Normalised text *)

Lemma trimEnd_cons (c : ascii) (r : string) :
  trimEnd (String c r)
  = match trimEnd r with
    | EmptyString => if is_ws c then EmptyString else String c EmptyString
    | r' => String c r'
    end.
Proof. reflexivity. Qed.

Lemma trimEnd_idem (s : string) : trimEnd (trimEnd s) = trimEnd s.
Proof.
  induction s as [|c r IH]; [reflexivity|].
  rewrite trimEnd_cons. destruct (trimEnd r) as [|a r'] eqn:E.
  - destruct (is_ws c) eqn:W; [reflexivity|].
    rewrite trimEnd_cons. cbn [trimEnd]. now rewrite W.
  - rewrite trimEnd_cons. now rewrite IH.
Qed.

Lemma trimEnd_first (c : ascii) (r : string) :
  is_ws c = false -> exists r', trimEnd (String c r) = String c r'.
Proof.
  intro W. rewrite trimEnd_cons, W. destruct (trimEnd r); eauto.
Qed.

Lemma trimStart_shape (s : string) :
  trimStart s = "" \/ exists c r, trimStart s = String c r /\ is_ws c = false.
Proof.
  induction s as [|c r IH]; [now left|].
  simpl. destruct (is_ws c) eqn:W; [exact IH|]. right. eauto.
Qed.

(** A non-empty text without trailing white space has a visible
    character, which [collapse] keeps. *)
Lemma collapse_nonempty (r : string) :
  trimEnd r = r -> r <> "" -> forall b, collapse b r <> "".
Proof.
  induction r as [|c r IH]; [congruence|].
  intros T _ b. simpl. destruct (is_ws c) eqn:W; [|discriminate].
  rewrite trimEnd_cons, W in T.
  destruct (trimEnd r) as [|a r'] eqn:E; [discriminate|].
  injection T as T.
  assert (N : collapse true r <> "").
  { apply IH; [exact T|]. rewrite <- T. discriminate. }
  destruct b; [exact N|discriminate].
Qed.

Lemma trimEnd_collapse (y : string) :
  trimEnd y = y -> forall b, trimEnd (collapse b y) = collapse b y.
Proof.
  induction y as [|c r IH]; [reflexivity|].
  intros T b. rewrite trimEnd_cons in T.
  destruct (trimEnd r) as [|a r'] eqn:E.
  - destruct (is_ws c) eqn:W; [discriminate|]. injection T as <-.
    cbn [collapse]. rewrite W. cbn [trimEnd collapse]. now rewrite W.
  - injection T as T.
    assert (Tr : trimEnd r = r) by (now rewrite E).
    assert (Nr : r <> "") by (rewrite <- T; discriminate).
    pose proof (IH T) as K.
    assert (step : forall x z, trimEnd z = z -> z <> "" -> trimEnd (String x z) = String x z).
    { intros x z Hz Nz. rewrite trimEnd_cons, Hz. destruct z; congruence. }
    simpl. destruct (is_ws c).
    + destruct b; [apply K|].
      apply step; [apply K|now apply collapse_nonempty].
    + apply step; [apply K|now apply collapse_nonempty].
Qed.

Lemma collapse_idem (s : string) :
  (forall b, collapse false (collapse b s) = collapse b s) /\
  collapse true (collapse true s) = collapse true s.
Proof.
  induction s as [|c r [IH1 IH2]]; [split; [intros []|]; reflexivity|].
  assert (V : is_ws " " = true) by reflexivity.
  split; [intros b|]; simpl; destruct (is_ws c) eqn:W.
  - destruct b; [apply IH1|]. simpl. now rewrite IH2.
  - simpl. rewrite W. now rewrite IH1.
  - exact IH2.
  - simpl. rewrite W. now rewrite IH1.
Qed.

Lemma trim_norm (o : option string) : trim (norm o) = norm o.
Proof.
  rewrite norm_lower_first. set (u := toLowerCase (orElse o "")).
  unfold trim at 2.
  assert (Te : trimEnd (trimEnd (trimStart u)) = trimEnd (trimStart u)) by apply trimEnd_idem.
  unfold trim at 1.
  assert (Ts : trimStart (collapse false (trimEnd (trimStart u)))
               = collapse false (trimEnd (trimStart u))).
  { destruct (trimStart_shape u) as [->|[c [r [-> W]]]]; [reflexivity|].
    destruct (trimEnd_first c r W) as [r' ->]. simpl. rewrite W. simpl. now rewrite W. }
  rewrite Ts. now apply trimEnd_collapse.
Qed.

(** X4 (norm): [norm] is idempotent: its result is already trimmed,
    lower-case and free of runs of white space, so that normalising a
    normalised text changes nothing. *)
Theorem X4_norm_is_idempotent (o : option string) :
  norm (Some (norm o)) = norm o /\
  trim (norm o) = norm o /\ toLowerCase (norm o) = norm o /\
  collapse false (norm o) = norm o.
Proof.
  assert (C : collapse false (norm o) = norm o).
  { unfold norm. apply (proj1 (collapse_idem _)). }
  split; [|split; [apply trim_norm|split; [apply toLowerCase_norm|exact C]]].
  unfold norm at 1.
  assert (E : orElse (Some (norm o)) "" = norm o).
  { unfold orElse. destruct (norm o); reflexivity. }
  rewrite E, trim_norm, toLowerCase_norm. exact C.
Qed.

(** ** Pagination *)

Lemma rowsOf_app (a b : list (MatchSource.Page (list Match))) :
  rowsOf (a ++ b) = rowsOf a ++ rowsOf b.
Proof. unfold rowsOf. now rewrite map_app, concat_app. Qed.

(** Pages that ask for more are accumulated one after the other. *)
Lemma fetchPaginatedFrom_more
      (upstream : MatchSource.Endpoint -> Z -> MatchSource.Response (list Match))
      (ep : MatchSource.Endpoint) (js : list (MatchSource.Page (list Match))) :
  forall (b fuel : nat) (acc : list Match),
    (forall i j, js !! i = Some j ->
                 pageIs upstream ep (b + i) j /\ MatchSource.p_status j = Some "success" /\
                 25 * (Z.of_nat (b + i) + 1) < default 0 (MatchSource.p_totalRows j)) ->
    (length js <= fuel)%nat ->
    MatchSource.fetchPaginatedFrom upstream fuel ep acc (25 * Z.of_nat b)
    = MatchSource.fetchPaginatedFrom upstream (fuel - length js) ep (acc ++ rowsOf js)
        (25 * Z.of_nat (b + length js)).
Proof.
  induction js as [|j js IH]; intros b fuel acc H Hfuel.
  - cbn [length]. rewrite Nat.sub_0_r, Nat.add_0_r. unfold rowsOf. cbn [map List.concat].
    now rewrite app_nil_r.
  - destruct fuel as [|f]; [simpl in Hfuel; lia|].
    destruct (H 0%nat j eq_refl) as [[st P] [S1 T]]. rewrite Nat.add_0_r in P, T.
    cbn [MatchSource.fetchPaginatedFrom]. rewrite P. cbn [MatchSource.fetchJSON].
    rewrite (bool_decide_eq_true_2 _ S1). cbn [negb].
    destruct (Z.geb_spec (25 * Z.of_nat b + 25) (default 0 (MatchSource.p_totalRows j))) as [G|G];
      [lia|].
    replace (25 * Z.of_nat b + 25) with (25 * Z.of_nat (S b)) by lia.
    rewrite IH.
    + cbn [length]. replace (S f - S (length js))%nat with (f - length js)%nat by lia.
      replace (S b + length js)%nat with (b + S (length js))%nat by lia.
      change (j :: js) with ([j] ++ js). rewrite rowsOf_app, app_assoc.
      unfold rowsOf at 2. cbn [map List.concat]. now rewrite app_nil_r.
    + intros i x Hx. replace (S b + i)%nat with (b + S i)%nat by lia. now apply H.
    + simpl in Hfuel. lia.
Qed.

(** X5 (fetchPaginated): when the upstream serves its rows on successive
    pages, each announcing more until the last, [fetchPaginated] returns
    the rows of all pages in order, without an error. *)
Theorem X5_fetchPaginated_collects_all_pages
        (upstream : MatchSource.Endpoint -> Z -> MatchSource.Response (list Match))
        (ep : MatchSource.Endpoint) (js : list (MatchSource.Page (list Match)))
        (jl : MatchSource.Page (list Match)) (fuel : nat) :
  firstPages upstream ep js ->
  pageIs upstream ep (length js) jl ->
  MatchSource.p_status jl = Some "success" ->
  default 0 (MatchSource.p_totalRows jl) <= 25 * (Z.of_nat (length js) + 1) ->
  (length js < fuel)%nat ->
  MatchSource.fetchPaginated upstream fuel ep = Some (inr (rowsOf (js ++ [jl]))).
Proof.
  intros HF [st HL] HS HT Hfuel. unfold MatchSource.fetchPaginated.
  change 0 with (25 * Z.of_nat 0).
  rewrite (fetchPaginatedFrom_more upstream ep js 0 fuel []); [|exact HF|lia].
  destruct (fuel - length js)%nat as [|f] eqn:E; [lia|].
  cbn [MatchSource.fetchPaginatedFrom]. rewrite Nat.add_0_l, HL. cbn [MatchSource.fetchJSON].
  rewrite (bool_decide_eq_true_2 _ HS). cbn [negb app].
  destruct (Z.geb_spec (25 * Z.of_nat (length js) + 25) (default 0 (MatchSource.p_totalRows jl)));
    [|lia].
  rewrite rowsOf_app. unfold rowsOf at 3. cbn [map List.concat]. now rewrite app_nil_r.
Qed.

Lemma X5_witness :
  MatchSource.fetchPaginated pagedUpstream 2 MatchSource.CurrentMatches
  = Some (inr [liveMatch; stumpsDay2]).
Proof.
  apply (X5_fetchPaginated_collects_all_pages pagedUpstream MatchSource.CurrentMatches
           [MatchSource.mkPage (Some "success") (Some [liveMatch]) (Some 30)]
           (MatchSource.mkPage (Some "success") (Some [stumpsDay2]) (Some 30)) 2).
  - intros [|[|i]] j Hj; try discriminate. injection Hj as <-.
    split; [now exists 200|split; [reflexivity|simpl; lia]].
  - now exists 200.
  - reflexivity.
  - simpl. lia.
  - simpl. lia.
Defined.

(** X6 (fetchPaginated): a page whose status is not [success] ends the
    loop without an error: the rows of the earlier pages are returned and
    the rows of that page are not. *)
Theorem X6_fetchPaginated_stops_at_unsuccessful_page
        (upstream : MatchSource.Endpoint -> Z -> MatchSource.Response (list Match))
        (ep : MatchSource.Endpoint) (js : list (MatchSource.Page (list Match)))
        (jl : MatchSource.Page (list Match)) (fuel : nat) :
  firstPages upstream ep js ->
  pageIs upstream ep (length js) jl ->
  MatchSource.p_status jl <> Some "success" ->
  (length js < fuel)%nat ->
  MatchSource.fetchPaginated upstream fuel ep = Some (inr (rowsOf js)).
Proof.
  intros HF [st HL] HS Hfuel. unfold MatchSource.fetchPaginated.
  change 0 with (25 * Z.of_nat 0).
  rewrite (fetchPaginatedFrom_more upstream ep js 0 fuel []); [|exact HF|lia].
  destruct (fuel - length js)%nat as [|f] eqn:E; [lia|].
  cbn [MatchSource.fetchPaginatedFrom]. rewrite Nat.add_0_l, HL. cbn [MatchSource.fetchJSON].
  rewrite (bool_decide_eq_false_2 _ HS). reflexivity.
Qed.

Lemma X6_witness :
  MatchSource.fetchPaginated quotaUpstream 2 MatchSource.Matches = Some (inr [liveMatch]).
Proof.
  apply (X6_fetchPaginated_stops_at_unsuccessful_page quotaUpstream MatchSource.Matches
           [MatchSource.mkPage (Some "success") (Some [liveMatch]) (Some 30)]
           (MatchSource.mkPage (Some "failure") (Some [stumpsDay2]) (Some 30)) 2).
  - intros [|[|i]] j Hj; try discriminate. injection Hj as <-.
    split; [now exists 200|split; [reflexivity|simpl; lia]].
  - now exists 200.
  - discriminate.
  - simpl. lia.
Defined.

Lemma fetchPaginatedFrom_ends
      (upstream : MatchSource.Endpoint -> Z -> MatchSource.Response (list Match))
      (ep : MatchSource.Endpoint) (n : Z) :
  totalsWithin upstream ep n ->
  forall (fuel i : nat) (acc : list Match),
    (0 < fuel)%nat -> n <= 25 * Z.of_nat (i + fuel) ->
    exists r, MatchSource.fetchPaginatedFrom upstream fuel ep acc (25 * Z.of_nat i) = Some r.
Proof.
  intros HT. induction fuel as [|f IH]; intros i acc Hpos Hn; [lia|].
  cbn [MatchSource.fetchPaginatedFrom].
  destruct (upstream ep (25 * Z.of_nat i)) as [|ok st body] eqn:U; [simpl; eauto|].
  destruct ok; [|simpl; eauto].
  destruct body as [| |j]; [simpl; eauto..|].
  cbn [MatchSource.fetchJSON].
  destruct (negb (bool_decide (MatchSource.p_status j = Some "success"))); [eauto|].
  destruct (Z.geb_spec (25 * Z.of_nat i + 25) (default 0 (MatchSource.p_totalRows j)))
    as [G|G]; [eauto|].
  pose proof (HT _ _ _ U) as B.
  replace (25 * Z.of_nat i + 25) with (25 * Z.of_nat (S i)) by lia.
  apply IH; lia.
Qed.

(** X7 (fetchPaginated): if no page announces more than [n] rows, the loop
    ends after at most [n/25] requests (one at least), with a list or an
    error, whatever else the upstream answers. *)
Theorem X7_fetchPaginated_ends_when_totals_are_bounded
        (upstream : MatchSource.Endpoint -> Z -> MatchSource.Response (list Match))
        (ep : MatchSource.Endpoint) (n : Z) (fuel : nat) :
  totalsWithin upstream ep n ->
  (0 < fuel)%nat -> n <= 25 * Z.of_nat fuel ->
  exists r, MatchSource.fetchPaginated upstream fuel ep = Some r.
Proof.
  intros HT Hpos Hn. unfold MatchSource.fetchPaginated.
  change 0 with (25 * Z.of_nat 0).
  apply (fetchPaginatedFrom_ends upstream ep n HT); [exact Hpos|].
  now rewrite Nat.add_0_l.
Qed.

Lemma X7_witness :
  exists r, MatchSource.fetchPaginated pagedUpstream 2 MatchSource.Matches = Some r.
Proof.
  apply (X7_fetchPaginated_ends_when_totals_are_bounded pagedUpstream MatchSource.Matches 30 2).
  - intros offset st j. unfold pagedUpstream.
    destruct (offset =? 0); [|destruct (offset =? 25)]; intro H; try discriminate;
      injection H as _ <-; simpl; lia.
  - lia.
  - lia.
Defined.

(** X8 (fetchPaginated): the loop has no bound of its own on the number of
    pages: against an upstream that announces, on every page, rows beyond
    that page, it never returns. *)
Theorem X8_fetchPaginated_runs_on_while_more_is_announced
        (upstream : MatchSource.Endpoint -> Z -> MatchSource.Response (list Match))
        (ep : MatchSource.Endpoint) :
  (forall i : nat, MatchSource.hasMore upstream ep (25 * Z.of_nat i)) ->
  forall fuel, MatchSource.fetchPaginated upstream fuel ep = None.
Proof.
  intros H fuel. unfold MatchSource.fetchPaginated.
  change 0 with (25 * Z.of_nat 0). generalize 0%nat as i. generalize (@nil Match) as acc.
  induction fuel as [|f IH]; intros acc i; [reflexivity|].
  cbn [MatchSource.fetchPaginatedFrom].
  destruct (H i) as [st [j [U [S1 T]]]]. rewrite U. cbn [MatchSource.fetchJSON].
  rewrite (bool_decide_eq_true_2 _ S1). cbn [negb].
  destruct (Z.geb_spec (25 * Z.of_nat i + 25) (default 0 (MatchSource.p_totalRows j)));
    [lia|].
  replace (25 * Z.of_nat i + 25) with (25 * Z.of_nat (S i)) by lia.
  apply IH.
Qed.

Lemma X8_witness :
  MatchSource.fetchPaginated endlessUpstream 1000 MatchSource.CurrentMatches = None.
Proof.
  apply X8_fetchPaginated_runs_on_while_more_is_announced.
  intro i. exists 200. eexists. split; [reflexivity|]. split; [reflexivity|]. simpl. lia.
Defined.

(** ** Command handlers *)

Lemma filter_all {A} (f : A -> bool) (l : list A) :
  (forall x, In x l -> f x = true) -> List.filter f l = l.
Proof.
  induction l as [|a l IH]; intros H; [reflexivity|].
  simpl. rewrite (H a (or_introl eq_refl)). f_equal. apply IH. intros x Hx. apply H. now right.
Qed.

Lemma setDelete_absent (mid : string) (sel : list string) :
  ~ In mid sel -> setDelete mid sel = sel.
Proof.
  intros H. apply filter_all. intros x Hx.
  destruct (String.eqb_spec mid x) as [->|]; [contradiction|reflexivity].
Qed.

Lemma setDelete_snoc (mid : string) (sel : list string) :
  ~ In mid sel -> setDelete mid (sel ++ [mid]) = sel.
Proof.
  intros H. unfold setDelete. rewrite List.filter_app. fold (setDelete mid sel).
  rewrite setDelete_absent by exact H. simpl. rewrite String.eqb_refl. simpl.
  apply app_nil_r.
Qed.

Lemma setOf_NoDup (l : list string) : List.NoDup (setOf l).
Proof.
  induction l as [|x r IH]; simpl; constructor.
  - rewrite filter_In. intros [_ H]. now rewrite String.eqb_refl in H.
  - now apply List.NoDup_filter.
Qed.

Lemma setOf_fixed (l : list string) : List.NoDup l -> setOf l = l.
Proof.
  induction 1 as [|x r Hx Hr IH]; [reflexivity|].
  simpl. rewrite IH. f_equal. now apply setDelete_absent.
Qed.

Lemma setAdd_In (x y : string) (sel : list string) :
  In y (setAdd x sel) <-> y = x \/ In y sel.
Proof.
  unfold setAdd. destruct (arrIncludes sel x) eqn:E.
  - apply arrIncludes_true in E. split; [now right|]. intros [->|H]; assumption.
  - rewrite in_app_iff. simpl. intuition.
Qed.

Lemma setAdd_NoDup (x : string) (sel : list string) :
  List.NoDup sel -> List.NoDup (setAdd x sel).
Proof.
  intros H. unfold setAdd. destruct (arrIncludes sel x) eqn:E; [exact H|].
  assert (N : ~ In x sel).
  { intro K. apply arrIncludes_true in K. congruence. }
  apply List.NoDup_app; [exact H|repeat constructor; simpl; tauto|].
  intros y Hy [<-|[]]. contradiction.
Qed.

Lemma setDelete_NoDup (x : string) (sel : list string) :
  List.NoDup sel -> List.NoDup (setDelete x sel).
Proof. apply List.NoDup_filter. Qed.

Lemma selectedOf_add (x : string) (cfg : Cfg) :
  selectedOf (cricketSelect "add" x cfg) = setAdd (trim x) (selectedOf cfg).
Proof.
  unfold cricketSelect, selectedOf. simpl.
  apply setOf_fixed. apply setAdd_NoDup, setOf_NoDup.
Qed.

Lemma selectedOf_remove (action x : string) (cfg : Cfg) :
  String.eqb action "add" = false ->
  selectedOf (cricketSelect action x cfg) = setDelete (trim x) (selectedOf cfg).
Proof.
  intros H. unfold cricketSelect, selectedOf. rewrite H. simpl.
  apply setOf_fixed. apply setDelete_NoDup, setOf_NoDup.
Qed.



(** X10 (cricket-select): adding an identity keeps the selection a set:
    the identities already selected stay, in their order, the trimmed
    identity is a member, and nothing is duplicated; in custom mode the
    tenant then passes the guard of the live-tracking block and not that of
    the fallback block. *)
Theorem X10_select_add_keeps_a_set (match_id : string) (cfg : Cfg) :
  let cfg' := cricketSelect "add" match_id cfg in
  selected_match_ids cfg' = Some (selectedOf cfg') /\
  List.NoDup (selectedOf cfg') /\
  (forall y, In y (selectedOf cfg') <-> y = trim match_id \/ In y (selectedOf cfg)) /\
  (exists tail, selectedOf cfg' = selectedOf cfg ++ tail) /\
  (modeOf cfg = "custom" -> guardA cfg' = true /\ guardB cfg' = false).
Proof.
  intros cfg'. subst cfg'. rewrite selectedOf_add.
  split; [reflexivity|]. split; [apply setAdd_NoDup, setOf_NoDup|].
  split; [intro y; apply setAdd_In|]. split.
  - unfold setAdd. destruct (arrIncludes _ _); [exists []; now rewrite app_nil_r|eauto].
  - intros Hm.
    assert (Hm' : modeOf (cricketSelect "add" match_id cfg) = "custom") by exact Hm.
    destruct (guards_custom _ Hm') as [_ [-> ->]]. rewrite selectedOf_add.
    assert (L : (length (setAdd (trim match_id) (selectedOf cfg)) =? 0)%nat = false).
    { assert (I0 : In (trim match_id) (setAdd (trim match_id) (selectedOf cfg)))
        by (apply setAdd_In; now left).
      destruct (setAdd _ _); [destruct I0|reflexivity]. }
    now rewrite L.
Qed.

(** X11 (cricket-select): removing an identity that was just added gives
    back the selection as it was, when the identity was not selected
    before. *)
Theorem X11_select_add_then_remove (action match_id : string) (cfg : Cfg) :
  String.eqb action "add" = false ->
  ~ In (trim match_id) (selectedOf cfg) ->
  selectedOf (cricketSelect action match_id (cricketSelect "add" match_id cfg))
  = selectedOf cfg.
Proof.
  intros Ha Hn. rewrite selectedOf_remove by exact Ha. rewrite selectedOf_add.
  unfold setAdd.
  destruct (arrIncludes (selectedOf cfg) (trim match_id)) eqn:E.
  - apply arrIncludes_true in E. contradiction.
  - now apply setDelete_snoc.
Qed.

Lemma X11_witness :
  selectedOf (cricketSelect "remove" "m2" (cricketSelect "add" "m2" (customTenant ["m1"])))
  = selectedOf (customTenant ["m1"]).
Proof.
  apply X11_select_add_then_remove; [reflexivity|].
  simpl. intros [H|[]]. discriminate H.
Defined.

(** X12 (cricket-filters): the command either answers that no category is
    valid, which happens exactly when no comma-separated piece of its
    argument normalises to a known category, or stores a non-empty list
    made of exactly the known categories named by the pieces, whatever
    their case and the blanks around them; nothing else of the
    configuration changes. *)
Theorem X12_cricket_filters_stores_known_categories (categories : string) (cfg : Cfg) :
  match cricketFilters categories cfg with
  | None =>
      forall piece, In piece (splitOn "," categories) ->
                    ~ In (norm (Some piece)) ALL_CATEGORIES
  | Some cfg' =>
      exists chosen,
        chosen <> [] /\ cfg' = set_filters (Some chosen) cfg /\
        forall c, In c chosen <->
                  In c ALL_CATEGORIES /\
                  exists piece, In piece (splitOn "," categories) /\ norm (Some piece) = c
  end.
Proof.
  unfold cricketFilters.
  set (chosen := List.filter (arrIncludes ALL_CATEGORIES)
                   (map (fun s => norm (Some s)) (splitOn "," categories))).
  assert (M : forall c, In c chosen <->
                        In c ALL_CATEGORIES /\
                        exists piece, In piece (splitOn "," categories) /\ norm (Some piece) = c).
  { intro c. unfold chosen. rewrite filter_In, in_map_iff, arrIncludes_true.
    split.
    - intros [[p [E I0]] K]. split; [exact K|]. exists p. now split.
    - intros [K [p [I0 E]]]. split; [|exact K]. exists p. now split. }
  destruct chosen as [|c0 rest] eqn:E.
  - intros piece Hp Hin. apply (proj2 (M (norm (Some piece)))). split; [exact Hin|eauto].
  - exists (c0 :: rest). split; [discriminate|]. split; [reflexivity|exact M].
Qed.

(** ** The clock of the daily keys *)







Lemma getProp_put_same {V} (k : string) (v : V) (obj : JsObj.t V) :
  getProp k (JsObj.put k v obj) = Some v.
Proof.
  induction obj as [|[k' v'] rest IH]; simpl.
  - now rewrite String.eqb_refl.
  - destruct (String.eqb k k') eqn:E; simpl; rewrite E; [reflexivity|exact IH].
Qed.

Lemma getProp_put_other {V} (k k0 : string) (v : V) (obj : JsObj.t V) :
  k <> k0 -> getProp k (JsObj.put k0 v obj) = getProp k obj.
Proof.
  intros N. induction obj as [|[k' v'] rest IH]; simpl.
  - destruct (String.eqb_spec k k0); [contradiction|reflexivity].
  - destruct (String.eqb_spec k0 k') as [->|N2]; simpl.
    + destruct (String.eqb_spec k k'); [contradiction|reflexivity].
    + destruct (String.eqb k k'); [reflexivity|exact IH].
Qed.

(** X14 (ensureGuild): a tenant that has a record keeps it unchanged, a
    tenant that has none gets the default record for the channel of the
    command; the records of the other tenants are not touched, and a second
    call, from any channel, changes nothing. *)
Theorem X14_ensureGuild_creates_once (env : Env) (g channelId : string) (d : JsObj.t Cfg) :
  getProp g (ensureGuild env g channelId d)
  = Some (default (defaultCfg env channelId) (getProp g d)) /\
  (forall g', g' <> g -> getProp g' (ensureGuild env g channelId d) = getProp g' d) /\
  (forall channelId',
      ensureGuild env g channelId' (ensureGuild env g channelId d)
      = ensureGuild env g channelId d).
Proof.
  unfold ensureGuild. destruct (getProp g d) as [c|] eqn:E.
  - cbn iota. split; [exact E|]. split; [reflexivity|]. intros ch'. now rewrite E.
  - split; [apply getProp_put_same|]. split.
    + intros g' N. now apply getProp_put_other.
    + intros ch'. now rewrite getProp_put_same.
Qed.

Lemma guessGender_cases (m : Match) : guessGender m = "men" \/ guessGender m = "women".
Proof.
  unfold guessGender.
  repeat match goal with
         | |- context [if ?b then _ else _] => destruct b
         end; tauto.
Qed.

(** X15 (cricket-gender, genderAllowed): after [/cricket-gender both]
    every match passes the gender filter, as it does when the tenant has no
    gender filter at all; after [men] and after [women] the filter accepts
    complementary sets of matches. *)
Theorem X15_gender_filter_partitions (m : Match) (cfg : Cfg) :
  genderAllowed m (gender_filters (cricketGender "both" cfg)) = true /\
  genderAllowed m None = true /\
  genderAllowed m (gender_filters (cricketGender "men" cfg))
  = negb (genderAllowed m (gender_filters (cricketGender "women" cfg))).
Proof.
  unfold genderAllowed, cricketGender. simpl.
  destruct (guessGender_cases m) as [-> | ->]; repeat split; reflexivity.
Qed.

(** ** Daily summary and its batches *)

Lemma dailyRelevant_true (w : World) (cfg : Cfg) (m : Match) :
  dailyRelevant w (default ALL_CATEGORIES (filters cfg))
                (default ["men"; "women"] (gender_filters cfg))
                (default [] (team_filters cfg)) m = true <->
  passesFilters cfg m = true /\ isTodayOrLive w m = true.
Proof.
  unfold dailyRelevant, passesFilters. rewrite !andb_true_iff. tauto.
Qed.

Lemma summaryPosts_are_summaries (ch : string) (pingStr : option string) (ms : list Match)
      (cp : string * Post) :
  In cp (summaryPosts ch pingStr ms) -> exists c sl, cp = (ch, PSummary c sl).
Proof.
  unfold summaryPosts. destruct (slices ms) as [|first rest]; [intros []|].
  intros [<-|H]; [eauto|]. apply in_map_iff in H as (sl & <- & _). eauto.
Qed.

(** X16 (tick, daily mode): when the daily summary is due and its messages
    are delivered, they embed exactly the matches that pass the tenant's
    category, gender and team filters and are scheduled today or live, one
    record per identity taken from the day's list and the current list;
    the notice that there is nothing to summarise is sent exactly when no
    match is embedded. *)
Theorem X16_daily_summary_embeds_exactly
        (env : Env) (w : World) (whole : Cfg -> Data) (s : St) (ch : string) (T : Z) :
  Serviced w (st_cfg s) ch ->
  Delivers w ch ->
  modeOf (st_cfg s) = "daily" ->
  next_summary (st_cfg s) = Some T ->
  T <> 0 ->
  T * 1000 <= now w ->
  exists delta,
    st_posts (tickGuild env w whole s) = st_posts s ++ delta /\
    (forall m,
        embedded m delta <->
        lastOfId (getTodayMatchesSafe w ++ getCurrentMatchesSafe w) m /\
        passesFilters (st_cfg s) m = true /\ isTodayOrLive w m = true) /\
    (In (ch, PDailyNone) delta <-> forall m, ~ embedded m delta).
Proof.
  intros Hserv Hdel Hmode Hkey Hnz Hdue.
  set (relevant := dailyRelevant w (default ALL_CATEGORIES (filters (st_cfg s)))
                     (default ["men"; "women"] (gender_filters (st_cfg s)))
                     (default [] (team_filters (st_cfg s)))).
  set (ms := List.filter relevant (mergedMatches w)).
  exists (match ms with
          | [] => [(ch, PDailyNone)]
          | _ => summaryPosts ch (mentionText (st_cfg s)) ms
          end ++ tomorrowPosts env w ch (st_cfg s)).
  assert (E : forall m,
             embedded m (match ms with
                         | [] => [(ch, PDailyNone)]
                         | _ => summaryPosts ch (mentionText (st_cfg s)) ms
                         end ++ tomorrowPosts env w ch (st_cfg s)) <-> In m ms).
  { intros m. rewrite embedded_app.
    rewrite (embedded_summary_or_none ch (mentionText (st_cfg s)) PDailyNone ms m)
      by (try reflexivity; discriminate).
    pose proof (embedded_tomorrowPosts env w ch (st_cfg s) m). tauto. }
  split; [|split].
  - rewrite (tickGuild_serviced env w whole s ch Hserv).
    rewrite tenantFrom_daily by exact Hmode.
    unfold branchC. rewrite branch_delivered by exact Hdel. simpl.
    rewrite (dailyDelivered_due _ _ _ _ _ _ _ _ _ _ _ T) by (simpl; trivial).
    reflexivity.
  - intros m. rewrite E. unfold ms, relevant.
    rewrite filter_In, mergedMatches_In, dailyRelevant_true. tauto.
  - split.
    + intros Hin m. rewrite E. destruct ms as [|m0 ms0]; [tauto|].
      exfalso. apply in_app_iff in Hin as [Hin|Hin].
      * apply summaryPosts_are_summaries in Hin as (c & sl & [=]).
      * unfold tomorrowPosts in Hin. apply in_map_iff in Hin as (x & [=] & _).
    + intros Hno. destruct ms as [|m0 ms0]; [now left|].
      exfalso. apply (Hno m0). apply E. now left.
Qed.

Lemma X16_witness :
  exists delta,
    st_posts (tickGuild sampleEnv (sampleWorld 1735765200000 [liveMatch]) sampleWhole
                        (startOf (dailyTenant 1735765200)))
    = st_posts (startOf (dailyTenant 1735765200)) ++ delta /\
    (forall m,
        embedded m delta <->
        lastOfId (getTodayMatchesSafe (sampleWorld 1735765200000 [liveMatch])
                  ++ getCurrentMatchesSafe (sampleWorld 1735765200000 [liveMatch])) m /\
        passesFilters (dailyTenant 1735765200) m = true /\
        isTodayOrLive (sampleWorld 1735765200000 [liveMatch]) m = true) /\
    (In ("chan", PDailyNone) delta <-> forall m, ~ embedded m delta).
Proof.
  apply (X16_daily_summary_embeds_exactly sampleEnv (sampleWorld 1735765200000 [liveMatch])
           sampleWhole (startOf (dailyTenant 1735765200)) "chan" 1735765200).
  - repeat split.
  - split; [intro p|]; reflexivity.
  - reflexivity.
  - reflexivity.
  - discriminate.
  - simpl. lia.
Defined.

Lemma slicesFrom_sizes (fuel : nat) (l : list Match) :
  Forall (fun sl => (1 <= length sl <= 8)%nat) (slicesFrom fuel l).
Proof.
  revert l. induction fuel as [|f IH]; intros [|x l]; cbn [slicesFrom]; try constructor.
  - rewrite List.length_firstn. cbn [length]. lia.
  - apply IH.
Qed.

(** X17 (tick, summary messages): when every message is delivered, the
    matches of a summary go out in messages that embed between one and
    eight of them, in order, each match once; the role mentions are the
    content of the first message only. *)
Theorem X17_summary_goes_out_in_batches_of_eight
        (w : World) (ch : string) (pingStr : option string) (matches : list Match) (s : St) :
  Delivers w ch ->
  exists batches,
    st_posts (snd (sendSlices w ch pingStr matches s))
    = st_posts s ++ map (fun cb => (ch, PSummary (fst cb) (snd cb))) batches /\
    fst (sendSlices w ch pingStr matches s) = inr tt /\
    List.concat (map snd batches) = matches /\
    (forall cb, In cb batches -> (1 <= length (snd cb) <= 8)%nat) /\
    (forall i cb, batches !! i = Some cb ->
                  fst cb = match i with O => pingStr | S _ => None end).
Proof.
  intros Hdel.
  rewrite (sendSlices_delivered w ch Hdel).
  unfold summaryPosts.
  pose proof (slicesFrom_concat (length matches) matches (le_n _)) as C.
  pose proof (slicesFrom_sizes (length matches) matches) as Z.
  fold (slices matches) in C, Z.
  destruct (slices matches) as [|first rest].
  - exists []. simpl. rewrite app_nil_r.
    split; [reflexivity|]. split; [reflexivity|]. split; [exact C|].
    split; [intros cb []|intros i cb H; destruct i; discriminate H].
  - exists ((pingStr, first) :: map (fun sl => (None, sl)) rest).
    split; [|split; [reflexivity|split; [|split]]].
    + simpl. do 2 f_equal. rewrite map_map. reflexivity.
    + simpl. rewrite map_map. simpl. rewrite map_id. exact C.
    + intros cb [<-|H].
      * simpl. now inversion Z.
      * apply in_map_iff in H as (sl & <- & Hsl). simpl.
        inversion Z as [|? ? _ Zr]; subst.
        exact (proj1 (List.Forall_forall _ _) Zr sl Hsl).
    + intros [|i] cb H; simpl in H.
      * now injection H as <-.
      * rewrite list_lookup_fmap in H. destruct (rest !! i); simpl in H; [|discriminate].
        now injection H as <-.
Qed.

Lemma X17_witness :
  exists batches,
    st_posts (snd (sendSlices (sampleWorld 0 []) "chan" (Some "<@&1>")
                              [liveMatch; stumpsDay2] (startOf (dailyTenant 1))))
    = [] ++ map (fun cb => ("chan", PSummary (fst cb) (snd cb))) batches /\
    fst (sendSlices (sampleWorld 0 []) "chan" (Some "<@&1>")
                    [liveMatch; stumpsDay2] (startOf (dailyTenant 1))) = inr tt /\
    List.concat (map snd batches) = [liveMatch; stumpsDay2] /\
    (forall cb, In cb batches -> (1 <= length (snd cb) <= 8)%nat) /\
    (forall i cb, batches !! i = Some cb ->
                  fst cb = match i with O => Some "<@&1>" | S _ => None end).
Proof.
  apply (X17_summary_goes_out_in_batches_of_eight (sampleWorld 0 []) "chan" (Some "<@&1>")
           [liveMatch; stumpsDay2] (startOf (dailyTenant 1))).
  split; [intro p|]; reflexivity.
Defined.

(** ** The next due time of the live-tracking block *)

Section Backoff.

Variable env : Env.
Variable w : World.
Variable whole : Cfg -> Data.
Variable ch : string.
Variable pingStr : option string.
Variables filters genders teams : list string.

Local Abbreviation bstep := (trackDelivered env w whole ch pingStr filters genders teams).
Local Abbreviation bloop := (trackAll env w whole ch pingStr filters genders teams).

(** The flag [anyLive] after one record. *)
Lemma step_anyLive (m : Match) (sel : list string) (anyLive : bool) (s : St) :
  snd (fst (bstep m ((sel, anyLive), s)))
  = anyLive || (arrIncludes sel (matchIdOf m) && passes filters genders teams m
                && negb (isFinishedOrStumps m) && relevantLive m).
Proof.
  unfold trackDelivered, passes, isFinishedOrStumps.
  destruct (arrIncludes sel (matchIdOf m));
    destruct (categoryAllowed m (Some filters));
    destruct (genderAllowed m (Some genders));
    destruct (teamAllowed m (Some teams)); cbn [andb fst snd];
    try (now rewrite orb_false_r).
  destruct (testAnyI FINISHED_RE (orElse (m_status m) "")); cbn [negb andb fst snd];
    [now rewrite orb_false_r|].
  destruct (relevantLive m); [destruct (_ >=? _)|]; cbn [fst snd];
    now rewrite ?orb_true_r, ?orb_false_r.
Qed.

Lemma step_sel_incl (m : Match) (sel : list string) (anyLive : bool) (s : St) (x : string) :
  In x (fst (fst (bstep m ((sel, anyLive), s)))) -> In x sel.
Proof.
  destruct (step_cases env w whole ch pingStr filters genders teams m sel anyLive s)
    as [(-> & _)|(_ & _ & _ & -> & _)]; [trivial|].
  rewrite setDelete_In. tauto.
Qed.

Lemma loop_anyLive_quiet (ms : list Match) :
  forall (sel : list string) (anyLive : bool) (s : St),
    (forall m, In m ms ->
               ~ (In (matchIdOf m) sel /\ passes filters genders teams m = true /\
                  isFinishedOrStumps m = false /\ relevantLive m = true)) ->
    snd (fst (bloop ms ((sel, anyLive), s))) = anyLive.
Proof.
  induction ms as [|m ms IH]; intros sel anyLive s H; [reflexivity|].
  rewrite loop_cons.
  pose proof (step_anyLive m sel anyLive s) as Ha.
  pose proof (step_sel_incl m sel anyLive s) as Hs.
  destruct (bstep m ((sel, anyLive), s)) as [[sel1 any1] s1]. cbn [fst snd] in Ha, Hs.
  rewrite IH.
  - rewrite Ha.
    destruct (arrIncludes sel (matchIdOf m)) eqn:E1; [|now rewrite orb_false_r].
    destruct (passes filters genders teams m) eqn:E2; [|now rewrite orb_false_r].
    destruct (isFinishedOrStumps m) eqn:E3; [now rewrite orb_false_r|].
    destruct (relevantLive m) eqn:E4; [|now rewrite orb_false_r].
    exfalso. apply (H m (or_introl eq_refl)). apply arrIncludes_true in E1. tauto.
  - intros m' Hm' (Hin & Hrest). apply (H m' (or_intror Hm')). split; [now apply Hs|exact Hrest].
Qed.

Lemma loop_anyLive_stays (ms : list Match) :
  forall (sel : list string) (s : St), snd (fst (bloop ms ((sel, true), s))) = true.
Proof.
  induction ms as [|m ms IH]; intros sel s; [reflexivity|].
  rewrite loop_cons.
  pose proof (step_anyLive m sel true s) as Ha.
  destruct (bstep m ((sel, true), s)) as [[sel1 any1] s1]. cbn [fst snd orb] in Ha.
  subst any1. apply IH.
Qed.

Lemma loop_anyLive_live (feed : list Match) (m : Match) (sel : list string)
      (anyLive : bool) (s : St) :
  In m feed -> In (matchIdOf m) sel ->
  (forall m', In m' feed -> matchIdOf m' = matchIdOf m -> isFinishedOrStumps m' = false) ->
  passes filters genders teams m = true ->
  relevantLive m = true ->
  snd (fst (bloop feed ((sel, anyLive), s))) = true.
Proof.
  intros Hfeed Hsel Hnofin Hpass Hlive.
  destruct (in_split _ _ Hfeed) as (l1 & l2 & ->).
  rewrite loop_app, loop_cons.
  pose proof (loop_keeps env w whole ch pingStr filters genders teams l1 (matchIdOf m)
                         (fun m' Hm' => Hnofin m' (in_or_app _ _ _ (or_introl Hm')))
                         sel anyLive s Hsel) as Hsel1.
  destruct (bloop l1 ((sel, anyLive), s)) as [[sel1 any1] s1]. cbn [fst snd] in Hsel1.
  pose proof (step_anyLive m sel1 any1 s1) as Ha.
  apply arrIncludes_true in Hsel1.
  rewrite Hsel1, Hpass, Hlive, (Hnofin m Hfeed eq_refl) in Ha. cbn [negb andb] in Ha.
  rewrite orb_true_r in Ha.
  destruct (bstep m ((sel1, any1), s1)) as [[sel2 any2] s2]. cbn [fst snd] in Ha.
  subst any2. apply loop_anyLive_stays.
Qed.

End Backoff.

Lemma dailyDelivered_fallback_next_due (env : Env) (w : World) (whole : Cfg -> Data)
      (ch : string) (pingStr : option string) (dailyHHMM : string)
      (relevant : Match -> bool) (s : St) :
  next_due (st_cfg (dailyDelivered env w whole ch pingStr dailyHHMM fallback_summary
                                   set_fallback_summary relevant PFallbackNone s))
  = next_due (st_cfg s).
Proof.
  unfold dailyDelivered.
  destruct (fallback_summary (st_cfg s)) as [[|p|p]|]; try reflexivity;
    destruct (now w >=? _); reflexivity.
Qed.

(** X18 (tick, custom mode): when the live-tracking block is due and
    everything is delivered, it sets its next due time to the time of the
    tick plus the idle back-off of 1800 seconds if no record of the feed is
    a selected match that passes the filters, is not finished and is live,
    and to the time of the tick plus the poll interval if some record is
    one and its match has no finished record in the feed. *)
Theorem X18_next_due_backs_off_when_nothing_is_live
        (env : Env) (w : World) (whole : Cfg -> Data) (s : St) (ch : string) :
  Serviced w (st_cfg s) ch ->
  Delivers w ch ->
  modeOf (st_cfg s) = "custom" ->
  selectedOf (st_cfg s) <> [] ->
  default 0 (next_due (st_cfg s)) <= now w ->
  ((forall m, In m (getCurrentMatchesSafe w) ->
              ~ (In (matchIdOf m) (selectedOf (st_cfg s)) /\ passesFilters (st_cfg s) m = true /\
                 isFinishedOrStumps m = false /\ relevantLive m = true)) ->
   next_due (st_cfg (tickGuild env w whole s))
   = Some (now w + IDLE_BACKOFF_SECONDS * 1000)) /\
  (forall m, In m (getCurrentMatchesSafe w) ->
             In (matchIdOf m) (selectedOf (st_cfg s)) -> passesFilters (st_cfg s) m = true ->
             relevantLive m = true ->
             (forall m', In m' (getCurrentMatchesSafe w) -> matchIdOf m' = matchIdOf m ->
                         isFinishedOrStumps m' = false) ->
             next_due (st_cfg (tickGuild env w whole s))
             = Some (now w + POLL_SECONDS env * 1000)).
Proof.
  intros Hserv Hdel Hmode Hsel Hdue.
  assert (Hlen : (length (selectedOf (st_cfg s)) =? 0)%nat = false)
    by (destruct (selectedOf (st_cfg s)); [contradiction | reflexivity]).
  rewrite (tickGuild_serviced env w whole s ch Hserv).
  rewrite (tenantFrom_custom_delivered env w whole ch (st_cfg s) s Hmode Hlen Hdel Hdue).
  cbv zeta.
  set (r := trackAll _ _ _ _ _ _ _ _ _ _).
  assert (Hn : next_due (st_cfg (if (length (fst (fst r)) =? 0)%nat
                                 then dailyDelivered env w whole ch (mentionText (st_cfg s))
                                        (orElse (daily_time (st_cfg s)) (DAILY_SUMMARY_HHMM env))
                                        fallback_summary set_fallback_summary
                                        (fallbackRelevant w
                                           (default ["men"; "women"] (gender_filters (st_cfg s)))
                                           (default [] (team_filters (st_cfg s))))
                                        PFallbackNone (entered BranchB (afterLoop env w whole r))
                                 else afterLoop env w whole r))
               = Some (now w + (if snd (fst r) then POLL_SECONDS env else IDLE_BACKOFF_SECONDS)
                                * 1000)).
  { destruct (length (fst (fst r)) =? 0)%nat; [|reflexivity].
    rewrite dailyDelivered_fallback_next_due. reflexivity. }
  rewrite Hn. split.
  - intros Hquiet. unfold r. rewrite loop_anyLive_quiet; [reflexivity|exact Hquiet].
  - intros m Hfeed Hin Hpass Hlive Hnofin. unfold r.
    rewrite (loop_anyLive_live env w whole ch _ _ _ _ _ m); trivial.
Qed.

Lemma X18_witness :
  next_due (st_cfg (tickGuild sampleEnv (sampleWorld 1735725600000 [liveMatch]) sampleWhole
                              (startOf (customTenant ["m1"]))))
  = Some (1735725600000 + 600 * 1000) /\
  next_due (st_cfg (tickGuild sampleEnv (sampleWorld 1735725600000 [liveMatch]) sampleWhole
                              (startOf (customTenant ["m2"]))))
  = Some (1735725600000 + 1800 * 1000).
Proof.
  split.
  - apply (proj2 (X18_next_due_backs_off_when_nothing_is_live
                    sampleEnv (sampleWorld 1735725600000 [liveMatch]) sampleWhole
                    (startOf (customTenant ["m1"])) "chan"
                    (conj eq_refl (conj eq_refl (conj eq_refl eq_refl)))
                    (conj (fun p => eq_refl) eq_refl) eq_refl
                    ltac:(discriminate) ltac:(simpl; lia)) liveMatch).
    + now left.
    + now left.
    + reflexivity.
    + reflexivity.
    + intros m' [<-|[]] _. reflexivity.
  - apply (proj1 (X18_next_due_backs_off_when_nothing_is_live
                    sampleEnv (sampleWorld 1735725600000 [liveMatch]) sampleWhole
                    (startOf (customTenant ["m2"])) "chan"
                    (conj eq_refl (conj eq_refl (conj eq_refl eq_refl)))
                    (conj (fun p => eq_refl) eq_refl) eq_refl
                    ltac:(discriminate) ltac:(simpl; lia))).
    intros m [<-|[]] (Hin & _). simpl in Hin. destruct Hin as [H|[]]. discriminate H.
Defined.

(** ** A second visit, and visits whose messages are not delivered *)

Lemma slices_cons (x : Match) (l : list Match) :
  exists first rest, slices (x :: l) = first :: rest.
Proof. unfold slices. cbn [length slicesFrom]. eauto. Qed.

Lemma summaryPosts_cons (ch : string) (pingStr : option string) (x : Match) (l : list Match) :
  summaryPosts ch pingStr (x :: l) <> [].
Proof.
  unfold summaryPosts. destruct (slices_cons x l) as (f & r & ->). discriminate.
Qed.

(** The state a due daily-cadence visit leaves in daily mode. *)
Lemma tickGuild_daily_due (env : Env) (w : World) (whole : Cfg -> Data) (s : St)
      (ch : string) (T : Z) :
  Serviced w (st_cfg s) ch -> Delivers w ch -> modeOf (st_cfg s) = "daily" ->
  next_summary (st_cfg s) = Some T -> T <> 0 -> T * 1000 <= now w ->
  tickGuild env w whole s
  = mkSt (set_next_summary (advanceDay T) (st_cfg s)) (st_last s)
         (whole (set_next_summary (advanceDay T) (st_cfg s)))
         (st_posts s
          ++ match List.filter (dailyRelevant w (default ALL_CATEGORIES (filters (st_cfg s)))
                                  (default ["men"; "women"] (gender_filters (st_cfg s)))
                                  (default [] (team_filters (st_cfg s))))
                               (mergedMatches w) with
             | [] => [(ch, PDailyNone)]
             | ms => summaryPosts ch (mentionText (st_cfg s)) ms
             end
          ++ tomorrowPosts env w ch (st_cfg s))
         (st_trace s ++ [BranchC]).
Proof.
  intros Hserv Hdel Hmode Hkey Hnz Hdue.
  rewrite (tickGuild_serviced env w whole s ch Hserv).
  rewrite tenantFrom_daily by exact Hmode.
  unfold branchC. rewrite branch_delivered by exact Hdel. cbn [snd].
  rewrite (dailyDelivered_due _ _ _ _ _ _ _ _ _ _ _ T) by (simpl; trivial).
  cbn [st_cfg st_last st_posts st_trace].
  destruct (List.filter _ _); reflexivity.
Qed.



(** X20 (tick, daily mode): the key moves on by one day per posted
    summary, not to the next time of day after the tick: if the key lies
    more than a day back, the next visit posts the same messages again. *)
Theorem X20_stale_daily_key_repeats_the_summary
        (env : Env) (w : World) (whole : Cfg -> Data) (s : St) (ch : string) (T : Z) :
  Serviced w (st_cfg s) ch ->
  Delivers w ch ->
  modeOf (st_cfg s) = "daily" ->
  next_summary (st_cfg s) = Some T ->
  0 < T ->
  (T + 86400) * 1000 <= now w ->
  now w <= 8640000000000000 ->
  let s1 := tickGuild env w whole s in
  exists delta,
    delta <> [] /\
    st_posts s1 = st_posts s ++ delta /\
    st_posts (tickGuild env w whole s1) = st_posts s1 ++ delta /\
    next_summary (st_cfg (tickGuild env w whole s1)) = Some (T + 2 * 86400).
Proof.
  intros Hserv Hdel Hmode Hkey Hpos Hdue Hrange s1. subst s1.
  rewrite (tickGuild_daily_due env w whole s ch T) by (trivial; lia).
  rewrite advanceDay_in_range by lia.
  set (s1 := mkSt _ _ _ _ _).
  assert (Hserv1 : Serviced w (st_cfg s1) ch) by exact Hserv.
  rewrite (tickGuild_daily_due env w whole s1 ch (T + 86400)) by (trivial; lia).
  rewrite advanceDay_in_range by lia.
  cbn [st_cfg st_posts s1].
  eexists. split; [|split; [reflexivity|split; [reflexivity|]]].
  - destruct (List.filter _ _) as [|x l]; [discriminate|].
    intro H. apply app_eq_nil in H as [H _]. exact (summaryPosts_cons _ _ _ _ H).
  - cbn [next_summary set_next_summary]. f_equal. lia.
Qed.

Lemma X20_witness :
  let s1 := tickGuild sampleEnv (sampleWorld 1735938000000 [liveMatch]) sampleWhole
                      (startOf (dailyTenant 1735765200)) in
  exists delta,
    delta <> [] /\
    st_posts s1 = st_posts (startOf (dailyTenant 1735765200)) ++ delta /\
    st_posts (tickGuild sampleEnv (sampleWorld 1735938000000 [liveMatch]) sampleWhole s1)
    = st_posts s1 ++ delta /\
    next_summary
      (st_cfg (tickGuild sampleEnv (sampleWorld 1735938000000 [liveMatch]) sampleWhole s1))
    = Some (1735765200 + 2 * 86400).
Proof.
  apply (X20_stale_daily_key_repeats_the_summary
           sampleEnv (sampleWorld 1735938000000 [liveMatch]) sampleWhole
           (startOf (dailyTenant 1735765200)) "chan" 1735765200).
  - repeat split.
  - split; [intro p|]; reflexivity.
  - reflexivity.
  - reflexivity.
  - lia.
  - simpl. lia.
  - simpl. lia.
Defined.

Lemma dailyCadence_unsent (env : Env) (w : World) (whole : Cfg -> Data) (ch : string)
      (pingStr : option string) (dailyHHMM : string)
      (get : Cfg -> option Z) (set : option Z -> Cfg -> Cfg)
      (relevant : Match -> bool) (none : Post) (s : St) (T : Z) :
  (forall p, sendOk w ch p = false) ->
  get (st_cfg s) = Some T -> T <> 0 -> T * 1000 <= now w ->
  dailyCadence env w whole ch pingStr dailyHHMM get set relevant none s = (inl SendError, s).
Proof.
  intros Hsend Hget Hnz Hdue.
  assert (Hfirst : forall k : unit -> M unit,
             bind (match List.filter relevant (mergedMatches w) with
                   | [] => send w ch none
                   | _ => sendSlices w ch pingStr (List.filter relevant (mergedMatches w))
                   end) k s = (inl SendError, s)).
  { intros k. unfold bind. destruct (List.filter relevant (mergedMatches w)) as [|x l].
    - unfold send. now rewrite Hsend.
    - unfold sendSlices. destruct (slices_cons x l) as (f & r & ->).
      unfold bind, send. now rewrite Hsend. }
  unfold dailyCadence. unfold bind at 1. unfold getCfg. rewrite Hget.
  destruct T as [|p|p]; [congruence| |].
  - destruct (Z.geb_spec (now w) (Z.pos p * 1000)); [|lia]. apply Hfirst.
  - destruct (Z.geb_spec (now w) (Z.neg p * 1000)); [|lia]. apply Hfirst.
Qed.

Lemma enter_then_fails {A} (b : Branch) (m : M A) (s : St) (e : Exn) :
  m (entered b s) = (inl e, entered b s) -> snd ((enter b ;;; m) s) = entered b s.
Proof.
  intros H. unfold bind. change (enter b s) with (@inr Exn unit tt, entered b s).
  cbn iota. now rewrite H.
Qed.

(** X21 (tick, daily cadence): when the channel accepts no message, a due
    summary leaves the daily key where it was, so that the summary is due
    again at the next tick; the configuration, the file and the throttle
    map are not changed and nothing is recorded as posted. *)
Theorem X21_unsent_summary_stays_due
        (env : Env) (w : World) (whole : Cfg -> Data) (s : St) (ch : string) (T : Z) :
  Serviced w (st_cfg s) ch ->
  (forall p, sendOk w ch p = false) ->
  T <> 0 ->
  T * 1000 <= now w ->
  (modeOf (st_cfg s) = "daily" /\ next_summary (st_cfg s) = Some T) \/
  (modeOf (st_cfg s) = "custom" /\ selectedOf (st_cfg s) = [] /\
   fallback_summary (st_cfg s) = Some T) ->
  st_cfg (tickGuild env w whole s) = st_cfg s /\
  st_posts (tickGuild env w whole s) = st_posts s /\
  st_disk (tickGuild env w whole s) = st_disk s /\
  st_last (tickGuild env w whole s) = st_last s.
Proof.
  intros Hserv Hsend Hnz Hdue Hcase.
  rewrite (tickGuild_serviced env w whole s ch Hserv).
  destruct Hcase as [[Hmode Hkey]|[Hmode [Hsel Hkey]]].
  - rewrite tenantFrom_daily by exact Hmode.
    unfold branchC. rewrite (enter_then_fails _ _ _ SendError); [repeat split|].
    now apply (dailyCadence_unsent env w whole ch _ _ _ _ _ _ _ T).
  - rewrite tenantFrom_fallback by assumption.
    unfold branchB. rewrite (enter_then_fails _ _ _ SendError); [repeat split|].
    now apply (dailyCadence_unsent env w whole ch _ _ _ _ _ _ _ T).
Qed.

Lemma X21_witness :
  st_cfg (tickGuild sampleEnv (mutedWorld 1735765200000 [liveMatch]) sampleWhole
                    (startOf (dailyTenant 1735765200)))
  = st_cfg (startOf (dailyTenant 1735765200)) /\
  st_posts (tickGuild sampleEnv (mutedWorld 1735765200000 [liveMatch]) sampleWhole
                      (startOf (dailyTenant 1735765200)))
  = st_posts (startOf (dailyTenant 1735765200)) /\
  st_disk (tickGuild sampleEnv (mutedWorld 1735765200000 [liveMatch]) sampleWhole
                     (startOf (dailyTenant 1735765200)))
  = st_disk (startOf (dailyTenant 1735765200)) /\
  st_last (tickGuild sampleEnv (mutedWorld 1735765200000 [liveMatch]) sampleWhole
                     (startOf (dailyTenant 1735765200)))
  = st_last (startOf (dailyTenant 1735765200)).
Proof.
  apply (X21_unsent_summary_stays_due sampleEnv (mutedWorld 1735765200000 [liveMatch])
           sampleWhole (startOf (dailyTenant 1735765200)) "chan" 1735765200).
  - repeat split.
  - intro p. reflexivity.
  - discriminate.
  - simpl. lia.
  - left. split; reflexivity.
Defined.

(** The [try] block around the final scorecard changes nothing when the
    channel accepts no message. *)
Lemma scorecard_unsent (w : World) (ch mid : string) (s : St) :
  (forall p, sendOk w ch p = false) ->
  tryCatch (sc <- liftResult (scorecardOf w mid) ;;
            match scorecardEmbedsFrom sc with
            | [] => ret tt
            | _ => send w ch (PFinalScorecard mid (scorecardEmbedsFrom sc))
            end) s = (inr tt, s).
Proof.
  intros Hsend. unfold tryCatch, bind.
  destruct (scorecardOf w mid) as [e|sc]; [reflexivity|].
  cbn [liftResult ret]. destruct (scorecardEmbedsFrom_cons sc) as (e0 & es & ->).
  unfold send. now rewrite Hsend.
Qed.

(** X22 (tick, custom mode): the removal of a finished match is written
    to the configuration and to the file before the tracking-stopped
    notice is sent.  When the channel accepts no message, the match is
    therefore dropped without any notice, the rest of the feed is not
    looked at, and the next due time of the block is not moved. *)
Theorem X22_finished_match_is_dropped_though_nothing_is_sent
        (env : Env) (w : World) (whole : Cfg -> Data) (s : St) (ch : string)
        (m : Match) (rest : list Match) :
  Serviced w (st_cfg s) ch ->
  (forall p, sendOk w ch p = false) ->
  diskOk w = true ->
  modeOf (st_cfg s) = "custom" ->
  default 0 (next_due (st_cfg s)) <= now w ->
  getCurrentMatchesSafe w = m :: rest ->
  In (matchIdOf m) (selectedOf (st_cfg s)) ->
  passesFilters (st_cfg s) m = true ->
  isFinishedOrStumps m = true ->
  let s' := tickGuild env w whole s in
  st_cfg s' = set_selected (Some (setDelete (matchIdOf m) (selectedOf (st_cfg s)))) (st_cfg s) /\
  st_disk s' = whole (st_cfg s') /\
  st_posts s' = st_posts s /\
  st_last s' = st_last s.
Proof.
  intros Hserv Hsend Hdisk Hmode Hdue Hfeed Hsel Hpass Hfin s'. subst s'.
  assert (Hlen : (length (selectedOf (st_cfg s)) =? 0)%nat = false)
    by (destruct (selectedOf (st_cfg s)); [contradiction | reflexivity]).
  rewrite (tickGuild_serviced env w whole s ch Hserv).
  assert (E : snd (tenantFrom env w whole ch (st_cfg s) s)
              = mkSt (set_selected (Some (setDelete (matchIdOf m) (selectedOf (st_cfg s))))
                                   (st_cfg s))
                     (st_last s)
                     (whole (set_selected
                               (Some (setDelete (matchIdOf m) (selectedOf (st_cfg s))))
                               (st_cfg s)))
                     (st_posts s) (st_trace s ++ [BranchA]));
    [|rewrite E; repeat split].
  unfold modeOf in Hmode. unfold selectedOf in Hlen.
  unfold tenantFrom. rewrite Hmode, Hlen. cbn [String.eqb Ascii.eqb Bool.eqb andb negb].
  fold (selectedOf (st_cfg s)).
  unfold passesFilters in Hpass.
  apply andb_true_iff in Hpass as [Hcg Ht]. apply andb_true_iff in Hcg as [Hc Hg].
  apply arrIncludes_true in Hsel. unfold isFinishedOrStumps in Hfin.
  assert (Hstep :
            trackMatch env w whole ch (mentionText (st_cfg s))
                       (default ALL_CATEGORIES (filters (st_cfg s)))
                       (default ["men"; "women"] (gender_filters (st_cfg s)))
                       (default [] (team_filters (st_cfg s)))
                       m (selectedOf (st_cfg s), false) (entered BranchA s)
            = (inl SendError,
               mkSt (set_selected (Some (setDelete (matchIdOf m) (selectedOf (st_cfg s))))
                                  (st_cfg s))
                    (st_last s)
                    (whole (set_selected (Some (setDelete (matchIdOf m) (selectedOf (st_cfg s))))
                                         (st_cfg s)))
                    (st_posts s) (st_trace s ++ [BranchA]))).
  { unfold trackMatch. rewrite Hsel, Hc, Hg, Ht, Hfin. cbn [andb].
    unfold bind at 1. rewrite (scorecard_unsent w ch _ _ Hsend).
    unfold bind, modifyCfg, saveData, send. cbn [st_cfg]. rewrite Hdisk, Hsend.
    reflexivity. }
  unfold branchA, customLive.
  unfold bind at 1. unfold bind at 1. unfold enter at 1.
  fold (entered BranchA s).
  unfold bind at 1. unfold getCfg at 1. cbn [st_cfg entered].
  destruct (Z.geb_spec (now w) (default 0 (next_due (st_cfg s)))) as [_|]; [|lia].
  rewrite Hfeed. cbn [forEach].
  unfold bind at 1. unfold bind at 1.
  fold (entered BranchA s). rewrite Hstep.
  reflexivity.
Qed.

Lemma X22_witness :
  let s' := tickGuild sampleEnv (mutedWorld 1735725600000 [wonMatch]) sampleWhole
                      (startOf (customTenant ["m1"])) in
  st_cfg s' = set_selected (Some (setDelete (matchIdOf wonMatch)
                                            (selectedOf (customTenant ["m1"]))))
                           (customTenant ["m1"]) /\
  st_disk s' = sampleWhole (st_cfg s') /\
  st_posts s' = [] /\
  st_last s' = ∅.
Proof.
  apply (X22_finished_match_is_dropped_though_nothing_is_sent
           sampleEnv (mutedWorld 1735725600000 [wonMatch]) sampleWhole
           (startOf (customTenant ["m1"])) "chan" wonMatch []).
  - repeat split.
  - intro p. reflexivity.
  - reflexivity.
  - reflexivity.
  - simpl. lia.
  - reflexivity.
  - now left.
  - reflexivity.
  - reflexivity.
Defined.

(** ** What a tick leaves alone *)

Lemma Housekept_refl (P : Post -> Prop) (sel0 : list string) (s : St) : Housekept P sel0 s s.
Proof.
  split; [reflexivity|]. split; [trivial|].
  exists []. split; [now rewrite app_nil_r|intros ? []].
Qed.

Lemma Housekept_trans (P : Post -> Prop) (sel0 : list string) (a b c : St) :
  Housekept P sel0 a b -> Housekept P sel0 b c -> Housekept P sel0 a c.
Proof.
  intros (S1 & I1 & d1 & P1 & L1) (S2 & I2 & d2 & P2 & L2).
  split; [congruence|]. split; [auto|].
  exists (d1 ++ d2). split; [now rewrite P2, P1, app_assoc|].
  intros cp H. apply in_app_or in H as [H|H]; auto.
Qed.

Lemma Housekept_quiet (P : Post -> Prop) (sel0 : list string) (s s' : St) :
  settingsOf (st_cfg s') = settingsOf (st_cfg s) ->
  selected_match_ids (st_cfg s') = selected_match_ids (st_cfg s) ->
  st_posts s' = st_posts s ->
  Housekept P sel0 s s'.
Proof.
  intros S1 S2 E. split; [exact S1|]. split.
  - unfold selectedOf. now rewrite S2.
  - exists []. split; [now rewrite app_nil_r|intros ? []].
Qed.

Lemma scorecardEmbedsFrom_length (sd : ScoreData) :
  (1 <= length (scorecardEmbedsFrom sd) <= 10)%nat.
Proof.
  unfold scorecardEmbedsFrom. rewrite List.length_firstn. cbn [length]. lia.
Qed.

(** The visit of one tenant whose mention text is [pingStr] and whose
    filters are [cats], [genders] and [teams], for a property [P] of the
    messages that the visit can send. *)
Section Housekeeping.

Variable env : Env.
Variable w : World.
Variable whole : Cfg -> Data.
Variable sel0 : list string.
Variable P : Post -> Prop.
Variable pingStr : option string.
Variables cats genders teams : list string.
Hypothesis Pnone : P PFallbackNone /\ P PDailyNone.
Hypothesis Ptomorrow : forall c, P (PTomorrow c).
Hypothesis Pstopped : forall mid, In mid sel0 -> P (PStopped mid).
Hypothesis Pfinal :
  forall mid sd, In mid sel0 -> P (PFinalScorecard mid (scorecardEmbedsFrom sd)).
Hypothesis Plive :
  forall m, In (matchIdOf m) sel0 -> passes cats genders teams m = true ->
            isFinishedOrStumps m = false -> relevantLive m = true ->
            P (PLive pingStr m).
Hypothesis Psummary :
  forall c sl, c = pingStr \/ c = None -> (1 <= length sl <= 8)%nat -> P (PSummary c sl).

Local Abbreviation HK := (Housekept P sel0).
Local Abbreviation hk_bind :=
  (holds_bind (Housekept P sel0) (Housekept_trans P sel0) (fun _ => True)).

Lemma hk_ret {A} (a : A) : holds HK (fun _ => True) (ret a).
Proof. apply holds_ret; [apply Housekept_refl|trivial]. Qed.

Lemma hk_key (set : option Z -> Cfg -> Cfg) (v : option Z) :
  (forall c, settingsOf (set v c) = settingsOf c /\
             selected_match_ids (set v c) = selected_match_ids c) ->
  holds HK (fun _ => True) (modifyCfg (set v)).
Proof.
  intros H s. split; [|trivial]. destruct (H (st_cfg s)) as [H1 H2].
  now apply Housekept_quiet.
Qed.

Lemma hk_saveData : holds HK (fun _ => True) (saveData w whole).
Proof.
  intros s. split; [|trivial]. unfold saveData.
  destruct (diskOk w); [now apply Housekept_quiet|apply Housekept_refl].
Qed.

Lemma hk_enter (b : Branch) : holds HK (fun _ => True) (enter b).
Proof. intros s. split; [|trivial]. now apply Housekept_quiet. Qed.

Lemma hk_send (ch : string) (p : Post) :
  P p -> holds HK (fun _ => True) (send w ch p).
Proof.
  intros H s. split; [|trivial]. unfold send.
  destruct (sendOk w ch p); [|apply Housekept_refl].
  split; [reflexivity|]. split; [trivial|].
  exists [(ch, p)]. split; [reflexivity|]. now intros cp [<-|[]].
Qed.

Lemma hk_sendEach {A} (ch : string) (f : A -> Post) (xs : list A) :
  (forall x, In x xs -> P (f x)) ->
  holds HK (fun _ => True) (forEach xs (fun x _ => send w ch (f x)) tt).
Proof.
  induction xs as [|x xs IH]; intros H; cbn [forEach]; [apply hk_ret|].
  apply hk_bind; [apply hk_send, H; now left|].
  intros [] _. apply IH. intros y Hy. apply H. now right.
Qed.

Lemma hk_sendTomorrowsInternationals (ch : string) :
  holds HK (fun _ => True) (sendTomorrowsInternationals env w ch).
Proof.
  unfold sendTomorrowsInternationals.
  apply hk_bind; [apply holds_getCfg, Housekept_refl|].
  intros cfg _. apply hk_sendEach. intros; apply Ptomorrow.
Qed.

Lemma hk_sendSlices (ch : string) (matches : list Match) :
  holds HK (fun _ => True) (sendSlices w ch pingStr matches).
Proof.
  unfold sendSlices. pose proof (slicesFrom_sizes (length matches) matches) as Z.
  fold (slices matches) in Z.
  destruct (slices matches) as [|first rest]; [apply hk_ret|].
  inversion Z as [|? ? Z1 Zr]; subst.
  apply hk_bind; [apply hk_send, Psummary; [now left|exact Z1]|].
  intros _ _. apply hk_sendEach. intros sl Hsl. apply Psummary; [now right|].
  exact (proj1 (List.Forall_forall _ _) Zr sl Hsl).
Qed.

Lemma hk_dailyCadence (ch : string) (dailyHHMM : string)
      (get : Cfg -> option Z) (set : option Z -> Cfg -> Cfg)
      (relevant : Match -> bool) (none : Post) :
  (forall v c, settingsOf (set v c) = settingsOf c /\
               selected_match_ids (set v c) = selected_match_ids c) ->
  P none ->
  holds HK (fun _ => True) (dailyCadence env w whole ch pingStr dailyHHMM get set relevant none).
Proof.
  intros Hset Hnone. unfold dailyCadence.
  apply hk_bind; [apply holds_getCfg, Housekept_refl|].
  intros cfg _.
  assert (Hinit : holds HK (fun _ : unit => True)
                        (modifyCfg (set (hhmmToNextDate w dailyHHMM)) ;;; saveData w whole)).
  { apply hk_bind; [apply hk_key, Hset|]. intros _ _. apply hk_saveData. }
  destruct (get cfg) as [[|nextRun|nextRun]|]; try exact Hinit.
  all: destruct (now w >=? _); [|apply hk_ret].
  all: apply hk_bind;
    [destruct (List.filter relevant (mergedMatches w));
     [now apply hk_send | apply hk_sendSlices]|].
  all: intros _ _; apply hk_bind; [apply hk_sendTomorrowsInternationals|].
  all: intros _ _; apply hk_bind; [apply hk_key, Hset|].
  all: intros _ _; apply hk_saveData.
Qed.

Lemma hk_trackMatch (ch : string) (m : Match) (loc : list string * bool) :
  incl (fst loc) sel0 ->
  holds HK (fun l => incl (fst l) sel0)
        (trackMatch env w whole ch pingStr cats genders teams m loc).
Proof.
  destruct loc as [sel anyLive]. cbn [fst]. intros Hloc.
  pose proof (Housekept_trans P sel0) as Htrans.
  unfold trackMatch.
  destruct (arrIncludes sel (matchIdOf m) && categoryAllowed m (Some cats)
            && genderAllowed m (Some genders) && teamAllowed m (Some teams)) eqn:G;
    [|apply holds_ret; [apply Housekept_refl|exact Hloc]].
  assert (Hin : In (matchIdOf m) sel0 /\ passes cats genders teams m = true).
  { unfold passes. rewrite !andb_true_iff in G. destruct G as [[[Gs Gc] Gg] Gt].
    split; [apply Hloc; now apply arrIncludes_true|]. now rewrite Gc, Gg, Gt. }
  destruct Hin as [Hin Hpass].
  assert (Hdel : incl (setDelete (matchIdOf m) sel) sel0).
  { intros x Hx. apply Hloc. apply setDelete_In in Hx. tauto. }
  destruct (testAnyI FINISHED_RE (orElse (m_status m) "")) eqn:F.
  - apply (holds_bind _ Htrans (fun _ => True)).
    { apply (holds_tryCatch _ (P := fun _ => True)).
      apply hk_bind; [apply holds_liftResult, Housekept_refl|].
      intros sc _. pose proof (Pfinal (matchIdOf m) sc Hin) as L.
      destruct (scorecardEmbedsFrom sc) as [|e0 es]; [apply hk_ret|].
      now apply hk_send. }
    intros _ _. apply (holds_bind _ Htrans (fun _ => True)).
    { intros s. split; [|trivial]. split; [reflexivity|]. split.
      - intros _. unfold selectedOf. cbn [modifyCfg snd st_cfg set_selected selected_match_ids].
        intros x Hx. apply Hdel. exact (proj1 (setOf_In _ _) Hx).
      - exists []. split; [cbn; now rewrite app_nil_r|intros ? []]. }
    intros _ _. apply (holds_bind _ Htrans (fun _ => True)); [apply hk_saveData|].
    intros _ _. apply (holds_bind _ Htrans (fun _ => True)); [now apply hk_send, Pstopped|].
    intros _ _. apply holds_ret; [apply Housekept_refl|exact Hdel].
  - destruct (relevantLive m) eqn:L; [|apply holds_ret; [apply Housekept_refl|exact Hloc]].
    apply (holds_bind _ Htrans (fun _ => True)); [apply holds_getLast, Housekept_refl|].
    intros last _.
    destruct (_ >=? _); [|apply holds_ret; [apply Housekept_refl|exact Hloc]].
    apply (holds_bind _ Htrans (fun _ => True)); [now apply hk_send, Plive|].
    intros _ _. apply (holds_bind _ Htrans (fun _ => True)).
    { intros s. split; [|trivial]. now apply Housekept_quiet. }
    intros _ _. apply holds_ret; [apply Housekept_refl|exact Hloc].
Qed.

Lemma hk_customLive (ch : string) (sel : list string) :
  incl sel sel0 ->
  holds HK (fun _ => True) (customLive env w whole ch pingStr cats genders teams sel).
Proof.
  intros HI. unfold customLive.
  apply hk_bind; [apply holds_getCfg, Housekept_refl|].
  intros cfg _. destruct (now w >=? _); [|apply hk_ret].
  apply (holds_bind _ (Housekept_trans P sel0) (fun l => incl (fst l) sel0)).
  - apply (holds_forEach _ (Housekept_refl P sel0) (Housekept_trans P sel0)
             (fun l => incl (fst l) sel0)); [|exact HI].
    intros m loc Hloc. now apply hk_trackMatch.
  - intros loc _. apply hk_bind; [now apply hk_key|].
    intros _ _. apply hk_bind; [apply hk_saveData|].
    intros _ _. apply hk_ret.
Qed.

Lemma hk_tenantFrom (ch : string) (cfg : Cfg) :
  mentionText cfg = pingStr ->
  default ALL_CATEGORIES (filters cfg) = cats ->
  default ["men"; "women"] (gender_filters cfg) = genders ->
  default [] (team_filters cfg) = teams ->
  incl (selectedOf cfg) sel0 ->
  holds HK (fun _ => True) (tenantFrom env w whole ch cfg).
Proof.
  intros Hping Hf Hg Ht HI. unfold tenantFrom. rewrite Hping, Hf, Hg, Ht.
  apply hk_bind.
  { destruct (_ && _); [|apply hk_ret].
    unfold branchA. apply hk_bind; [apply hk_enter|].
    intros _ _. now apply hk_customLive. }
  intros sel1 _. apply hk_bind.
  { destruct (_ && _); [|apply hk_ret].
    unfold branchB. apply hk_bind; [apply hk_enter|].
    intros _ _. apply hk_dailyCadence; [now intros|apply Pnone]. }
  intros _ _. destruct (String.eqb _ _); [|apply hk_ret].
  unfold branchC. apply hk_bind; [apply hk_enter|].
  intros _ _. apply hk_dailyCadence; [now intros|apply Pnone].
Qed.

Lemma hk_tickGuild (s : St) :
  mentionText (st_cfg s) = pingStr ->
  default ALL_CATEGORIES (filters (st_cfg s)) = cats ->
  default ["men"; "women"] (gender_filters (st_cfg s)) = genders ->
  default [] (team_filters (st_cfg s)) = teams ->
  incl (selectedOf (st_cfg s)) sel0 -> HK s (tickGuild env w whole s).
Proof.
  intros Hping Hf Hg Ht HI. unfold tickGuild.
  destruct (is_paused (st_cfg s)); [apply Housekept_refl|].
  destruct (channel_id (st_cfg s)) as [ch|]; [|apply Housekept_refl].
  destruct (isEmpty ch); [apply Housekept_refl|].
  destruct (channelFound w ch); [|apply Housekept_refl].
  unfold tenantBody, bind, getCfg.
  exact (proj1 (hk_tenantFrom ch (st_cfg s) Hping Hf Hg Ht HI s)).
Qed.

End Housekeeping.

Lemma withinLimits_tickGuild (env : Env) (w : World) (whole : Cfg -> Data) (s : St) :
  Housekept withinLimits (selectedOf (st_cfg s)) s (tickGuild env w whole s).
Proof.
  apply (hk_tickGuild env w whole _ withinLimits (mentionText (st_cfg s))
                      (default ALL_CATEGORIES (filters (st_cfg s)))
                      (default ["men"; "women"] (gender_filters (st_cfg s)))
                      (default [] (team_filters (st_cfg s))));
    try (intros; exact I); try reflexivity; try apply incl_refl.
  - split; exact I.
  - intros mid sd _. apply scorecardEmbedsFrom_length.
  - intros c sl _ H. exact H.
Qed.

Lemma hk_tickLoop (env : Env) (w : World) (todo : Data) :
  forall (done : Data) (last : gmap string Z) (dsk : Data) (out : list (string * Post)),
    let sys := tickLoop env w done todo last dsk out in
    (exists done', data sys = done ++ done' /\ Forall2 keptEntry todo done') /\
    exists d, posts sys = out ++ d /\ forall cp, In cp d -> withinLimits (snd cp).
Proof.
  induction todo as [|[gId cfg] rest IH]; intros done last dsk out; cbn [tickLoop].
  - split.
    + exists []. split; [now rewrite app_nil_r|constructor].
    + exists []. split; [now rewrite app_nil_r|intros ? []].
  - set (s := tickGuild env w _ _).
    pose proof (withinLimits_tickGuild env w (fun c => done ++ (gId, c) :: rest)
                                       (mkSt cfg last dsk out [])) as (S1 & I1 & d1 & P1 & L1).
    fold s in S1, I1, P1. cbn [st_cfg st_posts] in S1, I1, P1.
    destruct (IH (done ++ [(gId, st_cfg s)]) (st_last s) (st_disk s) (st_posts s))
      as ((done' & D & F) & d2 & P2 & L2).
    split.
    + exists ((gId, st_cfg s) :: done'). split.
      * rewrite D. now rewrite <- app_assoc.
      * constructor; [|exact F]. split; [reflexivity|]. split; [exact S1|].
        apply I1. apply incl_refl.
    + exists (d1 ++ d2). split; [now rewrite P2, P1, app_assoc|].
      intros cp H. apply in_app_or in H as [H|H]; auto.
Qed.

(** X23 (tick): a tick leaves what the administrators set alone.  After
    it the tenants are the same, in the same order, each with the same
    channel, mode, category, gender and team filters, daily time, ping
    settings and pause flag, and with a selection that holds no identity
    it did not hold before; this is so whatever the upstream answers and
    whatever fails. *)
Theorem X23_tick_keeps_the_settings (env : Env) (w : World) (sys : Sys) :
  Forall2 keptEntry (data sys) (data (tick env w sys)).
Proof.
  unfold tick.
  destruct (hk_tickLoop env w (data sys) [] (lastPostedByMatch sys) (disk sys) (posts sys))
    as ((done' & D & F) & _).
  cbv zeta in D. rewrite D. exact F.
Qed.

(** X24 (tick): a tick only adds messages, and every message it adds is
    within the limits: a summary message embeds between one and eight
    matches and a final-scorecard message between one and ten embeds,
    whatever the feed and the scorecard hold and whatever fails. *)
Theorem X24_tick_messages_are_within_limits (env : Env) (w : World) (sys : Sys) :
  exists delta,
    posts (tick env w sys) = posts sys ++ delta /\
    forall cp, In cp delta -> withinLimits (snd cp).
Proof.
  unfold tick.
  exact (proj2 (hk_tickLoop env w (data sys) [] (lastPostedByMatch sys) (disk sys)
                            (posts sys))).
Qed.

(** ** The merged list of the summaries *)

Lemma insertByIndex_perm {V} (n : N) (v : V) (l : list (N * V)) :
  Permutation (JsObj.insertByIndex n v l) ((n, v) :: l).
Proof.
  induction l as [|[n' v'] rest IH]; cbn [JsObj.insertByIndex]; [reflexivity|].
  destruct (n <=? n')%N; [reflexivity|].
  rewrite IH. apply perm_swap.
Qed.

Lemma values_perm {V} (obj : JsObj.t V) : Permutation (JsObj.values obj) (map snd obj).
Proof.
  unfold JsObj.values, JsObj.indexed, JsObj.named.
  induction obj as [|[k v] rest IH]; [reflexivity|].
  cbn [fold_right List.filter map fst snd].
  destruct (JsObj.arrayIndex k) as [n|].
  - rewrite (Permutation_map snd (insertByIndex_perm n v _)). cbn [map snd app].
    now apply perm_skip.
  - cbn [map snd]. rewrite <- Permutation_middle. now apply perm_skip.
Qed.

(** X26 (tick, the merged list): the list the two summaries are drawn
    from holds at most one record per identity, whatever the two upstream
    lists repeat: no summary embeds two records of one match. *)
Theorem X26_merged_list_has_one_record_per_identity (w : World) :
  List.NoDup (map matchIdOf (mergedMatches w)) /\
  forall m, In m (mergedMatches w) ->
            In m (getTodayMatchesSafe w ++ getCurrentMatchesSafe w).
Proof.
  split.
  - unfold mergedMatches, mergeById.
    pose proof (mergeById_In (getTodayMatchesSafe w ++ getCurrentMatchesSafe w)) as [N K].
    cbv zeta in N, K.
    set (obj := fold_left _ _ _) in *.
    apply (Permutation_NoDup (l := map matchIdOf (map snd obj))).
    + symmetry. apply Permutation_map, values_perm.
    + rewrite map_map.
      assert (E : map (fun x => matchIdOf (snd x)) obj = map fst obj).
      { apply map_ext_in. intros [k m] Hin. cbn [fst snd].
        symmetry. exact (proj1 (proj1 (K k m) Hin)). }
      rewrite E. exact N.
  - intros m Hm. apply mergedMatches_In in Hm as (pre & post & -> & _).
    apply in_or_app. right. now left.
Qed.

(** X27 (getTodayMatches, isTodayOrLive): every match of the day's list
    passes the today-or-live test of the summaries, provided the empty
    text is not read as today's date. *)
Theorem X27_todays_list_is_today_or_live (w : World) (m : Match) :
  isoDateOf w "" <> Some (todayISO w) ->
  In m (getTodayMatchesSafe w) ->
  isTodayOrLive w m = true.
Proof.
  intros Hempty Hin. unfold getTodayMatchesSafe in Hin.
  destruct (allMatches w) as [e|all]; [destruct Hin|].
  cbn [safe] in Hin. apply filter_In in Hin as [_ Hd].
  unfold onDate in Hd. unfold isTodayOrLive.
  destruct (m_dateTimeGMT m) as [dtg|]; [|discriminate].
  destruct (isoDateOf w dtg) as [d|] eqn:E; [|discriminate].
  destruct dtg as [|c r]; cbn [isEmpty].
  - apply String.eqb_eq in Hd. subst d. contradiction.
  - now rewrite Hd.
Qed.

Lemma X27_witness :
  In scheduledMatch (getTodayMatchesSafe (listedWorld [scheduledMatch])) /\
  isTodayOrLive (listedWorld [scheduledMatch]) scheduledMatch = true /\
  relevantLive scheduledMatch = false.
Proof.
  split; [now left|]. split; [|reflexivity].
  apply X27_todays_list_is_today_or_live; [discriminate|now left].
Defined.

(** ** Franchise fixtures *)

Lemma lastChar_spec (s k0 : string) (z : ascii) :
  lastChar s = Some (k0, z) -> s = k0 +:+ String z "".
Proof.
  revert k0 z. induction s as [|c r IH]; intros k0 z; cbn [lastChar]; [discriminate|].
  destruct (lastChar r) as [[r0 y]|] eqn:E.
  - intros [= <- <-]. rewrite sapp_cons. now rewrite <- (IH r0 y eq_refl).
  - intros [= <- <-]. destruct r as [|c' r']; [reflexivity|].
    cbn [lastChar] in E. destruct (lastChar r') as [[? ?]|]; discriminate.
Qed.

Lemma keptByNorm_tight (k : string) :
  keptByNorm k = true -> tight k /\ collapse false k = k.
Proof.
  unfold keptByNorm. destruct k as [|a k1]; [discriminate|].
  destruct (lastChar (String a k1)) as [[k0 z]|] eqn:E; [|discriminate].
  intros H. apply andb_true_iff in H as [H Hc]. apply andb_true_iff in H as [Ha Hz].
  apply negb_true_iff in Ha, Hz. apply String.eqb_eq in Hc.
  split; [split|exact Hc].
  - now exists a, k1.
  - exists k0, z. split; [now apply lastChar_spec|exact Hz].
Qed.

Lemma FRANCHISE_MAP_kept (k : string) : In k FRANCHISE_MAP -> keptByNorm k = true.
Proof.
  unfold FRANCHISE_MAP. cbn [In].
  intros H; repeat (destruct H as [<-|H]); try contradiction; reflexivity.
Qed.

(** X28 (guessCategory): a match without a regional-domestic signal whose
    series text, or whose name when it has no series, contains a franchise
    fragment in any letter case is classified as franchise, whatever its
    match type says: the franchise list is consulted before the
    first-class, list-A and international rules. *)
Theorem X28_franchise_fragment_in_any_case (m : Match) (s k : string) :
  isIndianDomestic m = false ->
  orElseOpt (m_series m) (m_name m) = Some s ->
  In k FRANCHISE_MAP ->
  includes (toLowerCase s) k = true ->
  guessCategory m = "franchise".
Proof.
  intros Hreg Hs Hk Hinc.
  assert (F : existsb (includes (seriesOf m)) FRANCHISE_MAP = true).
  { apply existsb_exists. exists k. split; [exact Hk|].
    unfold seriesOf. rewrite Hs.
    destruct (keptByNorm_tight k (FRANCHISE_MAP_kept k Hk)) as [Ht Hc].
    apply includes_norm; [exact Ht|exact Hc|].
    unfold orElse. destruct s; exact Hinc. }
  unfold guessCategory. now rewrite Hreg, F.
Qed.

Lemma X28_witness :
  guessCategory shoutedFranchise = "franchise" /\
  includes (norm (m_matchType shoutedFranchise)) "first class" = true.
Proof.
  split; [|reflexivity].
  apply (X28_franchise_fragment_in_any_case shoutedFranchise " BIG BASH League 2025 "
           "big bash"); [reflexivity|reflexivity| |reflexivity].
  unfold FRANCHISE_MAP. cbn [In]. auto.
Defined.

(** X29 (tick, daily mode): when the daily time of the tenant cannot be
    read as a time of day, a visit that finds the key unset posts nothing
    and leaves the key unset, so that the same happens at every later
    tick: the summary is never posted. *)
Theorem X29_unreadable_daily_time_never_fires
        (env : Env) (w : World) (whole : Cfg -> Data) (s : St) (ch : string) :
  Serviced w (st_cfg s) ch ->
  modeOf (st_cfg s) = "daily" ->
  default 0 (next_summary (st_cfg s)) = 0 ->
  hhmmToNextDate w (orElse (daily_time (st_cfg s)) (DAILY_SUMMARY_HHMM env)) = None ->
  st_posts (tickGuild env w whole s) = st_posts s /\
  next_summary (st_cfg (tickGuild env w whole s)) = None /\
  settingsOf (st_cfg (tickGuild env w whole s)) = settingsOf (st_cfg s).
Proof.
  intros Hserv Hmode Hkey Hclock.
  rewrite (tickGuild_serviced env w whole s ch Hserv).
  rewrite tenantFrom_daily by exact Hmode.
  assert (E : snd (branchC env w whole ch (mentionText (st_cfg s))
                           (orElse (daily_time (st_cfg s)) (DAILY_SUMMARY_HHMM env))
                           (default ALL_CATEGORIES (filters (st_cfg s)))
                           (default ["men"; "women"] (gender_filters (st_cfg s)))
                           (default [] (team_filters (st_cfg s))) s)
              = mkSt (set_next_summary None (st_cfg s)) (st_last s)
                     (if diskOk w then whole (set_next_summary None (st_cfg s)) else st_disk s)
                     (st_posts s) (st_trace s ++ [BranchC])).
  { unfold branchC, dailyCadence, bind, enter, getCfg.
    cbn beta iota. cbn [st_cfg st_posts st_last st_disk st_trace].
    destruct (next_summary (st_cfg s)) as [[|p|p]|]; try discriminate Hkey;
      unfold modifyCfg, saveData; cbn [st_cfg st_posts st_last st_disk st_trace];
      rewrite Hclock; destruct (diskOk w); reflexivity. }
  rewrite E. repeat split.
Qed.

Lemma X29_witness :
  st_posts (tickGuild sampleEnv (clocklessWorld 1735765200000) sampleWhole (startOf freshTenant))
  = st_posts (startOf freshTenant) /\
  next_summary
    (st_cfg (tickGuild sampleEnv (clocklessWorld 1735765200000) sampleWhole (startOf freshTenant)))
  = None /\
  settingsOf
    (st_cfg (tickGuild sampleEnv (clocklessWorld 1735765200000) sampleWhole (startOf freshTenant)))
  = settingsOf (st_cfg (startOf freshTenant)).
Proof.
  apply (X29_unreadable_daily_time_never_fires sampleEnv (clocklessWorld 1735765200000)
           sampleWhole (startOf freshTenant) "chan").
  - repeat split.
  - reflexivity.
  - reflexivity.
  - reflexivity.
Defined.

(** X30 (tick, custom mode): a visit posts about a match only with
    cause.  Every live update it adds is for a match that was selected
    when the visit started, passes the tenant's category, gender and team
    filters, is live and not finished, and carries the tenant's mention
    text; every final scorecard and tracking-stopped notice is for an
    identity that was selected.  This is so whatever the feed holds and
    whatever fails. *)
Theorem X30_tracking_posts_are_warranted
        (env : Env) (w : World) (whole : Cfg -> Data) (s : St) :
  exists delta,
    st_posts (tickGuild env w whole s) = st_posts s ++ delta /\
    forall cp, In cp delta -> warranted (st_cfg s) (snd cp).
Proof.
  refine (proj2 (proj2 (hk_tickGuild env w whole (selectedOf (st_cfg s))
                                     (warranted (st_cfg s)) (mentionText (st_cfg s))
                                     (default ALL_CATEGORIES (filters (st_cfg s)))
                                     (default ["men"; "women"] (gender_filters (st_cfg s)))
                                     (default [] (team_filters (st_cfg s)))
                                     _ _ _ _ _ _ s eq_refl eq_refl eq_refl eq_refl
                                     (incl_refl _)))).
  - split; exact I.
  - intros c. exact I.
  - intros mid H. exact H.
  - intros mid sd H. exact H.
  - intros m Hin Hpass Hfin Hlive. repeat split; assumption.
  - intros c sl _ _. exact I.
Qed.

(** ** An invocation that runs alone is the tick of the scheduler monad *)

Lemma finish_andThen {A B} (r : Interleaved.Async A) (k : A -> Interleaved.AsyncM B) :
  finish (Interleaved.andThen r k)
  = match finish r with
    | (inr a, p) => finish (k a p)
    | (inl e, p) => (inl e, p)
    end.
Proof.
  induction r as [a p|e p|p resume IH]; cbn [Interleaved.andThen finish]; try reflexivity.
  apply IH.
Qed.

Lemma finish_caught (r : Interleaved.Async unit) :
  finish (Interleaved.caught r)
  = match finish r with
    | (inl _, p) => (inr tt, p)
    | x => x
    end.
Proof.
  induction r as [a p|e p|p resume IH]; cbn [Interleaved.caught finish]; try reflexivity.
  apply IH.
Qed.

Lemma put_put {V} (k : string) (v v' : V) (obj : JsObj.t V) :
  JsObj.put k v' (JsObj.put k v obj) = JsObj.put k v' obj.
Proof.
  induction obj as [|[k0 v0] rest IH]; simpl.
  - now rewrite String.eqb_refl.
  - destruct (String.eqb k k0) eqn:E; simpl; rewrite E; [reflexivity|now rewrite IH].
Qed.

Lemma put_at {V} (k : string) (v v' : V) (done rest : JsObj.t V) :
  ~ In k (map fst done) ->
  JsObj.put k v' (done ++ (k, v) :: rest) = done ++ (k, v') :: rest.
Proof.
  induction done as [|[k0 v0] done IH]; simpl; intros Hnin.
  - now rewrite String.eqb_refl.
  - destruct (String.eqb_spec k k0) as [->|Hne]; [exfalso; apply Hnin; now left|].
    rewrite IH; [reflexivity|]. intros Hin. apply Hnin. now right.
Qed.

Section RunsAlone.

Variable env : Env.
Variable w : World.
Variable gId : string.
Variable d0 : Data.
Variable pre : list (Z * (string * Post)).
Variable whole : Cfg -> Data.
Hypothesis Hwhole : forall c, whole c = JsObj.put gId c d0.

Local Abbreviation sim := (refines w gId d0 pre).

Lemma sim_ret {A} (a : A) : sim (Interleaved.ret a) (ret a).
Proof. intros p s H. split; [reflexivity|exact H]. Qed.

Lemma sim_bind {A B} (ma : Interleaved.AsyncM A) (m : M A)
      (ka : A -> Interleaved.AsyncM B) (k : A -> M B) :
  sim ma m -> (forall a, sim (ka a) (k a)) -> sim (Interleaved.bind ma ka) (bind m k).
Proof.
  intros Hm Hk p s H. unfold Interleaved.bind, bind. rewrite finish_andThen.
  destruct (Hm p s H) as [Hr Hs].
  destruct (finish (ma p)) as [ra p']. destruct (m s) as [rm s'].
  cbn [fst snd] in Hr, Hs. subst rm.
  destruct ra as [e|a]; [split; [reflexivity|exact Hs]|].
  exact (Hk a p' s' Hs).
Qed.

Lemma sim_await {A} (ma : Interleaved.AsyncM A) (m : M A) :
  sim ma m -> sim (Interleaved.await ma) m.
Proof. intros Hm p s H. exact (Hm p s H). Qed.

(** [x <- await e ;; k x] when [e] settles to [v] and touches nothing. *)
Lemma sim_await_ret {A B} (v : A) (ka : A -> Interleaved.AsyncM B) (m : M B) :
  sim (ka v) m -> sim (Interleaved.bind (Interleaved.await (Interleaved.ret v)) ka) m.
Proof. intros Hm p s H. exact (Hm p s H). Qed.

Lemma sim_awaitCall {A} (ma : Interleaved.AsyncM A) (m : M A) :
  sim ma m -> sim (Interleaved.awaitCall ma) m.
Proof.
  intros Hm p s H. unfold Interleaved.awaitCall, Interleaved.bind. rewrite finish_andThen.
  destruct (Hm p s H) as [Hr Hs].
  destruct (finish (ma p)) as [ra p']. destruct (m s) as [rm s'].
  cbn [fst snd] in Hr, Hs. subst rm.
  destruct ra as [e|a]; split; first [reflexivity | exact Hs].
Qed.

Lemma sim_tryCatch (ma : Interleaved.AsyncM unit) (m : M unit) :
  sim ma m -> sim (Interleaved.tryCatch ma) (tryCatch m).
Proof.
  intros Hm p s H. unfold Interleaved.tryCatch, tryCatch. rewrite finish_caught.
  destruct (Hm p s H) as [Hr Hs].
  destruct (finish (ma p)) as [ra p']. destruct (m s) as [rm s'].
  cbn [fst snd] in Hr, Hs. subst rm.
  destruct ra as [e|[]]; split; first [reflexivity | exact Hs].
Qed.

Lemma sim_forEach {A L} (xs : list A) (ba : A -> L -> Interleaved.AsyncM L)
      (b : A -> L -> M L) :
  (forall x l, sim (ba x l) (b x l)) ->
  forall l, sim (Interleaved.forEach xs ba l) (forEach xs b l).
Proof.
  intros Hb. induction xs as [|x rest IH]; intros l; cbn [Interleaved.forEach forEach].
  - apply sim_ret.
  - apply sim_bind; [apply Hb | exact IH].
Qed.

Lemma sim_liftResult {A} (r : Result A) : sim (Interleaved.liftResult r) (liftResult r).
Proof. destruct r as [e|a]; intros p s H; (split; [reflexivity|exact H]). Qed.

(** The ghost record of the blocks entered is not part of the process. *)
Lemma sim_enter {A} (b : Branch) (ma : Interleaved.AsyncM A) (m : M A) :
  sim ma m -> sim ma (enter b ;;; m).
Proof.
  intros Hm p s H. unfold bind, enter.
  exact (Hm p (mkSt (st_cfg s) (st_last s) (st_disk s) (st_posts s) (st_trace s ++ [b])) H).
Qed.

Lemma sim_getCfg : sim (Interleaved.getCfg gId) getCfg.
Proof.
  intros p s H. unfold Interleaved.getCfg, getCfg.
  destruct H as (Hd & Hrest). rewrite Hd, getProp_put_same.
  split; [reflexivity|]. split; [exact Hd|exact Hrest].
Qed.

Lemma sim_modifyCfg (f : Cfg -> Cfg) : sim (Interleaved.modifyCfg gId f) (modifyCfg f).
Proof.
  intros p s (Hd & Hl & Hk & Hp). unfold Interleaved.modifyCfg, modifyCfg.
  rewrite Hd, getProp_put_same. cbn [finish fst snd].
  split; [reflexivity|]. unfold Alone. cbn. rewrite put_put. now repeat split.
Qed.

Lemma sim_saveData : sim (Interleaved.saveData w) (saveData w whole).
Proof.
  intros p s (Hd & Hl & Hk & Hp). unfold Interleaved.saveData, saveData.
  destruct (diskOk w); cbn [finish fst snd]; (split; [reflexivity|]).
  - unfold Alone. cbn. rewrite Hwhole. now repeat split.
  - now repeat split.
Qed.

Lemma sim_getLast (mid : string) : sim (Interleaved.getLast mid) (getLast mid).
Proof.
  intros p s H. unfold Interleaved.getLast, getLast. cbn [finish fst snd].
  destruct H as (Hd & Hl & Hrest). rewrite Hl. split; [reflexivity|]. now repeat split.
Qed.

Lemma sim_setLast (mid : string) (t : Z) : sim (Interleaved.setLast mid t) (setLast mid t).
Proof.
  intros p s (Hd & Hl & Hk & Hp). unfold Interleaved.setLast, setLast. cbn [finish fst snd].
  split; [reflexivity|]. unfold Alone. cbn. rewrite Hl. now repeat split.
Qed.

Lemma sim_send (ch : string) (post : Post) :
  sim (Interleaved.await (Interleaved.send w ch post)) (send w ch post).
Proof.
  apply sim_await. intros p s (Hd & Hl & Hk & Hp). unfold Interleaved.send, send.
  destruct (sendOk w ch post); cbn [finish fst snd]; (split; [reflexivity|]).
  - unfold Alone. cbn. rewrite Hp, map_app, app_assoc. now repeat split.
  - now repeat split.
Qed.

Lemma sim_sendTomorrowsInternationals (ch : string) :
  sim (Interleaved.sendTomorrowsInternationals env w gId ch)
      (sendTomorrowsInternationals env w ch).
Proof.
  unfold Interleaved.sendTomorrowsInternationals, sendTomorrowsInternationals.
  apply sim_await_ret. apply sim_bind; [apply sim_getCfg|]. intros cfg.
  apply sim_forEach. intros c []. apply sim_send.
Qed.

Lemma sim_sendSlices (ch : string) (pingStr : option string) (matches : list Match) :
  sim (Interleaved.sendSlices w ch pingStr matches) (sendSlices w ch pingStr matches).
Proof.
  unfold Interleaved.sendSlices, sendSlices.
  destruct (slices matches) as [|first rest]; [apply sim_ret|].
  apply sim_bind; [apply sim_send|]. intros _.
  apply sim_forEach. intros sl []. apply sim_send.
Qed.

Lemma sim_trackMatch (ch : string) (pingStr : option string)
      (filters genders teams : list string) (m : Match) (loc : list string * bool) :
  sim (Interleaved.trackMatch env w gId ch pingStr filters genders teams m loc)
      (trackMatch env w whole ch pingStr filters genders teams m loc).
Proof.
  unfold Interleaved.trackMatch, trackMatch. destruct loc as [sel anyLive].
  destruct (arrIncludes sel (matchIdOf m) && categoryAllowed m (Some filters)
            && genderAllowed m (Some genders) && teamAllowed m (Some teams));
    [|apply sim_ret].
  destruct (testAnyI FINISHED_RE (orElse (m_status m) "")).
  - apply sim_bind.
    { apply sim_tryCatch. apply sim_bind.
      - apply sim_await. apply sim_liftResult.
      - intros sc. destruct (scorecardEmbedsFrom sc); [apply sim_ret | apply sim_send]. }
    intros _. apply sim_bind; [apply sim_modifyCfg|]. intros _.
    apply sim_bind; [apply sim_saveData|]. intros _.
    apply sim_bind; [apply sim_send|]. intros _. apply sim_ret.
  - destruct (relevantLive m); [|apply sim_ret].
    apply sim_bind; [apply sim_getLast|]. intros last.
    destruct (now w - last >=? (POLL_SECONDS env - 5) * 1000); [|apply sim_ret].
    apply sim_bind; [apply sim_send|]. intros _.
    apply sim_bind; [apply sim_setLast|]. intros _. apply sim_ret.
Qed.

Lemma sim_customLive (ch : string) (pingStr : option string)
      (filters genders teams : list string) (sel : list string) :
  sim (Interleaved.customLive env w gId ch pingStr filters genders teams sel)
      (customLive env w whole ch pingStr filters genders teams sel).
Proof.
  unfold Interleaved.customLive, customLive.
  apply sim_bind; [apply sim_getCfg|]. intros cfg. cbv zeta.
  destruct (now w >=? default 0 (next_due cfg)); [|apply sim_ret].
  apply sim_await_ret.
  apply sim_bind; [apply sim_forEach; intros x l; apply sim_trackMatch|]. intros loc.
  apply sim_bind; [apply sim_modifyCfg|]. intros _.
  apply sim_bind; [apply sim_saveData|]. intros _. apply sim_ret.
Qed.

Lemma sim_dailyCadence (ch : string) (pingStr : option string) (dailyHHMM : string)
      (get : Cfg -> option Z) (set : option Z -> Cfg -> Cfg)
      (relevant : Match -> bool) (none : Post) :
  sim (Interleaved.dailyCadence env w gId ch pingStr dailyHHMM get set relevant none)
      (dailyCadence env w whole ch pingStr dailyHHMM get set relevant none).
Proof.
  unfold Interleaved.dailyCadence, dailyCadence.
  apply sim_bind; [apply sim_getCfg|]. intros cfg.
  assert (Hset : sim (Interleaved.bind (Interleaved.modifyCfg gId (set (hhmmToNextDate w dailyHHMM)))
                                       (fun _ => Interleaved.saveData w))
                     (modifyCfg (set (hhmmToNextDate w dailyHHMM)) ;;; saveData w whole)).
  { apply sim_bind; [apply sim_modifyCfg|]. intros _. apply sim_saveData. }
  destruct (get cfg) as [[|nextRun|nextRun]|]; try exact Hset.
  - destruct (now w >=? Z.pos nextRun * 1000); [|apply sim_ret].
    apply sim_await_ret. apply sim_await_ret. cbv zeta.
    change (JsObj.values (mergeById (getTodayMatchesSafe w) (getCurrentMatchesSafe w)))
      with (mergedMatches w).
    apply sim_bind.
    { destruct (List.filter relevant (mergedMatches w));
        [apply sim_send | apply sim_sendSlices]. }
    intros _. apply sim_bind.
    { apply sim_awaitCall. apply sim_sendTomorrowsInternationals. }
    intros _. apply sim_bind; [apply sim_modifyCfg|]. intros _. apply sim_saveData.
  - destruct (now w >=? Z.neg nextRun * 1000); [|apply sim_ret].
    apply sim_await_ret. apply sim_await_ret. cbv zeta.
    change (JsObj.values (mergeById (getTodayMatchesSafe w) (getCurrentMatchesSafe w)))
      with (mergedMatches w).
    apply sim_bind.
    { destruct (List.filter relevant (mergedMatches w));
        [apply sim_send | apply sim_sendSlices]. }
    intros _. apply sim_bind.
    { apply sim_awaitCall. apply sim_sendTomorrowsInternationals. }
    intros _. apply sim_bind; [apply sim_modifyCfg|]. intros _. apply sim_saveData.
Qed.

Lemma sim_tenantFrom (ch : string) (cfg : Cfg) :
  sim (Interleaved.tenantFrom env w gId ch cfg) (tenantFrom env w whole ch cfg).
Proof.
  unfold Interleaved.tenantFrom, tenantFrom. cbv zeta.
  apply sim_bind.
  { destruct (String.eqb (orElse (mode cfg) "daily") "custom"
              && negb (length (setOf (default [] (selected_match_ids cfg))) =? 0)%nat);
      [|apply sim_ret].
    unfold branchA. apply sim_enter. apply sim_customLive. }
  intros sel1. apply sim_bind.
  { destruct (String.eqb (orElse (mode cfg) "daily") "custom" && (length sel1 =? 0)%nat);
      [|apply sim_ret].
    unfold branchB. apply sim_enter. apply sim_dailyCadence. }
  intros _.
  destruct (String.eqb (orElse (mode cfg) "daily") "daily"); [|apply sim_ret].
  unfold branchC. apply sim_enter. apply sim_dailyCadence.
Qed.

(** One tenant's iteration, run alone, is [tickGuild]. *)
Lemma tickGuild_alone (p : Interleaved.Proc) (s : St) :
  Alone w gId d0 pre p s ->
  fst (finish (Interleaved.tickGuild env w gId p)) = inr tt /\
  Alone w gId d0 pre (snd (finish (Interleaved.tickGuild env w gId p)))
        (tickGuild env w whole s).
Proof.
  intros H.
  set (visit := tryCatch
                  (cfg <- getCfg ;;
                   if is_paused cfg then ret tt
                   else match channel_id cfg with
                        | None => ret tt
                        | Some ch =>
                            if isEmpty ch then ret tt
                            else if channelFound w ch then tenantBody env w whole ch
                                 else ret tt
                        end)).
  assert (Hsim : sim (Interleaved.tickGuild env w gId) visit).
  { unfold Interleaved.tickGuild, visit. apply sim_tryCatch.
    apply sim_bind; [apply sim_getCfg|]. intros cfg.
    destruct (is_paused cfg); [apply sim_ret|].
    destruct (channel_id cfg) as [ch|]; [|apply sim_ret].
    destruct (isEmpty ch); [apply sim_ret|].
    apply sim_await_ret.
    destruct (channelFound w ch); [|apply sim_ret].
    unfold tenantBody. apply sim_bind; [apply sim_getCfg|]. intros c. apply sim_tenantFrom. }
  assert (Hvisit : visit s = (inr tt, tickGuild env w whole s)).
  { unfold visit, tickGuild, tryCatch, bind at 1, getCfg.
    destruct (is_paused (st_cfg s)); [reflexivity|].
    destruct (channel_id (st_cfg s)) as [ch|]; [|reflexivity].
    destruct (isEmpty ch); [reflexivity|].
    destruct (channelFound w ch); [|reflexivity].
    destruct (tenantBody env w whole ch s) as [[e|[]] s']; reflexivity. }
  destruct (Hsim p s H) as [Hr Hs]. rewrite Hvisit in Hr, Hs. split; assumption.
Qed.

End RunsAlone.

(** The loop of [tick], run alone, is [tickLoop]. *)
Lemma tickLoop_alone (env : Env) (w : World) (pre : list (Z * (string * Post)))
      (todo : Data) :
  forall (done : Data) (last : gmap string Z) (dsk : Data) (out : list (string * Post))
         (p : Interleaved.Proc),
    List.NoDup (map fst (done ++ todo)) ->
    Interleaved.data p = done ++ todo ->
    Interleaved.lastPostedByMatch p = last ->
    Interleaved.disk p = dsk ->
    Interleaved.posts p = pre ++ map (fun cp => (now w, cp)) out ->
    finish (Interleaved.forEach (map fst todo) (fun gId _ => Interleaved.tickGuild env w gId) tt p)
    = (inr tt,
       Interleaved.mkProc
         (data (tickLoop env w done todo last dsk out))
         (lastPostedByMatch (tickLoop env w done todo last dsk out))
         (disk (tickLoop env w done todo last dsk out))
         (pre ++ map (fun cp => (now w, cp)) (posts (tickLoop env w done todo last dsk out)))).
Proof.
  induction todo as [|[gId cfg] rest IH]; intros done last dsk out p Hnd Hd Hl Hk Hp.
  - cbn [map Interleaved.forEach tickLoop data lastPostedByMatch disk posts].
    unfold Interleaved.ret. cbn [finish].
    rewrite app_nil_r in Hd. destruct p as [pd pl pk pp]. cbn in Hd, Hl, Hk, Hp.
    now subst.
  - cbn [map fst Interleaved.forEach tickLoop].
    unfold Interleaved.bind. rewrite finish_andThen.
    assert (Hnin : ~ In gId (map fst done)).
    { rewrite map_app in Hnd. apply NoDup_remove_2 in Hnd. intros Hin. apply Hnd.
      apply in_or_app. now left. }
    pose proof (tickGuild_alone env w gId (done ++ (gId, cfg) :: rest) pre
                                (fun c => done ++ (gId, c) :: rest)
                                (fun c => eq_sym (put_at gId cfg c done rest Hnin))
                                p (mkSt cfg last dsk out [])) as Hvisit.
    destruct Hvisit as [Hr Hs].
    { unfold Alone. cbn [st_cfg st_last st_disk st_posts].
      rewrite put_at by exact Hnin. now repeat split. }
    set (s' := tickGuild env w (fun c => done ++ (gId, c) :: rest) (mkSt cfg last dsk out [])) in *.
    destruct (finish (Interleaved.tickGuild env w gId p)) as [r p'].
    cbn [fst snd] in Hr, Hs. subst r.
    destruct Hs as (Hd' & Hl' & Hk' & Hp').
    rewrite put_at in Hd' by exact Hnin.
    apply IH; trivial.
    + rewrite <- app_assoc. cbn [app]. rewrite map_app in *. exact Hnd.
    + rewrite <- app_assoc. exact Hd'.
Qed.

(** An invocation of [tick] from its start to its end with nothing in
    between, in a process whose tenants have distinct ids, does what [tick]
    of the scheduler monad does; its messages carry its clock reading. *)
Lemma tick_alone (env : Env) (w : World) (sys : Sys) (pre : list (Z * (string * Post))) :
  List.NoDup (map fst (data sys)) ->
  finish (Interleaved.tick env w
            (Interleaved.mkProc (data sys) (lastPostedByMatch sys) (disk sys) pre))
  = (inr tt,
     Interleaved.mkProc
       (data (tick env w (mkSys (data sys) (lastPostedByMatch sys) (disk sys) [])))
       (lastPostedByMatch (tick env w (mkSys (data sys) (lastPostedByMatch sys) (disk sys) [])))
       (disk (tick env w (mkSys (data sys) (lastPostedByMatch sys) (disk sys) [])))
       (pre ++ map (fun cp => (now w, cp))
                   (posts (tick env w (mkSys (data sys) (lastPostedByMatch sys) (disk sys) []))))).
Proof.
  intros Hnd. unfold Interleaved.tick, tick. cbn [Interleaved.data data lastPostedByMatch disk posts].
  apply tickLoop_alone; trivial.
  cbn [map]. now rewrite app_nil_r.
Qed.

(** ** Invocations that overlap *)

(** The two invocations of [pendingSend], the second started after the
    first has ended: the second finds the block not due and posts nothing. *)
Lemma invocations_in_turn :
  let r := Interleaved.schedule sampleEnv
             [Interleaved.Fire (sampleWorld 1735725600000 [liveMatch]);
              Interleaved.Settle 0; Interleaved.Settle 0; Interleaved.Settle 0;
              Interleaved.Fire (sampleWorld 1735725660000 [liveMatch]);
              Interleaved.Settle 1]
             [] (trackingProc 1735725000000) in
  Interleaved.allReturned (fst r) = true /\
  Interleaved.posts (snd r) = [(1735725600000, ("chan", PLive None liveMatch))].
Proof. split; vm_compute; reflexivity. Qed.

(** The two invocations of [staggered], the second started after the
    first has ended: the second finds the first tenant due and the entry of
    [lastPostedByMatch] a minute old, and posts nothing. *)
Lemma staggered_in_turn :
  let r := Interleaved.schedule sampleEnv
             [Interleaved.Fire (sampleWorld 1735725600000 [liveMatch]);
              Interleaved.Settle 0; Interleaved.Settle 0; Interleaved.Settle 0;
              Interleaved.Settle 0;
              Interleaved.Fire (sampleWorld 1735725660000 [liveMatch]);
              Interleaved.Settle 1; Interleaved.Settle 1; Interleaved.Settle 1]
             [] (staggeredProc 1735725600000) in
  Interleaved.allReturned (fst r) = true /\
  Interleaved.posts (snd r) = [(1735725600000, ("chan2", PLive None liveMatch))].
Proof. split; vm_compute; reflexivity. Qed.

(** C6 at the inputs on which the code departs from it.

    The live update of ["m1"] was last posted at 09:50:00; the tenant
    tracks it and the match is live.  The invocation of 10:00:00 passes the
    test [now-last>=POLL_SECONDS-5] and rests at [await channel.send];
    [lastPostedByMatch] is written only after that.  The invocation of
    10:01:00 starts meanwhile, reads the same entry, passes the same test
    and posts as well: the channel receives two live updates for ["m1"]
    sixty seconds apart, the second before 595 seconds have passed since
    the first.

    The test itself is computed in seconds as JavaScript numbers: with the
    last post at 2147483053002 ms and the tick at 2147483648002 ms,
    exactly 595 seconds later, [now-last] is below 595 and the tick does
    not post. *)
Theorem C6_second_live_update_within_the_gap :
  let r := Interleaved.schedule sampleEnv (pendingSend 1735725600000 [liveMatch]) []
                                (trackingProc 1735725000000) in
  Interleaved.allReturned (fst r) = true /\
  Interleaved.posts (snd r)
  = [(1735725600000, ("chan", PLive None liveMatch));
     (1735725660000, ("chan", PLive None liveMatch))] /\
  liveFor "m1" (PLive None liveMatch) = true /\
  1735725660000 < 1735725600000 + (POLL_SECONDS sampleEnv - 5) * 1000 /\
  2147483648002 - 2147483053002 = (POLL_SECONDS sampleEnv - 5) * 1000 /\
  dueInNumbers 2147483648002 2147483053002 600 = false.
Proof.
  repeat split; vm_compute; reflexivity.
Qed.

(** C10 at the input on which the code departs from it.

    Two tenants track ["m1"], last posted at 09:50:00.  The invocation of
    10:00:00 finds the first tenant not yet due, and for the second tenant
    passes the test and rests at [await channel.send]; the shared entry of
    [lastPostedByMatch] is written only after that.  The invocation of
    10:01:00 finds the first tenant due, reads the same entry, passes the
    test and posts too: a live update for ["m1"] goes to the second
    tenant's channel and, sixty seconds later, one to the first tenant's
    channel. *)
Theorem C10_two_tenants_post_within_the_gap :
  let r := Interleaved.schedule sampleEnv (staggered 1735725600000 [liveMatch]) []
                                (staggeredProc 1735725600000) in
  Interleaved.allReturned (fst r) = true /\
  Interleaved.posts (snd r)
  = [(1735725600000, ("chan2", PLive None liveMatch));
     (1735725660000, ("chan", PLive None liveMatch))] /\
  liveFor "m1" (PLive None liveMatch) = true /\
  1735725660000 < 1735725600000 + (POLL_SECONDS sampleEnv - 5) * 1000.
Proof.
  repeat split; vm_compute; reflexivity.
Qed.
